(** * Speculos device manager and application-candidate resolver

    A shallow embedding of the speculos module (the table of emulator
    instances, the scan of the [coinapps] directory tree, candidate matching
    and the query parser), followed by the properties stated about it. *)

From Stdlib Require Import ZArith NArith List String Ascii Sorted Lia Bool.
From stdpp Require Import base option list gmap strings pretty sorting.

Local Open Scope string_scope.
Local Open Scope list_scope.

(** ** JavaScript values and string primitives *)

(** Strings are sequences of code units, here those below 256. *)

(** What every plain object inherits from [Object.prototype]: the function
    [Object] under [constructor], [Object.prototype] itself under
    [__proto__], and the methods. *)
Inductive builtin : Type :=
  | ObjectFunction
  | ObjectPrototype
  | ObjectMethod (name : string).

#[global] Instance builtin_eq_dec : EqDecision builtin.
Proof. solve_decision. Defined.

Definition Object_prototype (k : string) : option builtin :=
  if String.eqb k "constructor" then Some ObjectFunction
  else if String.eqb k "__proto__" then Some ObjectPrototype
  else if bool_decide (k ∈ ["__defineGetter__"; "__defineSetter__"; "__lookupGetter__";
                            "__lookupSetter__"; "hasOwnProperty"; "isPrototypeOf";
                            "propertyIsEnumerable"; "toLocaleString"; "toString";
                            "valueOf"])
  then Some (ObjectMethod k)
  else None.

(** The values the program stores in optional string slots: a string or
    [undefined]; and what the reading of a plain object by an inherited key
    puts there, one of the objects above. *)
Inductive jsval : Type :=
  | JUndefined
  | JStr (s : string)
  | JObject (o : builtin).

#[global] Instance jsval_eq_dec : EqDecision jsval.
Proof. solve_decision. Defined.

(** [Boolean(v)]: [undefined] and the empty string are falsy, an object is
    truthy. *)
Definition truthy (v : jsval) : bool :=
  match v with
  | JUndefined => false
  | JStr s => negb (String.eqb s "")
  | JObject _ => true
  end.

(** [v || undefined] *)
Definition or_undefined (v : jsval) : jsval :=
  if truthy v then v else JUndefined.

(** String conversion used by [+=], [join] and template literals. *)
Definition js_to_string (v : jsval) : string :=
  match v with
  | JUndefined => "undefined"
  | JStr s => s
  | JObject ObjectFunction => "function Object() { [native code] }"
  | JObject ObjectPrototype => "[object Object]"
  | JObject (ObjectMethod name) => "function " +:+ name +:+ "() { [native code] }"
  end.

(** [v || ""] where a string is then used: [v] is an optional string
    wherever the program writes this. *)
Definition or_empty (v : jsval) : string :=
  if truthy v then js_to_string v else "".

(** Reading index [i] of an array of strings: [undefined] out of range. *)
Definition js_index (l : list string) (i : nat) : jsval :=
  match l !! i with
  | Some s => JStr s
  | None => JUndefined
  end.

(** [String.prototype.toLowerCase]: below 256 the upper-case letters are
    [A-Z] and U+00C0 to U+00DE without the sign U+00D7, each 32 below its
    lower-case letter. *)
Definition lower_ascii (c : ascii) : ascii :=
  let n := N_of_ascii c in
  if (((65 <=? n) && (n <=? 90))
      || ((192 <=? n) && (n <=? 222) && negb (n =? 215)))%N
  then ascii_of_N (n + 32) else c.

Fixpoint toLowerCase (s : string) : string :=
  match s with
  | EmptyString => EmptyString
  | String c t => String (lower_ascii c) (toLowerCase t)
  end.

(** [s.split(sep)] for a one-character separator: never the empty array. *)
Fixpoint split (sep : ascii) (s : string) : list string :=
  match s with
  | EmptyString => [EmptyString]
  | String c t =>
      if Ascii.eqb c sep then EmptyString :: split sep t
      else match split sep t with
           | h :: r => String c h :: r
           | [] => [String c EmptyString]
           end
  end.

(** [l.join(sep)] on an array of strings. *)
Fixpoint join (sep : string) (l : list string) : string :=
  match l with
  | [] => ""
  | [x] => x
  | x :: r => x +:+ sep +:+ join sep r
  end.

(** Every character of [s] passes [p]. *)
Fixpoint all_chars (p : ascii -> bool) (s : string) : bool :=
  match s with
  | EmptyString => true
  | String c t => p c && all_chars p t
  end.

(** [s] does not contain the character [c]. *)
Definition no_char (c : ascii) (s : string) : bool :=
  all_chars (fun x => negb (Ascii.eqb x c)) s.

(** [s.startsWith(p)] and [s.endsWith(p)]. *)
Definition startsWith (s p : string) : bool := String.prefix p s.

Definition endsWith (s p : string) : bool :=
  String.prefix (String.rev p) (String.rev s).

(** [s.slice(a, b)] for non-negative [a] and [b], and [s.slice(a)]. *)
Definition slice (s : string) (a b : nat) : string :=
  String.substring a (b - a) s.

Definition slice_from (s : string) (a : nat) : string :=
  String.substring a (String.length s - a) s.

(** [arr.filter(Boolean)] on an array of optional strings, for the [join]
    that follows: what is left are non-empty strings. *)
Definition filter_Boolean (l : list jsval) : list string :=
  omap (fun v => if truthy v then Some (js_to_string v) else None) l.

(** ** The version normalizer *)

(** [hackBadSemver]: the array destructuring [[x, y, z, ...rest]] leaves
    [undefined] in the slots the split does not fill. *)
Definition hackBadSemver (str : string) : string :=
  let parts := split "." str in
  let x := js_index parts 0 in
  let y := js_index parts 1 in
  let z := js_index parts 2 in
  let rest := drop 3 parts in
  let z := if negb (length rest =? 0)%nat
           then JStr (js_to_string z +:+ "-" +:+ join "-" rest)
           else z in
  join "." (filter_Boolean [x; y; z]).

(** ** Three-way comparisons

    The comparators of the program return a number whose sign orders the two
    arguments.  Their building blocks are kept as [comparison]s; a comparison
    that is antisymmetric, transitive and congruent for [Eq] yields a total
    preorder, and lexicographic combinations keep these properties. *)

Definition lex (c d : comparison) : comparison :=
  match c with
  | Eq => d
  | _ => c
  end.

Definition sign (c : comparison) : Z :=
  match c with
  | Lt => -1
  | Eq => 0
  | Gt => 1
  end.

Fixpoint list_cmp {A} (cmp : A -> A -> comparison) (l1 l2 : list A) : comparison :=
  match l1, l2 with
  | [], [] => Eq
  | [], _ :: _ => Lt
  | _ :: _, [] => Gt
  | x :: r, y :: s => lex (cmp x y) (list_cmp cmp r s)
  end.

Definition pair_cmp {A B} (ca : A -> A -> comparison) (cb : B -> B -> comparison)
    (p q : A * B) : comparison :=
  lex (ca (fst p) (fst q)) (cb (snd p) (snd q)).

Record ordering {A} (cmp : A -> A -> comparison) : Prop := {
  cmp_opp : forall x y, cmp y x = CompOpp (cmp x y);
  cmp_lt_trans : forall x y z, cmp x y = Lt -> cmp y z = Lt -> cmp x z = Lt;
  cmp_eq_l : forall x y z, cmp x y = Eq -> cmp x z = cmp y z
}.

(** ** The [semver] package

    [semver.valid], [semver.compare] and [semver.satisfies] belong to the npm
    package [semver], not to this repository.  Versions are modelled on the
    package's strict grammar: an optional leading [v], three numeric
    identifiers without leading zeros and at most [Number.MAX_SAFE_INTEGER],
    an optional prerelease after [-] and optional build metadata after [+],
    the whole at most 256 characters.  [semver.valid] tests the string as it
    is; the constructor [new SemVer], through which [semver.compare] reads
    its arguments, trims it first.  Numeric prerelease identifiers are
    compared as the package compares them, as floating-point numbers. *)
Module semver.

Definition MAX_LENGTH : nat := 256.
Definition MAX_SAFE_INTEGER : N := 9007199254740991.

Definition is_digit (c : ascii) : bool :=
  let n := N_of_ascii c in ((48 <=? n) && (n <=? 57))%N.

Definition is_letter (c : ascii) : bool :=
  let n := N_of_ascii c in
  (((65 <=? n) && (n <=? 90)) || ((97 <=? n) && (n <=? 122)))%N.

(** [[0-9A-Za-z-]] *)
Definition is_ident_char (c : ascii) : bool :=
  is_digit c || is_letter c || Ascii.eqb c "-".

(** [0|[1-9]\d*] *)
Definition numeric_identifier (s : string) : bool :=
  match s with
  | EmptyString => false
  | String c t => all_chars is_digit s && (negb (Ascii.eqb c "0") || String.eqb t "")
  end.

Fixpoint decimal_value (acc : N) (s : string) : N :=
  match s with
  | EmptyString => acc
  | String c t => decimal_value (10 * acc + (N_of_ascii c - 48)) t
  end.

Inductive identifier : Type :=
  | INum (n : N)
  | IAlpha (s : string).

#[global] Instance identifier_eq_dec : EqDecision identifier.
Proof. solve_decision. Defined.

(** A prerelease identifier: numeric, or [\d*[a-zA-Z-][a-zA-Z0-9-]*]. *)
Definition prerelease_identifier (s : string) : option identifier :=
  if numeric_identifier s then Some (INum (decimal_value 0 s))
  else if all_chars is_ident_char s && negb (all_chars is_digit s)
       then Some (IAlpha s)
       else None.

(** A build identifier: [[0-9A-Za-z-]+]. *)
Definition build_identifier (s : string) : bool :=
  negb (String.eqb s "") && all_chars is_ident_char s.

(** Cut a string at the first occurrence of [sep]. *)
Fixpoint cut (sep : ascii) (s : string) : string * option string :=
  match s with
  | EmptyString => (EmptyString, None)
  | String c t =>
      if Ascii.eqb c sep then (EmptyString, Some t)
      else let '(h, r) := cut sep t in (String c h, r)
  end.

Definition strip_v (s : string) : string :=
  match s with
  | String "v" t => t
  | _ => s
  end.

Record SemVer : Type := {
  major : N;
  minor : N;
  patch : N;
  prerelease : list identifier
}.

(** [String.prototype.trim]: the white space and the line terminators below
    256 are tab, line feed, vertical tab, form feed, carriage return, space
    and no-break space. *)
Definition is_whitespace (c : ascii) : bool :=
  bool_decide (N_of_ascii c ∈ [9; 10; 11; 12; 13; 32; 160]%N).

Fixpoint trimStart (s : string) : string :=
  match s with
  | EmptyString => EmptyString
  | String c t => if is_whitespace c then trimStart t else s
  end.

Fixpoint trimEnd (s : string) : string :=
  match s with
  | EmptyString => EmptyString
  | String c t =>
      match trimEnd t with
      | EmptyString => if is_whitespace c then EmptyString else String c EmptyString
      | t' => String c t'
      end
  end.

Definition trim (s : string) : string := trimEnd (trimStart s).

(** The match of the strict grammar on the whole of [s], with the bounds on
    the length and on the three numbers: the version [semver.parse] gives
    for [s], [None] for [null]. *)
Definition parse (s : string) : option SemVer :=
  if (MAX_LENGTH <? String.length s)%nat then None
  else
    let '(core_pre, build) := cut "+" (strip_v s) in
    let build_ok := match build with
                    | None => true
                    | Some b => forallb build_identifier (split "." b)
                    end in
    let '(core, pre) := cut "-" core_pre in
    match split "." core with
    | [a; b; c] =>
        if build_ok && numeric_identifier a && numeric_identifier b
           && numeric_identifier c
           && (decimal_value 0 a <=? MAX_SAFE_INTEGER)%N
           && (decimal_value 0 b <=? MAX_SAFE_INTEGER)%N
           && (decimal_value 0 c <=? MAX_SAFE_INTEGER)%N
        then
          match pre with
          | None => Some {| major := decimal_value 0 a; minor := decimal_value 0 b;
                            patch := decimal_value 0 c; prerelease := [] |}
          | Some p =>
              ids ← mapM prerelease_identifier (split "." p);
              Some {| major := decimal_value 0 a; minor := decimal_value 0 b;
                      patch := decimal_value 0 c; prerelease := ids |}
          end
        else None
    | _ => None
    end.

(** [semver.valid(s)], as a truth value. *)
Definition valid (s : string) : bool := bool_decide (is_Some (parse s)).

(** [new SemVer(s)]: the length of [s] is bounded as it is, the grammar is
    matched on [s.trim()]; [None] where the constructor throws. *)
Definition construct (s : string) : option SemVer :=
  if (MAX_LENGTH <? String.length s)%nat then None else parse (trim s).

(** [+id] for a string of digits of value [n]: the nearest floating-point
    number of 53 significant bits, ties to the even one; what rounds up to
    2^1024 is [Infinity], which 2^1024 stands for.  Below 2^53 the number is
    [n] itself. *)
Definition to_number (n : N) : N :=
  if (n <? 2 ^ 53)%N then n
  else
    let e := (N.log2 n - 52)%N in
    let q := N.shiftr n e in
    let r := N.land n (N.ones e) in
    let half := N.shiftl 1 (e - 1) in
    let q := if (half <? r)%N || ((r =? half)%N && N.odd q) then (q + 1)%N else q in
    N.min (2 ^ 1024) (N.shiftl q e).

(** Strings compare by code unit. *)
Definition string_cmp (a b : string) : comparison :=
  list_cmp N.compare (N_of_ascii <$> list_ascii_of_string a)
                     (N_of_ascii <$> list_ascii_of_string b).

(** [compareIdentifiers]: two numeric identifiers are converted by [+a]
    and [+b]; numbers are below everything else. *)
Definition compareIdentifiers (a b : identifier) : comparison :=
  match a, b with
  | INum x, INum y => N.compare (to_number x) (to_number y)
  | INum _, IAlpha _ => Lt
  | IAlpha _, INum _ => Gt
  | IAlpha x, IAlpha y => string_cmp x y
  end.

Definition compareMain (a b : SemVer) : comparison :=
  lex (N.compare (major a) (major b))
    (lex (N.compare (minor a) (minor b)) (N.compare (patch a) (patch b))).

(** The loop of [comparePre]: identifiers that are identical ([a === b]) are
    passed over, and the first two that are not decide by
    [compareIdentifiers], also when that gives 0. *)
Fixpoint comparePrereleases (p q : list identifier) : comparison :=
  match p, q with
  | [], [] => Eq
  | [], _ :: _ => Lt
  | _ :: _, [] => Gt
  | a :: p', b :: q' =>
      if decide (a = b) then comparePrereleases p' q' else compareIdentifiers a b
  end.

(** [comparePre]: a release is above all its prereleases. *)
Definition comparePre (a b : SemVer) : comparison :=
  match prerelease a, prerelease b with
  | [], [] => Eq
  | _ :: _, [] => Lt
  | [], _ :: _ => Gt
  | p, q => comparePrereleases p q
  end.

Definition compare_versions (a b : SemVer) : comparison :=
  lex (compareMain a b) (comparePre a b).

(** [semver.compare(a, b)], that is [new SemVer(a).compare(new SemVer(b))]:
    -1, 0 or 1; [None] for the [TypeError] raised on a string that is no
    version. *)
Definition compare (a b : string) : option Z :=
  va ← construct a; vb ← construct b; Some (sign (compare_versions va vb)).

End semver.

(** ** Failures and [Array.prototype.sort] *)

(** What makes [listAppCandidates] reject: a directory listing that fails
    (with the path listed), or the [TypeError] of [semver.compare]. *)
Inductive error : Type :=
  | ScanFailure (path : string)
  | InvalidVersion.

Inductive result (A : Type) : Type :=
  | Ok (a : A)
  | Err (e : error).
Arguments Ok {A} a.
Arguments Err {A} e.

#[global] Instance result_ret : MRet result := fun _ a => Ok a.
#[global] Instance result_bind : MBind result := fun _ _ f r =>
  match r with
  | Ok a => f a
  | Err e => Err e
  end.

Definition is_Ok {A} (r : result A) : Prop := exists a, r = Ok a.

(** [arr.sort(cmp)]: a stable sort, written as an insertion sort; an
    exception raised by the comparator leaves the sort.  When the comparator
    is a total preorder on the elements every stable sort returns the same
    array; when it is not, the order of the result is the engine's own, and
    what is stated of an order below is stated for comparators that are.
    With two elements or more every element takes part in a comparison, here
    as in the engine's sort, so that a comparator that throws on an element
    makes both throw. *)
Section js_sort.
Context {A : Type} (cmp : A -> A -> result Z).

Fixpoint sort_insert (x : A) (l : list A) : result (list A) :=
  match l with
  | [] => Ok [x]
  | y :: t =>
      c ← cmp x y;
      if (c <=? 0)%Z then Ok (x :: y :: t)
      else t' ← sort_insert x t; Ok (y :: t')
  end.

Fixpoint js_sort (l : list A) : result (list A) :=
  match l with
  | [] => Ok []
  | x :: r => s ← js_sort r; sort_insert x s
  end.
End js_sort.

(** A loop that appends what each iteration yields ([candidates =
    candidates.concat(c)]) and stops at the first failure. *)
Fixpoint for_concat {A B} (f : A -> result (list B)) (l : list A) : result (list B) :=
  match l with
  | [] => Ok []
  | x :: r => c ← f x; cs ← for_concat f r; Ok (c ++ cs)
  end.

(** ** Application candidates *)

Record AppCandidate : Type := {
  path : string;
  model : jsval;
  firmware : string;
  appName : string;
  appVersion : string
}.

#[global] Instance AppCandidate_eq_dec : EqDecision AppCandidate.
Proof. solve_decision. Defined.

(** The two tables are plain objects: the maps below hold their own keys, and
    a reading by another key gives what [Object.prototype] has under it. *)
Definition modelMap : gmap string string :=
  {[ "nanos" := "nanoS"; "nanox" := "nanoX"; "blue" := "blue" ]}.

Definition modelMapPriority : gmap string Z :=
  {[ "nanos" := 3%Z; "nanox" := 2%Z; "blue" := 1%Z ]}.

(** [modelMap[k]] *)
Definition modelMap_get (k : string) : jsval :=
  match modelMap !! k with
  | Some m => JStr m
  | None => from_option JObject JUndefined (Object_prototype k)
  end.

(** What [modelMapPriority[k]] can be: a number or an inherited object. *)
Inductive priority : Type :=
  | PNumber (n : Z)
  | PObject (o : builtin).

(** [modelMapPriority[k]], with [None] for [undefined]. *)
Definition modelMapPriority_get (k : string) : option priority :=
  match modelMapPriority !! k with
  | Some n => Some (PNumber n)
  | None => PObject <$> Object_prototype k
  end.

(** Truth value of a priority: a number other than 0, or an object. *)
Definition truthy_priority (p : option priority) : bool :=
  match p with
  | Some (PNumber n) => negb (n =? 0)%Z
  | Some (PObject _) => true
  | None => false
  end.

(** [(a, b) => b[1] - a[1]]; with an operand that is no number the
    difference is [NaN], which a sort takes for 0. *)
Definition priority_cmp (a b : string * option priority) : Z :=
  match b.2, a.2 with
  | Some (PNumber x), Some (PNumber y) => x - y
  | _, _ => 0
  end.

(** [semver.compare] as a comparator that may throw. *)
Definition semver_compare (a b : string) : result Z :=
  match semver.compare a b with
  | Some z => Ok z
  | None => Err InvalidVersion
  end.

(** The scan.  [path.join] and [fs.promises.readdir] are Node's: the
    directory tree is the function [readdir] from a path to its listing, with
    [None] where listing fails. *)
Section scan.
Variable path_join : string -> string -> string.
Variable readdir : string -> option (list string).

Definition fsp_readdir (p : string) : result (list string) :=
  match readdir p with
  | Some names => Ok names
  | None => Err (ScanFailure p)
  end.

(** One turn of the loop over [elfs]: what it pushes on [c], if anything. *)
Definition elfCandidate (p3 : string) (model : jsval) (firmware appName elf : string)
    : option AppCandidate :=
  if startsWith elf "app_" && endsWith elf ".elf" then
    let p4 := path_join p3 elf in
    let appVersion := slice elf 4 (String.length elf - 4) in
    if semver.valid appVersion
    then Some {| path := p4; model := model; firmware := firmware;
                 appName := appName; appVersion := appVersion |}
    else None
  else None.

(** The loop over [elfs], before the sort. *)
Definition elfCandidates (p3 : string) (model : jsval) (firmware appName : string)
    (elfs : list string) : list AppCandidate :=
  omap (elfCandidate p3 model firmware appName) elfs.

(** The body of the loop over [appNames]. *)
Definition appCandidates (p2 : string) (model : jsval) (firmware appName : string)
    : result (list AppCandidate) :=
  let p3 := path_join p2 appName in
  elfs ← fsp_readdir p3;
  let c := elfCandidates p3 model firmware appName elfs in
  c ← js_sort (fun a b => semver_compare (appVersion a) (appVersion b)) c;
  Ok (rev c).

(** The body of the loop over [firmwares]. *)
Definition firmwareCandidates (p1 : string) (model : jsval) (firmware : string)
    : result (list AppCandidate) :=
  let p2 := path_join p1 firmware in
  appNames ← fsp_readdir p2;
  for_concat (appCandidates p2 model firmware) appNames.

(** The firmwares of a model directory in the order they are visited. *)
Definition sortedFirmwares (firmwares : list string) : result (list string) :=
  firmwares ← js_sort (fun a b => semver_compare (hackBadSemver a) (hackBadSemver b))
                      firmwares;
  Ok (rev firmwares).

(** The body of the loop over [models]. *)
Definition modelCandidates (cwd modelName : string) : result (list AppCandidate) :=
  let model := modelMap_get (toLowerCase modelName) in
  let p1 := path_join cwd modelName in
  firmwares ← fsp_readdir p1;
  firmwares ← sortedFirmwares firmwares;
  for_concat (firmwareCandidates p1 model) firmwares.

(** The model directories in the order they are visited. *)
Definition sortedModels (names : list string) : result (list string) :=
  let pairs := map (fun modelName =>
                      (modelName, modelMapPriority_get (toLowerCase modelName)))
                   names in
  let pairs := List.filter (fun a : string * option priority => truthy_priority a.2)
                 pairs in
  pairs ← js_sort (fun a b => Ok (priority_cmp a b)) pairs;
  Ok (map fst pairs).

Definition listAppCandidates (cwd : string) : result (list AppCandidate) :=
  names ← fsp_readdir cwd;
  models ← sortedModels names;
  for_concat (modelCandidates cwd) models.
End scan.

(** ** Searches and matching *)

(** An [AppSearch] is a plain object: a reading of a property it does not
    have gives what [Object.prototype] has under that key, [undefined] for
    most. *)
Definition prop (o : gmap string jsval) (k : string) : jsval :=
  match o !! k with
  | Some v => v
  | None => from_option JObject JUndefined (Object_prototype k)
  end.

(** [!v || test(v)] *)
Definition absent_or (v : jsval) (test : jsval -> bool) : bool :=
  negb (truthy v) || test v.

Section matching.
(** [semver.satisfies(version, range)], of the [semver] package, on strings. *)
Variable semver_satisfies : string -> string -> bool.

(** For a range that is no string [new Range] throws a [TypeError], which
    [semver.satisfies] catches to answer [false]. *)
Definition satisfies (version : string) (range : jsval) : bool :=
  match range with
  | JStr r => semver_satisfies version r
  | _ => false
  end.

Definition appCandidatesMatches (appCandidate : AppCandidate)
    (search : gmap string jsval) : bool :=
  absent_or (prop search "model")
    (fun m => bool_decide (m = model appCandidate))
  && absent_or (prop search "appName")
    (fun n => bool_decide (n = JStr (appName appCandidate)))
  && absent_or (prop search "firmware")
    (fun f => bool_decide (JStr (firmware appCandidate) = f)
              || satisfies (hackBadSemver (firmware appCandidate)) f)
  && absent_or (prop search "appVersion")
    (fun v => satisfies (appVersion appCandidate) v).

Definition findAppCandidate (appCandidates : list AppCandidate)
    (search : gmap string jsval) : option AppCandidate :=
  List.find (fun c => appCandidatesMatches c search) appCandidates.
End matching.

(** ** The query parser *)

(** What [parseAppSearch] uses of a currency. *)
Record CryptoCurrency : Type := { managerAppName : string }.

Record ParsedQuery : Type := {
  search : gmap string jsval;
  parsed_appName : string;
  dependency : jsval
}.

(** [eatDevice] shifts [parts] in place when it recognizes a model: the
    array it leaves is returned with the two fields. *)
Definition eatDevice (parts : list string) : jsval * jsval * list string :=
  match parts with
  | p0 :: tl =>
      let sp := split "@" p0 in
      let modelQ := js_index sp 0 in
      let firmware := js_index sp 1 in
      let model := modelMap_get (toLowerCase (or_empty modelQ)) in
      if truthy model then
        if truthy firmware then (model, firmware, tl)
        else (model, JUndefined, tl)
      else (JUndefined, JUndefined, parts)
  | [] => (JUndefined, JUndefined, parts)
  end.

Section parse.
(** The currency tables are modules of the repository outside this file. *)
Variable findCryptoCurrencyByKeyword : string -> option CryptoCurrency.
Variable getDependencies : string -> list string.

(** [query.slice(9)] drops the prefix [speculos:].  [nameQ] is the first
    element of a split, which always has one. *)
Definition parseAppSearch (query : string) : option ParsedQuery :=
  let parts := split ":" (slice_from query 9) in
  let '(model, firmware, parts) := eatDevice parts in
  match parts with
  | [] => None
  | p0 :: _ =>
      match split "@" p0 with
      | [] => None
      | nameQ :: sp =>
          let versionQ := js_index sp 0 in
          let currency := findCryptoCurrencyByKeyword nameQ in
          let appName := match currency with
                         | Some c => managerAppName c
                         | None => nameQ
                         end in
          let version := or_undefined versionQ in
          let dependency := match currency with
                            | Some c => js_index (getDependencies (managerAppName c)) 0
                            | None => JUndefined
                            end in
          Some {| search := {[ "model" := model; "firmware" := firmware;
                               "appName" := JStr appName; "version" := version ]};
                  parsed_appName := appName;
                  dependency := dependency |}
      end
  end.
End parse.

(** ** Emulator instances *)

(** The four host ports of the instance numbered [idCounter]. *)
Definition apduPort (idCounter : N) : N := 40000 + idCounter.
Definition vncPort (idCounter : N) : N := 41000 + idCounter.
Definition buttonPort (idCounter : N) : N := 42000 + idCounter.
Definition automationPort (idCounter : N) : N := 43000 + idCounter.

Definition ports (idCounter : N) : list N :=
  [apduPort idCounter; vncPort idCounter; buttonPort idCounter; automationPort idCounter].

(** [`speculosID-${++idCounter}`], for the incremented counter. *)
Definition speculosID (idCounter : N) : string := "speculosID-" +:+ pretty idCounter.

(** The [-l] arguments, present for a truthy [dependency]. *)
Definition dependencyArgs (model firmware appVersion : string) (dependency : jsval)
    : list string :=
  if truthy dependency
  then let d := js_to_string dependency in
       ["-l"; d +:+ ":" +:+ ("./apps/" +:+ toLowerCase model +:+ "/" +:+ firmware
                              +:+ "/" +:+ d +:+ "/app_" +:+ appVersion +:+ ".elf")]
  else [].

(** The argument array handed to [spawn("docker", ...)]. *)
Definition spawnArgs (id : string) (idCounter : N)
    (model firmware appName appVersion seed coinapps : string) (dependency : jsval)
    : list string :=
  ["run";
   "-v"; coinapps +:+ ":/speculos/apps";
   "-p"; pretty (apduPort idCounter) +:+ ":40000";
   "-p"; pretty (vncPort idCounter) +:+ ":41000";
   "-p"; pretty (buttonPort idCounter) +:+ ":42000";
   "-p"; pretty (automationPort idCounter) +:+ ":43000";
   "-e"; "SPECULOS_APPNAME=" +:+ appName +:+ ":" +:+ appVersion;
   "--name"; id;
   "ledgerhq/speculos";
   "--model"; toLowerCase model;
   "./apps/" +:+ toLowerCase model +:+ "/" +:+ firmware +:+ "/" +:+ appName
     +:+ "/app_" +:+ appVersion +:+ ".elf"]
  ++ dependencyArgs model firmware appVersion dependency
  ++ ["--sdk"; "1.6";
      "--seed"; seed;
      "--display"; "headless";
      "--vnc-password"; "live";
      "--apdu-port"; "40000";
      "--vnc-port"; "41000";
      "--button-port"; "42000";
      "--automation-port"; "43000"].

(** What the module does to the world and to its table, in order. *)
Inductive event : Type :=
  | EvSpawn (args : list string)
  | EvRegister (id : string)
  | EvDelete (id : string)
  | EvExec (cmd : string).

#[global] Instance event_eq_dec : EqDecision event.
Proof. solve_decision. Defined.

(** The promise a call of [destroy] returns: settled by the callback of the
    [exec] it started, or never settled when it returned early. *)
Inductive destroy_promise : Type :=
  | SettledByExec (cmd : string)
  | NeverSettled.

(** What [open] of the transport module gives for an identifier. *)
Inductive open_outcome (Transport : Type) : Type :=
  | Resolved (t : Transport)
  | Throws (message : string)
  | OpenImplicit (query : string)
  | NoTransport.
Arguments Resolved {Transport} t.
Arguments Throws {Transport} message.
Arguments OpenImplicit {Transport} query.
Arguments NoTransport {Transport}.

Module Device.
(** A record of [data].  The process handle is not read by this module and
    is left out; [destroy] is a closure over the [id] of the call that made
    the record, kept here as that [id]. *)
Record t (Transport : Type) : Type := {
  apduPort : N;
  buttonPort : N;
  automationPort : N;
  transport : Transport;
  destroy : string
}.
Arguments apduPort {Transport} _.
Arguments buttonPort {Transport} _.
Arguments automationPort {Transport} _.
Arguments transport {Transport} _.
Arguments destroy {Transport} _.
End Device.

Section registry.
Context {Transport : Type}.

(** The module's variables [idCounter] and [data], the calls of
    [createSpeculosDevice] suspended at an [await] (by [id], with the
    counter value they hold), and the events so far, oldest first. *)
Record state : Type := {
  idCounter : N;
  data : gmap string (Device.t Transport);
  suspended : gmap string N;
  trace : list event
}.

Definition initial : state :=
  {| idCounter := 0; data := ∅; suspended := ∅; trace := [] |}.

(** The closure [destroy] of the call that holds [id]. *)
Definition destroy (id : string) (σ : state) : destroy_promise * state :=
  match data σ !! id with
  | None => (NeverSettled, σ)
  | Some _ =>
      let cmd := "docker rm -f " +:+ id in
      (SettledByExec cmd,
       {| idCounter := idCounter σ;
          data := delete id (data σ);
          suspended := suspended σ;
          trace := trace σ ++ [EvDelete id; EvExec cmd] |})
  end.

(** [releaseSpeculosDevice] as a change of the state.  For an [id] that
    [data] does not hold but inherits, such as [constructor], the call throws
    a [TypeError] ([obj.destroy] is no function) without a change of the
    state, which is what this function gives; the same holds of
    [disconnect]. *)
Definition releaseSpeculosDevice (id : string) (σ : state) : state :=
  match data σ !! id with
  | Some obj => (destroy (Device.destroy obj) σ).2
  | None => σ
  end.

(** [Object.keys(data).forEach(releaseSpeculosDevice)]: the keys are read
    once, before the first release.  [Object.keys] gives them in the order
    of their insertion, which the map does not keep: the order of the
    releases is here that of the map. *)
Definition closeAllSpeculosDevices (σ : state) : state :=
  foldl (fun σ id => releaseSpeculosDevice id σ) σ (map fst (map_to_list (data σ))).

(** [createSpeculosDevice] up to [await ready]: the identifier, and the
    process spawned. *)
Definition createSpeculosDevice_spawn
    (model firmware appName appVersion seed coinapps : string) (dependency : jsval)
    (σ : state) : string * state :=
  let n := (idCounter σ + 1)%N in
  let id := speculosID n in
  (id,
   {| idCounter := n;
      data := data σ;
      suspended := <[id := n]> (suspended σ);
      trace := trace σ ++ [EvSpawn (spawnArgs id n model firmware appName appVersion
                                      seed coinapps dependency)] |}).

(** A call of [createSpeculosDevice] with a [model] that is no string, as
    [openImplicitSpeculos] makes for a candidate whose model is an inherited
    object: the counter is incremented for the identifier, then
    [model.toLowerCase] throws, before anything is spawned. *)
Definition createSpeculosDevice_throws (σ : state) : state :=
  {| idCounter := (idCounter σ + 1)%N;
     data := data σ;
     suspended := suspended σ;
     trace := trace σ |}.

(** [createSpeculosDevice] once [ready] is resolved and
    [SpeculosTransport.open] has given [transport]: the record is stored
    and [{id, transport}] returned. *)
Definition createSpeculosDevice_resume (id : string) (n : N) (transport : Transport)
    (σ : state) : (string * Transport) * state :=
  ((id, transport),
   {| idCounter := idCounter σ;
      data := <[id := {| Device.apduPort := apduPort n;
                         Device.buttonPort := buttonPort n;
                         Device.automationPort := automationPort n;
                         Device.transport := transport;
                         Device.destroy := id |}]> (data σ);
      suspended := delete id (suspended σ);
      trace := trace σ ++ [EvRegister id] |}).

(** The suspended call for [id] ends with the rejection of what it awaits. *)
Definition createSpeculosDevice_reject (id : string) (σ : state) : state :=
  {| idCounter := idCounter σ;
     data := data σ;
     suspended := delete id (suspended σ);
     trace := trace σ |}.

(** [open] of the transport module; a query is passed on to
    [openImplicitSpeculos]. *)
Definition open (id : string) (σ : state) : open_outcome Transport :=
  if startsWith id "speculosID" then
    match data σ !! id with
    | None => Throws "speculos transport was destroyed"
    | Some obj => Resolved (Device.transport obj)
    end
  else if startsWith id "speculos:" then OpenImplicit id
  else NoTransport.

(** [disconnect] of the transport module. *)
Definition disconnect (deviceId : string) (σ : state) : state :=
  match data σ !! deviceId with
  | Some obj => (destroy (Device.destroy obj) σ).2
  | None => σ
  end.

(** What can happen to the module, one event-loop turn at a time. *)
Inductive action : Type :=
  | Create (model firmware appName appVersion seed coinapps : string) (dependency : jsval)
  | Resume (id : string) (transport : Transport)
  | Reject (id : string)
  | ProcessClose (id : string)
  | Release (id : string)
  | Disconnect (deviceId : string)
  | CloseAll
  | CreateThrows.

Inductive step : state -> action -> state -> Prop :=
  | step_create σ model firmware appName appVersion seed coinapps dependency :
      step σ (Create model firmware appName appVersion seed coinapps dependency)
        (createSpeculosDevice_spawn model firmware appName appVersion seed coinapps
           dependency σ).2
  | step_resume σ id n transport :
      suspended σ !! id = Some n ->
      step σ (Resume id transport) (createSpeculosDevice_resume id n transport σ).2
  | step_reject σ id :
      is_Some (suspended σ !! id) ->
      step σ (Reject id) (createSpeculosDevice_reject id σ)
  | step_close σ id :
      step σ (ProcessClose id) (destroy id σ).2
  | step_release σ id :
      step σ (Release id) (releaseSpeculosDevice id σ)
  | step_disconnect σ id :
      step σ (Disconnect id) (disconnect id σ)
  | step_closeAll σ :
      step σ CloseAll (closeAllSpeculosDevices σ)
  | step_create_throws σ :
      step σ CreateThrows (createSpeculosDevice_throws σ).

Inductive steps : state -> list action -> state -> Prop :=
  | steps_nil σ : steps σ [] σ
  | steps_cons σ a σ' l σ'' : step σ a σ' -> steps σ' l σ'' -> steps σ (a :: l) σ''.

Definition reachable (σ : state) : Prop := exists l, steps initial l σ.
End registry.
Arguments state Transport : clear implicits.

(** ** Orders read off the comparators *)

(** A version as the tuple [semver.compare] orders lexicographically: a
    release gets 1 and a prerelease 0 before the identifiers. *)
Definition pre_key (p : list semver.identifier) : N * list semver.identifier :=
  (match p with [] => 1%N | _ :: _ => 0%N end, p).

Definition version_key (v : semver.SemVer)
    : N * (N * (N * (N * list semver.identifier))) :=
  (semver.major v, (semver.minor v, (semver.patch v, pre_key (semver.prerelease v)))).

(** [a] is at most [b], both being versions. *)
Definition version_le (a b : string) : Prop :=
  exists z, semver.compare a b = Some z /\ (z <= 0)%Z.

(** A numeric prerelease identifier below 2^53 is a number that [+id] gives
    as it is.  [semver.compare] is a total preorder on the versions that have
    no other; beyond, two identifiers that are not the same can compare as
    equal, and the comparison then stops at them. *)
Definition exact_identifier (i : semver.identifier) : bool :=
  match i with
  | semver.INum n => (n <? 2 ^ 53)%N
  | semver.IAlpha _ => true
  end.

Definition exact_version (v : semver.SemVer) : Prop :=
  forallb exact_identifier (semver.prerelease v) = true.

Definition precise (s : string) : Prop :=
  forall v, semver.construct s = Some v -> exact_version v.

(** The names of the root that the scan takes for model directories: those
    that are, whatever their case, a key of the two tables, or a key they
    inherit. *)
Definition known_model (modelName : string) : bool :=
  bool_decide (toLowerCase modelName ∈ ["nanos"; "nanox"; "blue"]).

Definition inherited_model (modelName : string) : bool :=
  bool_decide (toLowerCase modelName ∈ ["constructor"; "__proto__"]).

Definition kept_model (modelName : string) : bool :=
  known_model modelName || inherited_model modelName.

(** The three device models, and what [modelMap] gives for the two keys it
    inherits. *)
Definition device_models : list jsval := [JStr "nanoS"; JStr "nanoX"; JStr "blue"].

Definition inherited_models : list jsval :=
  [JObject ObjectFunction; JObject ObjectPrototype].

(** ** The order of a scan

    The candidates of a scan, grouped as the loops produce them: by model
    directory, in it by firmware directory, in it by application directory. *)
Record FirmwareGroup : Type := {
  fg_firmware : string;
  fg_apps : list (string * list AppCandidate)
}.

Record ModelGroup : Type := {
  mg_modelName : string;
  mg_firmwares : list FirmwareGroup
}.

Definition fg_candidates (fg : FirmwareGroup) : list AppCandidate :=
  concat (map snd (fg_apps fg)).

Definition mg_candidates (mg : ModelGroup) : list AppCandidate :=
  concat (map fg_candidates (mg_firmwares mg)).

Definition candidates_of (mgs : list ModelGroup) : list AppCandidate :=
  concat (map mg_candidates mgs).

(** The priority of a model directory, 0 for a name the table has no number
    for. *)
Definition model_priority (modelName : string) : Z :=
  default 0%Z (modelMapPriority !! toLowerCase modelName).

Definition priority_desc (a b : string) : Prop :=
  (model_priority b <= model_priority a)%Z.

(** [f] before [g]: the normalized [g] is at most the normalized [f]. *)
Definition firmware_desc (f g : string) : Prop :=
  version_le (hackBadSemver g) (hackBadSemver f).

Definition version_desc (a b : AppCandidate) : Prop :=
  version_le (appVersion b) (appVersion a).

(** The groups are those of the tree under [cwd]: one group for each name of
    the root that is kept, in it one for each entry of the model directory,
    in it one for each entry of the firmware directory, in the order of the
    listing, holding the candidates of the binaries of that application
    directory. *)
Section scan_groups.
Variable path_join : string -> string -> string.
Variable readdir : string -> option (list string).

Definition app_group_of (p2 : string) (model0 : jsval) (firmware0 : string)
    (g : string * list AppCandidate) : Prop :=
  exists elfs, readdir (path_join p2 g.1) = Some elfs /\
    Permutation g.2 (elfCandidates path_join (path_join p2 g.1) model0 firmware0 g.1 elfs).

Definition firmware_group_of (p1 : string) (model0 : jsval) (fg : FirmwareGroup) : Prop :=
  exists appNames, readdir (path_join p1 (fg_firmware fg)) = Some appNames /\
    map fst (fg_apps fg) = appNames /\
    Forall (app_group_of (path_join p1 (fg_firmware fg)) model0 (fg_firmware fg))
           (fg_apps fg).

Definition model_group_of (cwd : string) (mg : ModelGroup) : Prop :=
  exists firmwares, readdir (path_join cwd (mg_modelName mg)) = Some firmwares /\
    Permutation (map fg_firmware (mg_firmwares mg)) firmwares /\
    Forall (firmware_group_of (path_join cwd (mg_modelName mg))
              (modelMap_get (toLowerCase (mg_modelName mg))))
           (mg_firmwares mg).

Definition scan_of (cwd : string) (mgs : list ModelGroup) : Prop :=
  exists names, readdir cwd = Some names /\
    Permutation (map mg_modelName mgs) (List.filter kept_model names) /\
    Forall (model_group_of cwd) mgs.
End scan_groups.

(** The order of the groups.  The candidates of an application directory
    come by descending version and the firmware directories of a model by
    descending normalized version, when the versions compared are precise;
    the model directories come by descending priority, when none has an
    inherited key for name (the difference of two priorities is then a
    number). *)
Definition app_group_ordered (g : string * list AppCandidate) : Prop :=
  Forall (fun c => precise (appVersion c)) g.2 -> StronglySorted version_desc g.2.

Definition model_group_ordered (mg : ModelGroup) : Prop :=
  (Forall (fun f => precise (hackBadSemver f)) (map fg_firmware (mg_firmwares mg)) ->
   StronglySorted firmware_desc (map fg_firmware (mg_firmwares mg))) /\
  Forall (fun fg => Forall app_group_ordered (fg_apps fg)) (mg_firmwares mg).

Definition scan_order (mgs : list ModelGroup) : Prop :=
  (Forall (fun m => inherited_model m = false) (map mg_modelName mgs) ->
   StronglySorted priority_desc (map mg_modelName mgs)) /\
  Forall model_group_ordered mgs.


(** ** A fixture tree

    [apps] holds the model directories [nanos] and [nanox]; each holds the
    given firmware directories, each of these the application [bitcoin] with
    the binaries of versions 1.2.0 and 1.3.1. *)
Definition fixture_join (a b : string) : string := a +:+ "/" +:+ b.

Definition fixture_readdir (firmwares : list string) (p : string) : option (list string) :=
  match split "/" p with
  | ["apps"] => Some ["nanos"; "nanox"]
  | ["apps"; m] =>
      if bool_decide (m ∈ ["nanos"; "nanox"]) then Some firmwares else None
  | ["apps"; m; f] =>
      if bool_decide (m ∈ ["nanos"; "nanox"]) && bool_decide (f ∈ firmwares)
      then Some ["bitcoin"] else None
  | ["apps"; m; f; "bitcoin"] =>
      if bool_decide (m ∈ ["nanos"; "nanox"]) && bool_decide (f ∈ firmwares)
      then Some ["app_1.2.0.elf"; "app_1.3.1.elf"] else None
  | _ => None
  end.


Definition fixture_candidate (dir model0 firmware0 version : string) : AppCandidate :=
  {| path := "apps/" +:+ dir +:+ "/" +:+ firmware0 +:+ "/bitcoin/app_" +:+ version +:+ ".elf";
     model := JStr model0; firmware := firmware0; appName := "bitcoin";
     appVersion := version |}.

(** The file names the loop over [elfs] keeps, and the version they embed. *)
Definition elf_named (elf : string) : bool :=
  startsWith elf "app_" && endsWith elf ".elf".

Definition elf_version (elf : string) : string :=
  slice elf 4 (String.length elf - 4).

(** The strings of an array that are not empty. *)
Definition nonempty (l : list string) : list string :=
  List.filter (fun s => negb (String.eqb s "")) l.

(** A component that can stand for major, minor or patch, and one that can
    follow them. *)
Definition numeric_component (s : string) : bool :=
  semver.numeric_identifier s
  && (semver.decimal_value 0 s <=? semver.MAX_SAFE_INTEGER)%N.

Definition extra_component (s : string) : bool :=
  negb (String.eqb s "") && all_chars semver.is_ident_char s.

(** ** Searches, ports and the table of instances: what is stated of them *)

(** A field that constrains nothing: [undefined] or the empty string. *)
Definition absent (v : jsval) : Prop := truthy v = false.

(** The ports of two instances have nothing in common. *)
Definition disjoint_ports (n1 n2 : N) : Prop :=
  forall p, p ∈ ports n1 -> p ∉ ports n2.

(** The command that removes the container of an instance. *)
Definition removal (id : string) : event := EvExec ("docker rm -f " +:+ id).

(** What holds of the table in every state the module can reach: a record
    carries the [destroy] of its own key, the identifiers in use were made
    from counter values already passed, and a registered call is no longer
    suspended. *)
Definition well_formed {Transport} (σ : state Transport) : Prop :=
  (forall id obj, data σ !! id = Some obj -> Device.destroy obj = id) /\
  (forall id, is_Some (data σ !! id) \/ is_Some (suspended σ !! id) ->
     exists k, id = speculosID k /\ (k <= idCounter σ)%N) /\
  (forall id, is_Some (data σ !! id) -> suspended σ !! id = None).

(** An identifier that was in use and is no more: it names no record and no
    suspended call, and its counter value is passed. *)
Definition retired {Transport} (σ : state Transport) (id : string) : Prop :=
  data σ !! id = None /\ suspended σ !! id = None /\
  exists k, id = speculosID k /\ (k <= idCounter σ)%N.

(** From [σ] to [σ'] the record [obj] of [id] stayed as it was, or its
    [destroy] ran and retired [id]. *)
Definition kept_or_retired {Transport} (id : string) (obj : Device.t Transport)
    (σ σ' : state Transport) : Prop :=
  exists evs, trace σ' = trace σ ++ evs /\
    (((EvDelete id ∉ evs) /\ data σ' !! id = Some obj) \/ ((EvDelete id ∈ evs) /\ retired σ' id)).

(** The calls of the closure [destroy] of an instance, as changes of the
    state: by [releaseSpeculosDevice], by [disconnect], and by the handler of
    the close of its process; each drops the promise that [destroy]
    returns. *)
Definition destroy_calls {Transport}
    : list (string -> state Transport -> state Transport) :=
  [releaseSpeculosDevice; disconnect; fun id σ => (destroy id σ).2].

(** Two states to try the module on: one instance spawned, then registered
    with the transport handle 7. *)
Definition demo_spawned : state nat :=
  (createSpeculosDevice_spawn "nanoS" "1.6.0" "bitcoin" "1.3.1" "seed" "/coinapps"
     JUndefined initial).2.

Definition demo_registered : state nat :=
  (createSpeculosDevice_resume (speculosID 1) 1 7%nat demo_spawned).2.

(** ** Opening from a query *)

(** How [openImplicitSpeculos] ends before it awaits the device: an
    [invariant] that throws, the scan that rejects, or the call of
    [createSpeculosDevice] with these arguments. *)
Inductive implicit_outcome : Type :=
  | InvariantViolation (message : string)
  | Rejected (e : error)
  | CreateDevice (model : jsval) (firmware appName appVersion seed coinapps : string)
      (dependency : jsval).

Section openImplicit.
(** [getEnv] is a module of the repository outside this file, which gives
    the two variables read here as strings, the empty string when they are not
    set; the other parameters are those of the scan, the matcher and the
    parser. *)
Variable getEnv : string -> string.
Variable path_join : string -> string -> string.
Variable readdir : string -> option (list string).
Variable semver_satisfies : string -> string -> bool.
Variable findCryptoCurrencyByKeyword : string -> option CryptoCurrency.
Variable getDependencies : string -> list string.

(** [{...appCandidate, coinapps, appName, dependency, seed}]: the name of
    the match replaces the name of the candidate. *)
Definition openImplicitSpeculos (query : string) : implicit_outcome :=
  let coinapps := getEnv "COINAPPS" in
  if negb (truthy (JStr coinapps)) then InvariantViolation "COINAPPS folder is missing!"
  else
    let seed := getEnv "SEED" in
    if negb (truthy (JStr seed)) then InvariantViolation "SEED is missing!"
    else
      match listAppCandidates path_join readdir coinapps with
      | Err e => Rejected e
      | Ok appCandidates =>
          match parseAppSearch findCryptoCurrencyByKeyword getDependencies query with
          | None =>
              InvariantViolation
                ("speculos: invalid format of '" +:+ query
                 +:+ "'. Usage example: speculos:nanoS:bitcoin@1.3.x")
          | Some m =>
              match findAppCandidate semver_satisfies appCandidates (search m) with
              | None =>
                  InvariantViolation
                    ("could not find an app that matches '" +:+ query +:+ "'")
              | Some appCandidate =>
                  CreateDevice (model appCandidate) (firmware appCandidate)
                    (parsed_appName m) (appVersion appCandidate) seed coinapps
                    (dependency m)
              end
          end
      end.
End openImplicit.

(** ** What is stated of the rest of the module *)

(** A candidate that stands for a file of the tree under [cwd]: the model
    directory, a name that is kept, the firmware, the application and the
    binary are listed where the scan reads them. *)
Definition scanned (path_join : string -> string -> string)
    (readdir : string -> option (list string)) (cwd : string) (c : AppCandidate) : Prop :=
  exists modelName names firmwares appNames elfs,
    let p1 := path_join cwd modelName in
    let p2 := path_join p1 (firmware c) in
    let p3 := path_join p2 (appName c) in
    let elf := "app_" +:+ appVersion c +:+ ".elf" in
    readdir cwd = Some names /\ modelName ∈ names /\ kept_model modelName = true /\
    readdir p1 = Some firmwares /\ firmware c ∈ firmwares /\
    readdir p2 = Some appNames /\ appName c ∈ appNames /\
    readdir p3 = Some elfs /\ elf ∈ elfs /\
    path c = path_join p3 elf /\
    model c = modelMap_get (toLowerCase modelName).

(** How often the removal of the container of [id] was started. *)
Definition removals (id : string) (tr : list event) : nat :=
  length (List.filter (fun e => bool_decide (e = removal id)) tr).

(** What a call of a destroying function may do: delete records, and
    nothing else but add events. *)
Definition shrinks {Transport} (σ σ' : state Transport) : Prop :=
  idCounter σ' = idCounter σ /\ suspended σ' = suspended σ /\
  (exists evs, trace σ' = trace σ ++ evs /\
     forall e, e ∈ evs -> exists id, e = EvDelete id \/ e = removal id) /\
  forall id obj, data σ' !! id = Some obj -> data σ !! id = Some obj.

(** A record holds the ports of the counter value in its identifier, and a
    suspended call the counter value of its identifier. *)
Definition ports_of_id {Transport} (σ : state Transport) : Prop :=
  (forall id obj, data σ !! id = Some obj ->
     exists k, id = speculosID k /\ Device.apduPort obj = apduPort k
               /\ Device.buttonPort obj = buttonPort k
               /\ Device.automationPort obj = automationPort k) /\
  (forall id n, suspended σ !! id = Some n -> id = speculosID n).

(** The container named [id] was spawned. *)
Definition spawned (id : string) (tr : list event) : Prop :=
  exists args, EvSpawn args ∈ tr /\ args !! 13%nat = Some "--name"
               /\ args !! 14%nat = Some id.

(** A state with two instances registered, with the transport handles 7 and
    8. *)
Definition demo_two : state nat :=
  (createSpeculosDevice_resume (speculosID 2) 2 8%nat
     (createSpeculosDevice_spawn "nanoX" "2.0.0" "bitcoin" "1.3.1" "seed" "/coinapps"
        JUndefined demo_registered).2).2.

(** The events of the release of each of [ids], in order. *)
Definition release_events (ids : list string) : list event :=
  flat_map (fun id => [EvDelete id; removal id]) ids.

(** What the events say of a container: it is spawned before it is registered,
    never removed while it has a record or a suspended call, and removed at
    most once. *)
Definition container_history {Transport} (σ : state Transport) : Prop :=
  forall id,
    (is_Some (data σ !! id) \/ is_Some (suspended σ !! id) ->
     spawned id (trace σ) /\ removals id (trace σ) = 0%nat) /\
    (removals id (trace σ) = 0%nat \/
     (removals id (trace σ) = 1%nat /\ retired σ id /\ spawned id (trace σ))).

(** [close] of the transport module: [Some ()] for the resolved promise,
    [None] for [undefined] (the identifier is left to other modules). *)
Definition close {Transport : Type} (transport : Transport) (id : string) : option unit :=
  if startsWith id "speculos" then Some tt else None.

(** * Properties *)

(** ** The model on the examples of the specification *)

Example hackBadSemver_1_6_1_9 : hackBadSemver "1.6.1.9" = "1.6.1-9".
Proof. reflexivity. Qed.

Example hackBadSemver_1_6_0 : hackBadSemver "1.6.0" = "1.6.0".
Proof. reflexivity. Qed.

Example hackBadSemver_1_6 : hackBadSemver "1.6" = "1.6".
Proof. reflexivity. Qed.

Example semver_valid_1_6_1_9 : semver.valid "1.6.1-9" = true.
Proof. reflexivity. Qed.

Example semver_valid_1_6 : semver.valid "1.6" = false.
Proof. reflexivity. Qed.

Example semver_compare_pre : semver.compare "1.6.1-9" "1.6.1" = Some (-1)%Z.
Proof. reflexivity. Qed.

Example semver_compare_minor : semver.compare "1.10.0" "1.9.3" = Some 1%Z.
Proof. reflexivity. Qed.
(** ** Facts about strings *)

Lemma append_cons (x : ascii) (a b : string) : String x a +:+ b = String x (a +:+ b).
Proof. reflexivity. Qed.

Lemma append_empty_r (a : string) : a +:+ "" = a.
Proof. induction a as [|x a IH]; [done|]. rewrite append_cons. by f_equal. Qed.

Lemma append_assoc (a b c : string) : (a +:+ b) +:+ c = a +:+ b +:+ c.
Proof. induction a as [|x a IH]; [done|]. rewrite !append_cons. by f_equal. Qed.

Lemma length_append (a b : string) :
  String.length (a +:+ b) = (String.length a + String.length b)%nat.
Proof. induction a as [|x a IH]; [done|]. rewrite append_cons. simpl. by f_equal. Qed.

Lemma all_chars_app (p : ascii -> bool) (a b : string) :
  all_chars p (a +:+ b) = all_chars p a && all_chars p b.
Proof.
  induction a as [|x a IH]; [done|]. rewrite append_cons. simpl.
  by rewrite IH, andb_assoc.
Qed.

Lemma all_chars_impl (p q : ascii -> bool) (s : string) :
  (forall c, p c = true -> q c = true) -> all_chars p s = true -> all_chars q s = true.
Proof.
  intros Hpq. induction s as [|x s IH]; simpl; [done|].
  intros [Hx Hs]%andb_true_iff. by rewrite (Hpq _ Hx), (IH Hs).
Qed.

Lemma join_cons2 (sep x y : string) (r : list string) :
  join sep (x :: y :: r) = x +:+ sep +:+ join sep (y :: r).
Proof. reflexivity. Qed.

Lemma split_not_nil (c : ascii) (s : string) : split c s <> [].
Proof.
  destruct s as [|a s]; simpl; [done|].
  destruct (Ascii.eqb a c); [done|]. by destruct (split c s).
Qed.

Lemma join_split (c : ascii) (s : string) : join (String c "") (split c s) = s.
Proof.
  induction s as [|a s IH]; simpl; [done|].
  destruct (Ascii.eqb_spec a c) as [->|Hne].
  - pose proof (split_not_nil c s) as Hn.
    destruct (split c s) as [|h r] eqn:E; [done|].
    change (join (String c "") ("" :: h :: r)) with (String c (join (String c "") (h :: r))).
    by rewrite IH.
  - pose proof (split_not_nil c s) as Hn.
    destruct (split c s) as [|h [|h' r]] eqn:E; [done| |].
    + simpl in *. by rewrite IH.
    + rewrite join_cons2 in IH. rewrite join_cons2, append_cons. by rewrite IH.
Qed.

(** ** Facts about three-way comparisons *)

Lemma lex_assoc (a b c : comparison) : lex (lex a b) c = lex a (lex b c).
Proof. by destruct a. Qed.

Lemma ordering_N : ordering N.compare.
Proof.
  split.
  - intros x y. apply N.compare_antisym.
  - intros x y z. rewrite !N.compare_lt_iff. lia.
  - intros x y z H. apply N.compare_eq_iff in H. by subst.
Qed.

Lemma ordering_pullback {A B} (f : A -> B) (cmp : B -> B -> comparison) :
  ordering cmp -> ordering (fun x y => cmp (f x) (f y)).
Proof.
  intros [Ho Ht He]. split.
  - intros x y. apply Ho.
  - intros x y z. apply Ht.
  - intros x y z. apply He.
Qed.

Lemma ordering_ext {A} (c1 c2 : A -> A -> comparison) :
  (forall x y, c1 x y = c2 x y) -> ordering c1 -> ordering c2.
Proof.
  intros E [Ho Ht He]. split.
  - intros x y. rewrite <- !E. apply Ho.
  - intros x y z. rewrite <- !E. apply Ht.
  - intros x y z. rewrite <- !E. apply He.
Qed.

Lemma ordering_pair {A B} (ca : A -> A -> comparison) (cb : B -> B -> comparison) :
  ordering ca -> ordering cb -> ordering (pair_cmp ca cb).
Proof.
  intros [Hoa Hta Hea] [Hob Htb Heb]. unfold pair_cmp. split.
  - intros [a b] [a' b']; simpl. rewrite (Hoa a a'), (Hob b b').
    by destruct (ca a a').
  - intros [a b] [a' b'] [a'' b'']; simpl.
    destruct (ca a a') eqn:E1; simpl; try done.
    + rewrite (Hea _ _ _ E1). destruct (ca a' a''); simpl; try done. apply Htb.
    + intros _. destruct (ca a' a'') eqn:E2; simpl; try done.
      * intros _. pose proof (Hoa a' a'') as Ho. rewrite E2 in Ho. simpl in Ho.
        pose proof (Hea _ _ a Ho) as He. rewrite (Hoa a a''), (Hoa a a'), E1 in He.
        simpl in He. destruct (ca a a''); simpl in *; done.
      * intros _. by rewrite (Hta _ _ _ E1 E2).
  - intros [a b] [a' b'] [a'' b'']; simpl.
    destruct (ca a a') eqn:E1; simpl; try done.
    intros E2. rewrite (Hea _ _ _ E1). destruct (ca a' a''); simpl; try done.
    by apply Heb.
Qed.

Lemma ordering_list {A} (cmp : A -> A -> comparison) :
  ordering cmp -> ordering (list_cmp cmp).
Proof.
  intros [Ho Ht He]. split.
  - induction x as [|a x IH]; intros [|b y]; simpl; try done.
    rewrite (Ho a b), IH. by destruct (cmp a b).
  - induction x as [|a x IH]; intros [|b y] [|c z]; simpl; try done.
    destruct (cmp a b) eqn:E1; simpl; try done.
    + rewrite (He _ _ _ E1). destruct (cmp b c); simpl; try done. apply IH.
    + intros _. destruct (cmp b c) eqn:E2; simpl; try done.
      * intros _. pose proof (Ho b c) as Ho'. rewrite E2 in Ho'. simpl in Ho'.
        pose proof (He _ _ a Ho') as He'. rewrite (Ho a c), (Ho a b), E1 in He'.
        simpl in He'. destruct (cmp a c); simpl in *; done.
      * intros _. by rewrite (Ht _ _ _ E1 E2).
  - induction x as [|a x IH]; intros [|b y] [|c z]; simpl; try done.
    destruct (cmp a b) eqn:E1; simpl; try done.
    intros E2. rewrite (He _ _ _ E1). destruct (cmp b c); simpl; try done.
    by apply IH.
Qed.

(** The preorder of a comparison: [x] is not above [y]. *)
Lemma ordering_le_trans {A} (cmp : A -> A -> comparison) (x y z : A) :
  ordering cmp -> cmp x y <> Gt -> cmp y z <> Gt -> cmp x z <> Gt.
Proof.
  intros [Ho Ht He] H1 H2.
  destruct (cmp x y) eqn:E1; try done.
  - by rewrite (He _ _ _ E1).
  - destruct (cmp y z) eqn:E2; try done.
    + pose proof (Ho y z) as Ho'. rewrite E2 in Ho'. simpl in Ho'.
      pose proof (He _ _ x Ho') as He'. rewrite (Ho x z), (Ho x y), E1 in He'.
      simpl in He'. destruct (cmp x z); simpl in *; done.
    + by rewrite (Ht _ _ _ E1 E2).
Qed.

Lemma ordering_total {A} (cmp : A -> A -> comparison) (x y : A) :
  ordering cmp -> cmp x y = Gt -> cmp y x <> Gt.
Proof. intros [Ho _ _] H. rewrite Ho, H. done. Qed.

(** ** [semver.compare] is a total preorder on versions *)

Lemma ordering_string_cmp : ordering semver.string_cmp.
Proof.
  unfold semver.string_cmp.
  apply (ordering_pullback (fun s => N_of_ascii <$> list_ascii_of_string s)).
  apply ordering_list, ordering_N.
Qed.

Lemma ordering_compareIdentifiers : ordering semver.compareIdentifiers.
Proof.
  destruct (ordering_pullback semver.to_number N.compare ordering_N) as [No Nt Ne],
    ordering_string_cmp as [So St Se].
  split.
  - intros [x|x] [y|y]; simpl; auto.
  - intros [x|x] [y|y] [z|z]; simpl; try done; eauto.
  - intros [x|x] [y|y] [z|z]; simpl; try done; eauto.
Qed.

Lemma string_cmp_eq (a b : string) : semver.string_cmp a b = Eq -> a = b.
Proof.
  unfold semver.string_cmp. revert b.
  induction a as [|x a IH]; intros [|y b]; simpl; try done.
  destruct (N.compare_spec (N_of_ascii x) (N_of_ascii y)) as [E| |]; simpl; try done.
  intros H. f_equal; [|by apply IH].
  by rewrite <- (ascii_N_embedding x), <- (ascii_N_embedding y), E.
Qed.

(** Two exact identifiers that compare as equal are the same. *)
Lemma compareIdentifiers_eq (a b : semver.identifier) :
  exact_identifier a = true -> exact_identifier b = true ->
  semver.compareIdentifiers a b = Eq -> a = b.
Proof.
  destruct a as [x|x], b as [y|y]; simpl; try done.
  - intros Hx Hy. unfold semver.to_number. rewrite Hx, Hy.
    by intros ->%N.compare_eq_iff.
  - intros _ _ H. f_equal. by apply string_cmp_eq.
Qed.

Lemma compareIdentifiers_refl (a : semver.identifier) : semver.compareIdentifiers a a = Eq.
Proof.
  destruct ordering_compareIdentifiers as [Ho _ _].
  pose proof (Ho a a) as H. by destruct (semver.compareIdentifiers a a).
Qed.

(** On exact identifiers the loop of [comparePre] is the lexicographic
    comparison. *)
Lemma comparePrereleases_exact (p q : list semver.identifier) :
  forallb exact_identifier p = true -> forallb exact_identifier q = true ->
  semver.comparePrereleases p q = list_cmp semver.compareIdentifiers p q.
Proof.
  revert q. induction p as [|a p IH]; intros [|b q]; simpl; try done.
  intros [Ha Hp]%andb_true_iff [Hb Hq]%andb_true_iff.
  destruct (decide (a = b)) as [->|Hne].
  - rewrite compareIdentifiers_refl. simpl. by apply IH.
  - destruct (semver.compareIdentifiers a b) eqn:E; simpl; try done.
    by apply compareIdentifiers_eq in E.
Qed.

Lemma compare_versions_key (a b : semver.SemVer) :
  exact_version a -> exact_version b ->
  semver.compare_versions a b =
  pair_cmp N.compare (pair_cmp N.compare (pair_cmp N.compare
    (pair_cmp N.compare (list_cmp semver.compareIdentifiers))))
    (version_key a) (version_key b).
Proof.
  unfold exact_version. intros Ha Hb.
  unfold semver.compare_versions, semver.compareMain, semver.comparePre,
    version_key, pre_key, pair_cmp; simpl.
  rewrite !lex_assoc. do 3 f_equal.
  destruct (semver.prerelease a) as [|x p] eqn:Ea, (semver.prerelease b) as [|y q] eqn:Eb;
    try done.
  change (semver.comparePrereleases (x :: p) (y :: q)
          = list_cmp semver.compareIdentifiers (x :: p) (y :: q)).
  by apply comparePrereleases_exact.
Qed.

Lemma ordering_version_key :
  ordering (fun a b =>
    pair_cmp N.compare (pair_cmp N.compare (pair_cmp N.compare
      (pair_cmp N.compare (list_cmp semver.compareIdentifiers))))
      (version_key a) (version_key b)).
Proof.
  apply (ordering_pullback version_key).
  repeat apply ordering_pair; try apply ordering_N.
  apply ordering_list, ordering_compareIdentifiers.
Qed.

(** [semver.compare] on exact versions: antisymmetric, and transitive. *)
Lemma compare_versions_opp (a b : semver.SemVer) :
  exact_version a -> exact_version b ->
  semver.compare_versions b a = CompOpp (semver.compare_versions a b).
Proof.
  intros Ha Hb. rewrite !compare_versions_key by done.
  destruct ordering_version_key as [Ho _ _]. apply Ho.
Qed.

Lemma compare_versions_le_trans (a b c : semver.SemVer) :
  exact_version a -> exact_version b -> exact_version c ->
  semver.compare_versions a b <> Gt -> semver.compare_versions b c <> Gt ->
  semver.compare_versions a c <> Gt.
Proof.
  intros Ha Hb Hc. rewrite !compare_versions_key by done.
  apply (ordering_le_trans _ a b c ordering_version_key).
Qed.

Lemma sign_le_0 (c : comparison) : (sign c <= 0)%Z <-> c <> Gt.
Proof. destruct c; simpl; split; (done || lia). Qed.

Lemma version_le_iff (a b : string) :
  version_le a b <->
  exists va vb, semver.construct a = Some va /\ semver.construct b = Some vb
                /\ semver.compare_versions va vb <> Gt.
Proof.
  unfold version_le, semver.compare. split.
  - intros (z & H & Hz).
    destruct (semver.construct a) as [va|]; simpl in H; [|done].
    destruct (semver.construct b) as [vb|]; simpl in H; [|done].
    exists va, vb. repeat split. apply sign_le_0. by simplify_eq.
  - intros (va & vb & -> & -> & H); simpl.
    eexists; split; [done|]. by apply sign_le_0.
Qed.

Lemma version_le_trans (a b c : string) :
  precise a -> precise b -> precise c ->
  version_le a b -> version_le b c -> version_le a c.
Proof.
  rewrite !version_le_iff.
  intros Pa Pb Pc (va & vb & Ha & Hb & H1) (vb' & vc & Hb' & Hc & H2). simplify_eq.
  exists va, vc. repeat split; try done.
  eapply (compare_versions_le_trans va vb vc); eauto.
Qed.

Lemma version_le_total (a b : string) (z : Z) :
  precise a -> precise b ->
  semver.compare a b = Some z -> (0 < z)%Z -> version_le b a.
Proof.
  unfold semver.compare. intros Pa Pb H Hz. apply version_le_iff.
  destruct (semver.construct a) as [va|] eqn:Ea; simpl in H; [|done].
  destruct (semver.construct b) as [vb|] eqn:Eb; simpl in H; [|done].
  exists vb, va. repeat split. simplify_eq.
  rewrite compare_versions_opp by eauto.
  destruct (semver.compare_versions va vb); simpl in *; (done || lia).
Qed.

(** ** What [new SemVer] trims *)

Lemma cut_spec (c : ascii) (s h : string) (r : option string) :
  semver.cut c s = (h, r) -> s = h +:+ from_option (String c) "" r.
Proof.
  revert h r. induction s as [|x s IH]; intros h r; simpl.
  - by intros [= <- <-].
  - destruct (Ascii.eqb_spec x c) as [->|Hne]; [by intros [= <- <-]|].
    destruct (semver.cut c s) as [h' r'] eqn:E. intros [= <- <-].
    rewrite append_cons. f_equal. by apply IH.
Qed.

Lemma all_chars_join (p : ascii -> bool) (sep : string) (l : list string) :
  all_chars p sep = true -> Forall (fun x => all_chars p x = true) l ->
  all_chars p (join sep l) = true.
Proof.
  intros Hsep. induction 1 as [|x [|y r] Hx _ IH]; [done..|].
  by rewrite join_cons2, !all_chars_app, Hx, Hsep, IH.
Qed.

Lemma ident_char_no_space (c : ascii) :
  semver.is_ident_char c = true -> negb (semver.is_whitespace c) = true.
Proof. destruct c as [[] [] [] [] [] [] [] []]; by vm_compute. Qed.

Lemma digit_ident_char (c : ascii) :
  semver.is_digit c = true -> semver.is_ident_char c = true.
Proof. unfold semver.is_ident_char. by intros ->. Qed.

Lemma numeric_identifier_chars (s : string) :
  semver.numeric_identifier s = true -> all_chars semver.is_ident_char s = true.
Proof.
  destruct s as [|c t]; [done|]. unfold semver.numeric_identifier.
  intros [H _]%andb_true_iff. revert H. apply all_chars_impl, digit_ident_char.
Qed.

Lemma prerelease_identifier_chars (s : string) :
  is_Some (semver.prerelease_identifier s) -> all_chars semver.is_ident_char s = true.
Proof.
  unfold semver.prerelease_identifier. intros [i H].
  destruct (semver.numeric_identifier s) eqn:E; [by apply numeric_identifier_chars|].
  destruct (all_chars semver.is_ident_char s); [done|]. by simpl in H.
Qed.

Lemma mapM_prerelease_chars (l : list string) (ids : list semver.identifier) :
  mapM semver.prerelease_identifier l = Some ids ->
  Forall (fun x => all_chars semver.is_ident_char x = true) l.
Proof.
  intros H. apply mapM_Some_1 in H.
  induction H as [|x i l ids Hx _ IH]; constructor; [|done].
  apply prerelease_identifier_chars. by eexists.
Qed.

(** A string of the strict grammar holds no white space. *)
Lemma parse_no_space (s : string) :
  is_Some (semver.parse s) ->
  (String.length s <= semver.MAX_LENGTH)%nat /\
  all_chars (fun c => negb (semver.is_whitespace c)) s = true.
Proof.
  set (ok := fun c : ascii => semver.is_ident_char c || Ascii.eqb c "." || Ascii.eqb c "+").
  assert (forall c, ok c = true -> negb (semver.is_whitespace c) = true) as Hok.
  { intros c. destruct c as [[] [] [] [] [] [] [] []]; by vm_compute. }
  assert (forall x, all_chars semver.is_ident_char x = true -> all_chars ok x = true)
    as Hid.
  { intros x. apply all_chars_impl. intros c Hc. unfold ok. by rewrite Hc. }
  intros [v H]. unfold semver.parse in H.
  destruct (Nat.ltb_spec semver.MAX_LENGTH (String.length s)) as [|Hlen]; [done|].
  split; [done|]. apply (all_chars_impl ok); [done|].
  assert (all_chars ok (semver.strip_v s) = true) as Hs; last first.
  { destruct s as [|c t]; [done|]. unfold semver.strip_v in Hs.
    destruct (Ascii.eqb_spec c "v") as [->|Hne].
    - simpl. by rewrite Hs.
    - destruct c as [[] [] [] [] [] [] [] []]; try done. }
  destruct (semver.cut "+" (semver.strip_v s)) as [core_pre build] eqn:E1.
  destruct (semver.cut "-" core_pre) as [core pre] eqn:E2.
  apply cut_spec in E1, E2. rewrite E1, E2.
  destruct (split "." core) as [|a [|b [|c [|? ?]]]] eqn:E3; try done.
  destruct (_ && _) eqn:Hc in H; [|done].
  repeat (apply andb_true_iff in Hc as [Hc ?]).
  assert (all_chars ok core = true) as Hcore.
  { rewrite <- (join_split "." core), E3.
    apply all_chars_join; [done|].
    repeat constructor; by apply Hid, numeric_identifier_chars. }
  assert (all_chars ok (from_option (String "-") "" pre) = true) as Hpre.
  { destruct pre as [p|]; [|done]. simpl in H |- *.
    destruct (mapM semver.prerelease_identifier (split "." p)) as [ids|] eqn:E4; [|done].
    rewrite <- (join_split "." p). apply all_chars_join; [done|].
    apply mapM_prerelease_chars in E4. eapply Forall_impl; [apply E4|]. apply Hid. }
  assert (all_chars ok (from_option (String "+") "" build) = true) as Hbuild.
  { destruct build as [bd|]; [|done]. simpl.
    rewrite <- (join_split "." bd). apply all_chars_join; [done|].
    apply Forall_forall. intros x Hx. apply Hid.
    rewrite forallb_forall in Hc. apply list_elem_of_In, Hc in Hx.
    unfold semver.build_identifier in Hx. by apply andb_true_iff in Hx as [_ ?]. }
  by rewrite !all_chars_app, Hcore, Hpre, Hbuild.
Qed.

Lemma trimStart_id (s : string) :
  all_chars (fun c => negb (semver.is_whitespace c)) s = true -> semver.trimStart s = s.
Proof.
  destruct s as [|c t]; simpl; [done|].
  intros [Hc _]%andb_true_iff. apply negb_true_iff in Hc. by rewrite Hc.
Qed.

Lemma trimEnd_id (s : string) :
  all_chars (fun c => negb (semver.is_whitespace c)) s = true -> semver.trimEnd s = s.
Proof.
  induction s as [|c t IH]; simpl; [done|].
  intros [Hc Ht]%andb_true_iff. apply negb_true_iff in Hc. rewrite (IH Ht), Hc.
  by destruct t.
Qed.

(** What [semver.valid] accepts, [new SemVer] reads as the same version. *)
Lemma construct_valid (s : string) :
  semver.valid s = true -> semver.construct s = semver.parse s /\ is_Some (semver.parse s).
Proof.
  unfold semver.valid. intros H%bool_decide_eq_true. split; [|done].
  destruct (parse_no_space s H) as [Hlen Hs].
  unfold semver.construct, semver.trim.
  rewrite (trimStart_id s Hs), (trimEnd_id s Hs).
  by destruct (Nat.ltb_spec semver.MAX_LENGTH (String.length s)) as [|]; [lia|].
Qed.

Lemma compare_valid (a b : string) :
  semver.valid a = true -> semver.valid b = true -> is_Some (semver.compare a b).
Proof.
  unfold semver.compare.
  intros [-> [va ->]]%construct_valid [-> [vb ->]]%construct_valid. by eexists.
Qed.

(** ** The sort *)

Section js_sort_facts.
Context {A : Type} (cmp : A -> A -> result Z).

Lemma sort_insert_perm (x : A) (l l' : list A) :
  sort_insert cmp x l = Ok l' -> Permutation l' (x :: l).
Proof.
  revert l'. induction l as [|y t IH]; intros l' H; simpl in H.
  - by simplify_eq.
  - destruct (cmp x y) as [c|]; simpl in H; [|done].
    destruct (c <=? 0)%Z; [by simplify_eq|].
    destruct (sort_insert cmp x t) as [t'|]; simpl in H; [|done].
    simplify_eq. rewrite (IH t' eq_refl). apply perm_swap.
Qed.

Lemma js_sort_perm (l l' : list A) : js_sort cmp l = Ok l' -> Permutation l' l.
Proof.
  revert l'. induction l as [|x r IH]; intros l' H; simpl in H.
  - by simplify_eq.
  - destruct (js_sort cmp r) as [s|]; simpl in H; [|done].
    rewrite (sort_insert_perm _ _ _ H). by rewrite (IH s eq_refl).
Qed.

(** With a comparator that orders the elements of [P] along a transitive
    [R], the sorted array is ordered along [R]. *)
Context (P : A -> Prop) (R : A -> A -> Prop).
Hypothesis cmp_R : forall x y z, P x -> P y -> cmp x y = Ok z ->
  ((z <= 0)%Z -> R x y) /\ ((0 < z)%Z -> R y x).
Hypothesis R_trans : forall x y z, R x y -> R y z -> R x z.

Lemma sort_insert_sorted (x : A) (l l' : list A) :
  P x -> Forall P l -> StronglySorted R l ->
  sort_insert cmp x l = Ok l' -> StronglySorted R l'.
Proof.
  intros Hx. revert l'. induction l as [|y t IH]; intros l' HP Hs H; simpl in H.
  - simplify_eq. repeat constructor.
  - apply Forall_cons in HP as [Hy HP]. apply StronglySorted_inv in Hs as [Hs Hy'].
    destruct (cmp x y) as [c|] eqn:E; simpl in H; [|done].
    destruct (cmp_R _ _ _ Hx Hy E) as [Hle Hgt].
    destruct (Z.leb_spec c 0).
    + simplify_eq. constructor; [by constructor|].
      constructor; [by apply Hle|].
      eapply Forall_impl; [apply Hy'|]. intros z. apply R_trans. by apply Hle.
    + destruct (sort_insert cmp x t) as [t'|] eqn:E'; simpl in H; [|done].
      simplify_eq. constructor; [by apply IH|].
      apply sort_insert_perm in E'. rewrite E'. constructor; [by apply Hgt|done].
Qed.

Lemma js_sort_sorted (l l' : list A) :
  Forall P l -> js_sort cmp l = Ok l' -> StronglySorted R l'.
Proof.
  revert l'. induction l as [|x r IH]; intros l' HP H; simpl in H.
  - simplify_eq. constructor.
  - apply Forall_cons in HP as [Hx HP].
    destruct (js_sort cmp r) as [s|] eqn:E; simpl in H; [|done].
    eapply sort_insert_sorted; [done| |by apply IH|done].
    by rewrite (js_sort_perm _ _ E).
Qed.
End js_sort_facts.

(** A comparator that never throws on the elements makes the sort return. *)
Lemma js_sort_returns {A} (cmp : A -> A -> result Z) (P : A -> Prop) (l : list A) :
  (forall x y, P x -> P y -> is_Ok (cmp x y)) -> Forall P l -> is_Ok (js_sort cmp l).
Proof.
  intros Hc. induction l as [|x r IH]; intros HP; simpl.
  - by eexists.
  - apply Forall_cons in HP as [Hx HP]. destruct (IH HP) as [s Hs]. rewrite Hs. simpl.
    assert (Forall P s) as HPs by by rewrite (js_sort_perm _ _ _ Hs).
    clear Hs IH HP. induction s as [|y t IH]; simpl; [by eexists|].
    apply Forall_cons in HPs as [Hy HPs].
    destruct (Hc x y Hx Hy) as [c ->]; simpl.
    destruct (c <=? 0)%Z; [by eexists|].
    destruct (IH HPs) as [t' ->]; simpl. by eexists.
Qed.

Lemma StronglySorted_rev {A} (R : A -> A -> Prop) (l : list A) :
  StronglySorted R l -> StronglySorted (flip R) (rev l).
Proof.
  induction 1 as [|x l Hs IH Hx]; simpl; [constructor|].
  apply StronglySorted_app_2; [|done|repeat constructor].
  intros x1 x2 H1 ->%list_elem_of_singleton.
  apply list_elem_of_In, in_rev, list_elem_of_In in H1.
  rewrite Forall_forall in Hx. by apply Hx.
Qed.

(** ** The scan *)

Lemma for_concat_groups {A B G} (f : A -> result (list B)) (Q : A -> G -> Prop)
    (flat : G -> list B) :
  (forall x b, f x = Ok b -> exists g, flat g = b /\ Q x g) ->
  forall l cs, for_concat f l = Ok cs ->
    exists gs, cs = concat (map flat gs) /\ Forall2 Q l gs.
Proof.
  intros Hf. induction l as [|x r IH]; intros cs H; simpl in H.
  - simplify_eq. by exists [].
  - destruct (f x) as [b|] eqn:E; simpl in H; [|done].
    destruct (for_concat f r) as [bs|]; simpl in H; [|done]. simplify_eq.
    destruct (Hf _ _ E) as (g & <- & Hg), (IH _ eq_refl) as (gs & -> & Hgs).
    exists (g :: gs). by split; [|constructor].
Qed.

Lemma Forall2_keyed {A G} (key : G -> A) (ok : G -> Prop) (l : list A) (gs : list G) :
  Forall2 (fun x g => key g = x /\ ok g) l gs -> map key gs = l /\ Forall ok gs.
Proof.
  induction 1 as [|x g l gs [<- Hg] _ [<- IH]]; simpl; [done|].
  by split; [|constructor].
Qed.

(** ** The two tables *)

Lemma lower_ascii_idem (c : ascii) : lower_ascii (lower_ascii c) = lower_ascii c.
Proof. destruct c as [[] [] [] [] [] [] [] []]; by vm_compute. Qed.

Lemma toLowerCase_idem (s : string) : toLowerCase (toLowerCase s) = toLowerCase s.
Proof. induction s as [|c s IH]; simpl; [done|]. by rewrite lower_ascii_idem, IH. Qed.

(** Of the keys a plain object inherits, two are in lower case. *)
Lemma Object_prototype_lower (m : string) (o : builtin) :
  Object_prototype (toLowerCase m) = Some o ->
  (toLowerCase m = "constructor" /\ o = ObjectFunction) \/
  (toLowerCase m = "__proto__" /\ o = ObjectPrototype).
Proof.
  pose proof (toLowerCase_idem m) as Hi. unfold Object_prototype.
  destruct (String.eqb_spec (toLowerCase m) "constructor") as [E|_]; [naive_solver|].
  destruct (String.eqb_spec (toLowerCase m) "__proto__") as [E|_]; [naive_solver|].
  case_bool_decide as Hin; [|done]. intros _. exfalso.
  rewrite !elem_of_cons, elem_of_nil in Hin.
  repeat (destruct Hin as [E|Hin]; [rewrite E in Hi; by vm_compute in Hi|]). done.
Qed.

(** What the two tables give for a name of the root, by its three kinds. *)
Lemma model_key_table (m : string) :
  (known_model m = true /\ inherited_model m = false /\
   modelMap_get (toLowerCase m) ∈ device_models /\
   exists n, (0 < n)%Z /\ modelMapPriority !! toLowerCase m = Some n /\
     modelMapPriority_get (toLowerCase m) = Some (PNumber n)) \/
  (known_model m = false /\ inherited_model m = true /\
   modelMap_get (toLowerCase m) ∈ inherited_models /\
   modelMapPriority !! toLowerCase m = None /\
   exists o, modelMapPriority_get (toLowerCase m) = Some (PObject o)) \/
  (known_model m = false /\ inherited_model m = false /\
   modelMap_get (toLowerCase m) = JUndefined /\
   modelMapPriority !! toLowerCase m = None /\
   modelMapPriority_get (toLowerCase m) = None).
Proof.
  pose proof (Object_prototype_lower m) as Hobj.
  unfold known_model, inherited_model, modelMap_get, modelMapPriority_get.
  destruct (decide (toLowerCase m = "nanos")) as [->|H1].
  { left. repeat split; try by vm_compute.
    - vm_compute. by left.
    - exists 3%Z. by vm_compute. }
  destruct (decide (toLowerCase m = "nanox")) as [->|H2].
  { left. repeat split; try by vm_compute.
    - vm_compute. right. by left.
    - exists 2%Z. by vm_compute. }
  destruct (decide (toLowerCase m = "blue")) as [->|H3].
  { left. repeat split; try by vm_compute.
    - vm_compute. do 2 right. by left.
    - exists 1%Z. by vm_compute. }
  assert (modelMap !! toLowerCase m = None) as ->.
  { unfold modelMap. by rewrite !lookup_insert_ne, lookup_singleton_ne. }
  assert (modelMapPriority !! toLowerCase m = None) as ->.
  { unfold modelMapPriority. by rewrite !lookup_insert_ne, lookup_singleton_ne. }
  assert (bool_decide (toLowerCase m ∈ ["nanos"; "nanox"; "blue"]) = false) as ->.
  { apply bool_decide_eq_false. rewrite !elem_of_cons, elem_of_nil. naive_solver. }
  right. destruct (Object_prototype (toLowerCase m)) as [o|] eqn:E.
  - left. destruct (Hobj o eq_refl) as [[-> ->]|[-> ->]].
    + repeat split; try by vm_compute.
      * vm_compute. by left.
      * by eexists.
    + repeat split; try by vm_compute.
      * vm_compute. right. by left.
      * by eexists.
  - right. repeat split; try done.
    apply bool_decide_eq_false. rewrite !elem_of_cons, elem_of_nil.
    intros [E'|[E'|[]]]; rewrite E' in E; by vm_compute in E.
Qed.

Lemma truthy_priority_kept (m : string) :
  truthy_priority (modelMapPriority_get (toLowerCase m)) = kept_model m.
Proof.
  unfold kept_model.
  destruct (model_key_table m)
    as [(-> & -> & _ & n & Hn & _ & ->)|[(-> & -> & _ & _ & o & ->)|(-> & -> & _ & _ & ->)]];
    simpl; try done.
  apply negb_true_iff, Z.eqb_neq. lia.
Qed.

Lemma modelMap_get_truthy (m : string) :
  truthy (modelMap_get (toLowerCase m)) = kept_model m.
Proof.
  unfold kept_model.
  destruct (model_key_table m)
    as [(-> & -> & H & _)|[(-> & -> & H & _)|(-> & -> & -> & _)]]; simpl; try done.
  - unfold device_models in H. rewrite !elem_of_cons, elem_of_nil in H.
    by destruct H as [->|[->|[->|[]]]].
  - unfold inherited_models in H. rewrite !elem_of_cons, elem_of_nil in H.
    by destruct H as [->|[->|[]]].
Qed.

Lemma modelMap_get_kept (m : string) :
  kept_model m = true ->
  modelMap_get (toLowerCase m) ∈ device_models ++ inherited_models /\
  (inherited_model m = false -> modelMap_get (toLowerCase m) ∈ device_models).
Proof.
  unfold kept_model.
  destruct (model_key_table m)
    as [(-> & -> & H & _)|[(-> & -> & H & _)|(-> & -> & -> & _)]]; intros Hk;
    [| |done].
  - split; [|done]. apply elem_of_app. by left.
  - split; [|done]. apply elem_of_app. by right.
Qed.

Lemma model_priority_known (m : string) :
  known_model m = true ->
  exists n, (0 < n)%Z /\ model_priority m = n /\
    modelMapPriority_get (toLowerCase m) = Some (PNumber n).
Proof.
  unfold model_priority.
  destruct (model_key_table m) as [(_ & _ & _ & n & Hn & -> & ->)|[(-> & _)|(-> & _)]];
    [|done..].
  intros _. by exists n.
Qed.

(** ** More on sorts and loops *)

Lemma StronglySorted_weaken {A} (R R' : A -> A -> Prop) (l : list A) :
  (forall x y, R x y -> R' x y) -> StronglySorted R l -> StronglySorted R' l.
Proof.
  intros HR. induction 1 as [|x l _ IH Hx]; constructor; [done|].
  eapply Forall_impl; [apply Hx|]. apply HR.
Qed.

Lemma semver_compare_Ok (a b : string) (z : Z) :
  semver_compare a b = Ok z <-> semver.compare a b = Some z.
Proof. unfold semver_compare. destruct (semver.compare a b); naive_solver. Qed.

Lemma semver_compare_constructs (a b : string) (z : Z) :
  semver_compare a b = Ok z ->
  is_Some (semver.construct a) /\ is_Some (semver.construct b).
Proof.
  unfold semver_compare, semver.compare.
  destruct (semver.construct a), (semver.construct b); simpl; done.
Qed.

(** The sort by [semver.compare] of precise versions gives them in ascending
    order. *)
Lemma js_sort_semver_sorted {A} (key : A -> string) (l s : list A) :
  js_sort (fun a b => semver_compare (key a) (key b)) l = Ok s ->
  Forall (fun x => precise (key x)) l ->
  StronglySorted (fun a b => version_le (key a) (key b)) s.
Proof.
  intros Hs HP.
  apply (StronglySorted_weaken
           (fun a b => precise (key a) /\ precise (key b) /\ version_le (key a) (key b)));
    [naive_solver|].
  eapply (js_sort_sorted _ (fun x => precise (key x))); [| |apply HP|apply Hs].
  - intros x y z Hx Hy Hz%semver_compare_Ok. split; intros Hle.
    + repeat split; try done. by exists z.
    + repeat split; try done. by eapply version_le_total.
  - intros x y z (Hx & Hy & H1) (_ & Hz & H2). repeat split; try done.
    by eapply (version_le_trans _ (key y)).
Qed.

Lemma js_sort_compared {A} (cmp : A -> A -> result Z) (V : A -> Prop) (l l' : list A) :
  (forall x y z, cmp x y = Ok z -> V x /\ V y) ->
  js_sort cmp l = Ok l' -> (2 <= length l)%nat -> Forall V l.
Proof.
  intros Hc. revert l'. induction l as [|x r IH]; intros l' H Hlen; simpl in *; [lia|].
  destruct (js_sort cmp r) as [s|] eqn:Hs; simpl in H; [|done].
  pose proof (js_sort_perm _ _ _ Hs) as Hperm.
  destruct s as [|y t].
  { apply Permutation_nil in Hperm. subst r. simpl in Hlen. lia. }
  simpl in H. destruct (cmp x y) as [c|] eqn:Hxy; simpl in H; [|done].
  destruct (Hc _ _ _ Hxy) as [Hx Hy]. constructor; [done|].
  destruct r as [|r1 [|r2 r]].
  - simpl in Hlen. lia.
  - apply Permutation_length in Hperm as Hl. destruct t; [|done].
    apply Permutation_singleton_r in Hperm. simplify_eq. by constructor.
  - apply (IH _ eq_refl). simpl. lia.
Qed.

Lemma js_sort_semver_error {A} (key : A -> string) (l : list A) (e : error) :
  js_sort (fun a b => semver_compare (key a) (key b)) l = Err e -> e = InvalidVersion.
Proof.
  induction l as [|x r IH]; simpl; [done|].
  destruct (js_sort _ r) as [s|]; simpl; [|done].
  clear IH. induction s as [|y t IH]; simpl; [done|].
  destruct (semver_compare (key x) (key y)) as [c|e'] eqn:E; simpl.
  - destruct (c <=? 0)%Z; [done|].
    destruct (sort_insert _ x t); simpl; [done|]. apply IH.
  - intros [= <-]. unfold semver_compare in E.
    destruct (semver.compare (key x) (key y)); by simplify_eq.
Qed.

Lemma for_concat_elem {A B} (f : A -> result (list B)) (l : list A) (cs : list B) (c : B) :
  for_concat f l = Ok cs -> c ∈ cs -> exists x b, x ∈ l /\ f x = Ok b /\ c ∈ b.
Proof.
  revert cs. induction l as [|x r IH]; intros cs H Hc; simpl in H.
  - simplify_eq. by apply elem_of_nil in Hc.
  - destruct (f x) as [b|] eqn:E; simpl in H; [|done].
    destruct (for_concat f r) as [bs|]; simpl in H; [|done]. simplify_eq.
    apply elem_of_app in Hc as [Hc|Hc].
    + exists x, b. split; [by left|done].
    + destruct (IH _ eq_refl Hc) as (y & b' & Hy & Hf & Hb). exists y, b'.
      split; [by right|done].
Qed.




Lemma fsp_readdir_Ok (readdir : string -> option (list string)) (p : string)
    (names : list string) :
  fsp_readdir readdir p = Ok names <-> readdir p = Some names.
Proof. unfold fsp_readdir. destruct (readdir p); naive_solver. Qed.

(** ** The model and firmware directories in the order of the visit *)

Lemma sortedModels_filter (names : list string) :
  map fst (List.filter (fun a : string * option priority => truthy_priority a.2)
             (map (fun modelName =>
                     (modelName, modelMapPriority_get (toLowerCase modelName))) names))
  = List.filter kept_model names.
Proof.
  induction names as [|n names IH]; simpl; [done|].
  rewrite truthy_priority_kept. destruct (kept_model n); simpl; by rewrite IH.
Qed.

Lemma sortedModels_Ok (names : list string) :
  exists models,
    sortedModels names = Ok models /\
    Permutation models (List.filter kept_model names) /\
    (Forall (fun m => inherited_model m = false) models ->
     StronglySorted priority_desc models).
Proof.
  unfold sortedModels.
  set (pairs := List.filter (fun a : string * option priority => truthy_priority a.2)
                  (map (fun modelName =>
                          (modelName, modelMapPriority_get (toLowerCase modelName))) names)).
  destruct (js_sort_returns (fun a b : string * option priority => Ok (priority_cmp a b))
              (fun _ => True) pairs) as [s Hs].
  { intros x y _ _. by eexists. }
  { by apply Forall_true. }
  pose proof (js_sort_perm _ _ _ Hs) as Hperm.
  exists (map fst s). split; [by rewrite Hs|]. split.
  { rewrite <- sortedModels_filter. by apply Permutation_map. }
  intros Hno.
  set (P := fun a : string * option priority =>
              exists n, a.2 = Some (PNumber n) /\ model_priority a.1 = n).
  set (R := fun a b : string * option priority => P a /\ P b /\ priority_desc a.1 b.1).
  assert (Forall P pairs) as HP0.
  { rewrite <- Hperm. apply Forall_forall. intros a Ha.
    assert (a ∈ pairs) as Ha' by by rewrite <- Hperm.
    apply list_elem_of_In, filter_In in Ha' as [Ha' Ht].
    apply in_map_iff in Ha' as (n & <- & _). simpl in Ht.
    rewrite truthy_priority_kept in Ht.
    assert (inherited_model n = false) as Hn.
    { rewrite Forall_forall in Hno. apply Hno. apply list_elem_of_fmap. by exists (n, modelMapPriority_get (toLowerCase n)). }
    unfold kept_model in Ht. rewrite Hn, orb_false_r in Ht.
    destruct (model_priority_known n Ht) as (k & _ & Hk & Hk'). exists k. by split. }
  assert (StronglySorted R s) as Hsort.
  { eapply (js_sort_sorted _ P R); [| |apply HP0|apply Hs].
    - intros x y z Hx Hy Hz. unfold R, priority_desc.
      pose proof Hx as (nx & Hx2 & Hx3). pose proof Hy as (ny & Hy2 & Hy3).
      unfold priority_cmp in Hz. rewrite Hx2, Hy2 in Hz. simplify_eq.
      split; intros ?; (split; [done|split; [done|]]). all: lia.
    - intros x y z (? & ? & ?) (? & ? & ?). unfold R, priority_desc in *.
      split; [done|split; [done|lia]]. }
  eapply (StronglySorted_fmap fst R priority_desc); [|apply Hsort].
  by intros x y (_ & _ & ?).
Qed.

Lemma sortedModels_inv (names models : list string) :
  sortedModels names = Ok models ->
  Permutation models (List.filter kept_model names) /\
  (Forall (fun m => inherited_model m = false) models ->
   StronglySorted priority_desc models).
Proof.
  intros H. destruct (sortedModels_Ok names) as (models' & H' & Hp & Hs).
  rewrite H in H'. by simplify_eq.
Qed.

Lemma sortedModels_elem (names models : list string) (m : string) :
  sortedModels names = Ok models -> m ∈ models <-> m ∈ names /\ kept_model m = true.
Proof.
  intros [Hp _]%sortedModels_inv. rewrite Hp, list_elem_of_In, filter_In.
  by rewrite <- list_elem_of_In.
Qed.

Lemma sortedFirmwares_inv (fws fws' : list string) :
  sortedFirmwares fws = Ok fws' ->
  Permutation fws' fws /\
  (Forall (fun f => precise (hackBadSemver f)) fws' -> StronglySorted firmware_desc fws').
Proof.
  unfold sortedFirmwares. intros H.
  destruct (js_sort _ fws) as [s|] eqn:Hs; simpl in H; [|done]. simplify_eq.
  pose proof (js_sort_perm _ _ _ Hs) as Hperm.
  assert (Permutation (rev s) fws) as Hp.
  { rewrite <- Hperm. symmetry. apply Permutation_rev. }
  split; [done|]. intros HP.
  apply (StronglySorted_rev (fun a b => version_le (hackBadSemver a) (hackBadSemver b))).
  apply (js_sort_semver_sorted hackBadSemver fws s Hs). by rewrite <- Hp.
Qed.

(** Whether the sort of the firmware directories returns. *)
Lemma sortedFirmwares_outcome (firmwares : list string) :
  (is_Ok (sortedFirmwares firmwares) <->
     (length firmwares <= 1)%nat \/
     Forall (fun f => is_Some (semver.construct (hackBadSemver f))) firmwares) /\
  (forall sorted, sortedFirmwares firmwares = Ok sorted -> Permutation sorted firmwares) /\
  (forall e, sortedFirmwares firmwares = Err e -> e = InvalidVersion).
Proof.
  split; [|split].
  - unfold sortedFirmwares. split.
    + intros [sorted H].
      destruct (js_sort _ firmwares) as [s|] eqn:Hs; simpl in H; [|done].
      destruct (decide (length firmwares <= 1)%nat); [by left|right].
      eapply (js_sort_compared _
                (fun f => is_Some (semver.construct (hackBadSemver f))));
        [|apply Hs|lia].
      intros x y z. apply semver_compare_constructs.
    + intros [Hlen|Hall].
      * destruct firmwares as [|f [|g r]]; [by eexists..|simpl in Hlen; lia].
      * destruct (js_sort_returns
                    (fun a b => semver_compare (hackBadSemver a) (hackBadSemver b))
                    (fun f => is_Some (semver.construct (hackBadSemver f))) firmwares)
          as [s Hs]; [|done|].
        -- intros x y [vx Hx] [vy Hy]. unfold semver_compare, semver.compare.
           rewrite Hx, Hy. simpl. by eexists.
        -- rewrite Hs. by eexists.
  - intros sorted H. by apply sortedFirmwares_inv in H as [? _].
  - unfold sortedFirmwares. intros e H.
    destruct (js_sort _ firmwares) as [s|] eqn:Hs; simpl in H; [done|]. simplify_eq.
    by apply (js_sort_semver_error hackBadSemver) in Hs.
Qed.

(** ** The loops of the scan *)

Section scan_facts.
Variable path_join : string -> string -> string.
Variable readdir : string -> option (list string).

Lemma elfCandidate_Some (p3 : string) (m : jsval) (fw app elf : string) (c : AppCandidate) :
  elfCandidate path_join p3 m fw app elf = Some c ->
  startsWith elf "app_" && endsWith elf ".elf" = true /\
  semver.valid (slice elf 4 (String.length elf - 4)) = true /\
  c = {| path := path_join p3 elf; model := m; firmware := fw; appName := app;
         appVersion := slice elf 4 (String.length elf - 4) |}.
Proof.
  unfold elfCandidate. intros H.
  destruct (startsWith elf "app_" && endsWith elf ".elf"); [|done].
  destruct (semver.valid _); [|done]. by simplify_eq.
Qed.

Lemma elfCandidates_valid (p3 : string) (m : jsval) (fw app : string) (elfs : list string) :
  Forall (fun c => semver.valid (appVersion c) = true /\ model c = m
                   /\ firmware c = fw /\ appName c = app)
         (elfCandidates path_join p3 m fw app elfs).
Proof.
  apply Forall_forall. intros c (elf & _ & H)%list_elem_of_omap.
  apply elfCandidate_Some in H as (_ & Hv & ->). done.
Qed.

(** The sort of an application's candidates does not throw. *)
Lemma appCandidates_sort_returns (cs : list AppCandidate) :
  Forall (fun c => semver.valid (appVersion c) = true) cs ->
  is_Ok (js_sort (fun a b => semver_compare (appVersion a) (appVersion b)) cs).
Proof.
  apply js_sort_returns. intros x y Hx Hy.
  destruct (compare_valid _ _ Hx Hy) as [z Hz]. exists z. by apply semver_compare_Ok.
Qed.

Lemma appCandidates_Ok (p2 : string) (m : jsval) (fw app : string) (elfs : list string) :
  readdir (path_join p2 app) = Some elfs ->
  exists cs, appCandidates path_join readdir p2 m fw app = Ok cs /\
    Permutation cs (elfCandidates path_join (path_join p2 app) m fw app elfs) /\
    (Forall (fun c => precise (appVersion c)) cs -> StronglySorted version_desc cs).
Proof.
  intros Hrd. unfold appCandidates, fsp_readdir. rewrite Hrd; simpl.
  pose proof (elfCandidates_valid (path_join p2 app) m fw app elfs) as Hv.
  destruct (appCandidates_sort_returns (elfCandidates path_join (path_join p2 app) m fw app elfs))
    as [s Hs].
  { eapply Forall_impl; [apply Hv|]. naive_solver. }
  rewrite Hs; simpl. eexists; split; [done|].
  assert (Permutation (rev s) (elfCandidates path_join (path_join p2 app) m fw app elfs))
    as Hp.
  { rewrite <- (js_sort_perm _ _ _ Hs). symmetry. apply Permutation_rev. }
  split; [done|]. intros HP.
  apply (StronglySorted_rev (fun a b => version_le (appVersion a) (appVersion b))).
  apply (js_sort_semver_sorted appVersion _ s Hs). by rewrite <- Hp.
Qed.

Lemma appCandidates_inv (p2 : string) (m : jsval) (fw app : string) (b : list AppCandidate) :
  appCandidates path_join readdir p2 m fw app = Ok b ->
  exists elfs, readdir (path_join p2 app) = Some elfs /\
    Permutation b (elfCandidates path_join (path_join p2 app) m fw app elfs) /\
    (Forall (fun c => precise (appVersion c)) b -> StronglySorted version_desc b).
Proof.
  intros H. destruct (readdir (path_join p2 app)) as [elfs|] eqn:Hrd.
  - destruct (appCandidates_Ok p2 m fw app elfs Hrd) as (cs & Hcs & Hperm & Hsort).
    rewrite Hcs in H. simplify_eq. by exists elfs.
  - unfold appCandidates, fsp_readdir in H. by rewrite Hrd in H.
Qed.

Lemma appCandidates_group (p2 : string) (m : jsval) (fw app : string) (b : list AppCandidate) :
  appCandidates path_join readdir p2 m fw app = Ok b ->
  exists g, g.2 = b /\ g.1 = app /\
    (app_group_of path_join readdir p2 m fw g /\ app_group_ordered g).
Proof.
  intros (elfs & Hrd & Hperm & Hsort)%appCandidates_inv.
  exists (app, b). do 2 (split; [done|]). split; [by exists elfs|done].
Qed.

Lemma firmwareCandidates_group (p1 : string) (m : jsval) (fw : string) (b : list AppCandidate) :
  firmwareCandidates path_join readdir p1 m fw = Ok b ->
  exists fg, fg_candidates fg = b /\ fg_firmware fg = fw /\
    (firmware_group_of path_join readdir p1 m fg /\ Forall app_group_ordered (fg_apps fg)).
Proof.
  unfold firmwareCandidates. intros H.
  destruct (fsp_readdir readdir (path_join p1 fw)) as [apps|] eqn:Hrd; simpl in H; [|done].
  apply fsp_readdir_Ok in Hrd.
  eapply (for_concat_groups _
            (fun app g => g.1 = app /\
               (app_group_of path_join readdir (path_join p1 fw) m fw g
                /\ app_group_ordered g)) snd)
    in H as (gs & -> & Hgs).
  - exists {| fg_firmware := fw; fg_apps := gs |}. do 2 (split; [done|]).
    apply (Forall2_keyed fst) in Hgs as [Hk Hgs]. apply Forall_and in Hgs as [Hof Hord].
    split; [|done]. by exists apps.
  - intros app b' Hb. apply appCandidates_group in Hb. naive_solver.
Qed.

Lemma modelCandidates_group (cwd modelName : string) (b : list AppCandidate) :
  modelCandidates path_join readdir cwd modelName = Ok b ->
  exists mg, mg_candidates mg = b /\ mg_modelName mg = modelName /\
    (model_group_of path_join readdir cwd mg /\ model_group_ordered mg).
Proof.
  unfold modelCandidates. intros H.
  destruct (fsp_readdir readdir (path_join cwd modelName)) as [fws|] eqn:Hrd;
    simpl in H; [|done].
  apply fsp_readdir_Ok in Hrd.
  destruct (sortedFirmwares fws) as [fws'|] eqn:Hs; simpl in H; [|done].
  apply sortedFirmwares_inv in Hs as [Hperm Hsort].
  eapply (for_concat_groups _
            (fun fw fg => fg_firmware fg = fw /\
               (firmware_group_of path_join readdir (path_join cwd modelName)
                  (modelMap_get (toLowerCase modelName)) fg
                /\ Forall app_group_ordered (fg_apps fg)))
            fg_candidates) in H as (gs & -> & Hgs).
  - exists {| mg_modelName := modelName; mg_firmwares := gs |}. do 2 (split; [done|]).
    apply (Forall2_keyed fg_firmware) in Hgs as [Hk Hgs].
    apply Forall_and in Hgs as [Hof Hord]. split.
    + exists fws. simpl. by rewrite Hk.
    + split; simpl; [by rewrite Hk|done].
  - intros fw b' Hb. apply firmwareCandidates_group in Hb. naive_solver.
Qed.

Lemma listAppCandidates_order (cwd : string) (cs : list AppCandidate) :
  listAppCandidates path_join readdir cwd = Ok cs ->
  exists mgs, cs = candidates_of mgs /\ scan_of path_join readdir cwd mgs /\ scan_order mgs.
Proof.
  unfold listAppCandidates. intros H.
  destruct (fsp_readdir readdir cwd) as [names|] eqn:Hrd; simpl in H; [|done].
  apply fsp_readdir_Ok in Hrd.
  destruct (sortedModels names) as [models|] eqn:Hm; simpl in H; [|done].
  apply sortedModels_inv in Hm as [Hperm Hsort].
  eapply (for_concat_groups _
            (fun m mg => mg_modelName mg = m /\
               (model_group_of path_join readdir cwd mg /\ model_group_ordered mg))
            mg_candidates) in H as (gs & -> & Hgs).
  - exists gs. split; [done|].
    apply (Forall2_keyed mg_modelName) in Hgs as [Hk Hgs].
    apply Forall_and in Hgs as [Hof Hord]. split.
    + exists names. by rewrite Hk.
    + split; [by rewrite Hk|done].
  - intros m b' Hb. apply modelCandidates_group in Hb. naive_solver.
Qed.

End scan_facts.


(** ** Files the scan skips *)


Lemma elfCandidate_kept (path_join : string -> string -> string) (p3 : string)
    (m : jsval) (fw app elf : string) :
  elf_named elf = true -> semver.valid (elf_version elf) = true ->
  elfCandidate path_join p3 m fw app elf =
  Some {| path := path_join p3 elf; model := m; firmware := fw; appName := app;
          appVersion := elf_version elf |}.
Proof. unfold elfCandidate, elf_named, elf_version. by intros -> ->. Qed.





(** ** The order of the scan *)

Lemma listAppCandidates_fixture_1_6 :
  listAppCandidates fixture_join (fixture_readdir ["1.6"; "2.0"]) "apps" = Err InvalidVersion
  /\ forall cs, listAppCandidates fixture_join (fixture_readdir ["1.6"; "2.0"]) "apps" <> Ok cs.
Proof. split; [by vm_compute|]. intros cs. by vm_compute. Qed.

(** C2, amended: what a scan returns is made of the groups of the tree: one
    for each name of the root that is kept, holding one for each entry of
    that model directory, holding one for each entry of that firmware
    directory in the order of its listing, holding the candidates of the
    binaries of that application directory.  The candidates of an
    application directory come in descending version and the firmware
    directories of a model in descending normalized version, when the
    versions compared have no numeric prerelease identifier of 2^53 or more;
    the model directories come in descending priority (nanos, nanox, blue)
    when none is named by a key the priority table inherits.  On the fixture
    tree with the firmwares 1.6.0 and 2.0.0 the scan returns
    nanos/2.0.0/1.3.1, nanos/2.0.0/1.2.0, nanos/1.6.0/1.3.1,
    nanos/1.6.0/1.2.0, then the same for nanox. *)
Theorem listAppCandidates_ordered :
  (forall (path_join : string -> string -> string)
          (readdir : string -> option (list string)) (cwd : string)
          (cs : list AppCandidate),
     listAppCandidates path_join readdir cwd = Ok cs ->
     exists mgs, cs = candidates_of mgs /\ scan_of path_join readdir cwd mgs
                 /\ scan_order mgs) /\
  model_priority "nanos" = 3%Z /\ model_priority "nanox" = 2%Z /\
  model_priority "blue" = 1%Z /\
  listAppCandidates fixture_join (fixture_readdir ["1.6.0"; "2.0.0"]) "apps" =
  Ok [fixture_candidate "nanos" "nanoS" "2.0.0" "1.3.1";
      fixture_candidate "nanos" "nanoS" "2.0.0" "1.2.0";
      fixture_candidate "nanos" "nanoS" "1.6.0" "1.3.1";
      fixture_candidate "nanos" "nanoS" "1.6.0" "1.2.0";
      fixture_candidate "nanox" "nanoX" "2.0.0" "1.3.1";
      fixture_candidate "nanox" "nanoX" "2.0.0" "1.2.0";
      fixture_candidate "nanox" "nanoX" "1.6.0" "1.3.1";
      fixture_candidate "nanox" "nanoX" "1.6.0" "1.2.0"].
Proof.
  split; [apply listAppCandidates_order|]. repeat split; by vm_compute.
Qed.

Lemma listAppCandidates_ordered_witness :
  exists mgs,
    [fixture_candidate "nanos" "nanoS" "2.0.0" "1.3.1";
     fixture_candidate "nanos" "nanoS" "2.0.0" "1.2.0";
     fixture_candidate "nanos" "nanoS" "1.6.0" "1.3.1";
     fixture_candidate "nanos" "nanoS" "1.6.0" "1.2.0";
     fixture_candidate "nanox" "nanoX" "2.0.0" "1.3.1";
     fixture_candidate "nanox" "nanoX" "2.0.0" "1.2.0";
     fixture_candidate "nanox" "nanoX" "1.6.0" "1.3.1";
     fixture_candidate "nanox" "nanoX" "1.6.0" "1.2.0"] = candidates_of mgs
    /\ scan_of fixture_join (fixture_readdir ["1.6.0"; "2.0.0"]) "apps" mgs
    /\ scan_order mgs.
Proof.
  destruct listAppCandidates_ordered as [H _].
  apply (H fixture_join (fixture_readdir ["1.6.0"; "2.0.0"]) "apps").
  by vm_compute.
Defined.

(** ** Splitting and joining *)

Lemma split_no_char (c : ascii) (s : string) : no_char c s = true -> split c s = [s].
Proof.
  unfold no_char. induction s as [|a s IH]; simpl; [done|].
  intros [Ha Hs]%andb_true_iff. apply negb_true_iff in Ha. rewrite Ha.
  by rewrite (IH Hs).
Qed.

Lemma split_app_sep (c : ascii) (x t : string) :
  no_char c x = true -> split c (x +:+ String c t) = x :: split c t.
Proof.
  unfold no_char. induction x as [|a x IH]; simpl.
  - intros _. by rewrite Ascii.eqb_refl.
  - intros [Ha Hx]%andb_true_iff. apply negb_true_iff in Ha. rewrite Ha.
    by rewrite (IH Hx).
Qed.

Lemma split_join (c : ascii) (parts : list string) :
  parts <> [] -> Forall (fun s => no_char c s = true) parts ->
  split c (join (String c "") parts) = parts.
Proof.
  intros Hne HP. induction HP as [|x [|y r] Hx HP IH]; [done| |].
  - simpl. by apply split_no_char.
  - change (join (String c "") (x :: y :: r))
      with (x +:+ String c (join (String c "") (y :: r))).
    rewrite (split_app_sep _ _ _ Hx). f_equal. by apply IH.
Qed.

Lemma filter_Boolean_strings (l : list string) : filter_Boolean (JStr <$> l) = nonempty l.
Proof.
  unfold filter_Boolean, nonempty. induction l as [|x l IH]; simpl; [done|].
  rewrite <- IH. by destruct (String.eqb x "").
Qed.

Lemma hackBadSemver_of_parts (parts : list string) :
  parts <> [] -> Forall (fun s => no_char "." s = true) parts ->
  hackBadSemver (join "." parts) =
    match parts with
    | x :: y :: z :: (_ :: _) as rest =>
        join "." (nonempty [x; y; z +:+ "-" +:+ join "-" rest])
    | _ => join "." (nonempty parts)
    end.
Proof.
  intros Hne HP. pose proof (split_join "." parts Hne HP) as Hs.
  unfold hackBadSemver. rewrite Hs.
  destruct parts as [|x [|y [|z [|r rest]]]]; try done;
    unfold js_index; simpl lookup; cbv iota; simpl drop; simpl length; simpl negb;
    cbv iota; simpl js_to_string.
  - apply (f_equal (join ".")), (filter_Boolean_strings [x]).
  - apply (f_equal (join ".")), (filter_Boolean_strings [x; y]).
  - apply (f_equal (join ".")), (filter_Boolean_strings [x; y; z]).
  - apply (f_equal (join ".")),
      (filter_Boolean_strings [x; y; z +:+ "-" +:+ join "-" (r :: rest)]).
Qed.

(** C7: the input is split on the dots; with more than three components the
    first two are kept, the third is joined by hyphens with all the further
    ones, and empty fields are dropped before the fields are joined by dots
    again; with three components or fewer the non-empty ones are joined
    again.  So "1.6.1.9" gives "1.6.1-9" and "1.6.0" gives "1.6.0". *)
Theorem hackBadSemver_components (parts : list string) :
  parts <> [] -> Forall (fun s => no_char "." s = true) parts ->
  split "." (join "." parts) = parts /\
  hackBadSemver (join "." parts) =
    match parts with
    | x :: y :: z :: (_ :: _) as rest =>
        join "." (nonempty [x; y; z +:+ "-" +:+ join "-" rest])
    | _ => join "." (nonempty parts)
    end /\
  hackBadSemver "1.6.1.9" = "1.6.1-9" /\ hackBadSemver "1.6.0" = "1.6.0".
Proof.
  intros Hne HP. split; [by apply split_join|].
  split; [by apply hackBadSemver_of_parts|done].
Qed.

Lemma hackBadSemver_components_witness :
  hackBadSemver "2.1.0.7.rc" = "2.1.0-7-rc" /\ hackBadSemver ".6.1" = "6.1".
Proof.
  split.
  - exact (proj1 (proj2 (hackBadSemver_components ["2"; "1"; "0"; "7"; "rc"]
                           ltac:(done) ltac:(by repeat constructor)))).
  - exact (proj1 (proj2 (hackBadSemver_components [""; "6"; "1"]
                           ltac:(done) ltac:(by repeat constructor)))).
Defined.

(** ** Normalized versions *)

Lemma length_join (sep1 sep2 : string) (l : list string) :
  String.length sep1 = String.length sep2 ->
  String.length (join sep1 l) = String.length (join sep2 l).
Proof.
  intros Hs. induction l as [|x [|y r] IH]; try done.
  change (join sep1 (x :: y :: r)) with (x +:+ sep1 +:+ join sep1 (y :: r)).
  change (join sep2 (x :: y :: r)) with (x +:+ sep2 +:+ join sep2 (y :: r)).
  rewrite !length_append. by rewrite IH, Hs.
Qed.

Lemma is_digit_ident (c : ascii) : semver.is_digit c = true -> semver.is_ident_char c = true.
Proof. unfold semver.is_ident_char. by intros ->. Qed.

Lemma is_ident_char_not (c : ascii) :
  semver.is_ident_char c = true ->
  negb (Ascii.eqb c ".") = true /\ negb (Ascii.eqb c "+") = true.
Proof. by destruct c as [[] [] [] [] [] [] [] []]. Qed.

Lemma is_digit_not (c : ascii) :
  semver.is_digit c = true ->
  negb (Ascii.eqb c "-") = true /\ negb (Ascii.eqb c "v") = true.
Proof. by destruct c as [[] [] [] [] [] [] [] []]. Qed.

Lemma numeric_identifier_digits (s : string) :
  semver.numeric_identifier s = true -> all_chars semver.is_digit s = true /\ s <> "".
Proof.
  destruct s as [|c t]; [done|]. unfold semver.numeric_identifier.
  by intros [? _]%andb_true_iff.
Qed.

Lemma cut_no_char (c : ascii) (s : string) :
  no_char c s = true -> semver.cut c s = (s, None).
Proof.
  unfold no_char. induction s as [|a s IH]; simpl; [done|].
  intros [Ha Hs]%andb_true_iff. apply negb_true_iff in Ha. by rewrite Ha, (IH Hs).
Qed.

Lemma cut_app_sep (c : ascii) (a t : string) :
  no_char c a = true -> semver.cut c (a +:+ String c t) = (a, Some t).
Proof.
  unfold no_char. induction a as [|x a IH]; simpl.
  - intros _. by rewrite Ascii.eqb_refl.
  - intros [Hx Ha]%andb_true_iff. apply negb_true_iff in Hx. by rewrite Hx, (IH Ha).
Qed.

(** The core [x.y.z] of three numeric components, with an optional
    prerelease made of one identifier, is a version. *)
Lemma parse_core (x y z : string) (pre : option string) :
  numeric_component x = true -> numeric_component y = true ->
  numeric_component z = true ->
  (forall p, pre = Some p -> all_chars semver.is_ident_char p = true
                             /\ is_Some (semver.prerelease_identifier p)) ->
  let s := join "." [x; y; z] +:+ from_option (fun p => "-" +:+ p) "" pre in
  (String.length s <= semver.MAX_LENGTH)%nat ->
  is_Some (semver.parse s).
Proof.
  intros [Hx Hxv]%andb_true_iff [Hy Hyv]%andb_true_iff [Hz Hzv]%andb_true_iff Hpre s Hlen.
  destruct (numeric_identifier_digits _ Hx) as [Dx Nx],
    (numeric_identifier_digits _ Hy) as [Dy Ny], (numeric_identifier_digits _ Hz) as [Dz Nz].
  assert (forall c, no_char c "." = true -> (forall d, semver.is_digit d = true ->
            negb (Ascii.eqb d c) = true) -> no_char c (join "." [x; y; z]) = true) as Hcore.
  { intros c Hc Hd. unfold no_char in *. simpl. rewrite !all_chars_app.
    rewrite (all_chars_impl _ _ x Hd), (all_chars_impl _ _ y Hd),
      (all_chars_impl _ _ z Hd) by done. by rewrite Hc. }
  assert (semver.strip_v s = s) as Hv.
  { subst s. destruct x as [|c x]; [done|]. simpl in Dx.
    apply andb_true_iff in Dx as [Dc _]. apply is_digit_not in Dc as [_ Dc].
    simpl. destruct c as [[] [] [] [] [] [] [] []]; done. }
  assert (no_char "+" s = true) as Hplus.
  { subst s. unfold no_char. rewrite all_chars_app.
    fold (no_char "+" (join "." [x; y; z])). rewrite Hcore; [|done|].
    - destruct pre as [p|]; simpl; [|done].
      destruct (Hpre p eq_refl) as [Hp _].
      eapply all_chars_impl; [|apply Hp]. intros c Hc. by apply is_ident_char_not in Hc as [_ ?].
    - intros d Hd. apply is_digit_ident in Hd. by apply is_ident_char_not in Hd as [_ ?]. }
  assert (no_char "-" (join "." [x; y; z]) = true) as Hdash.
  { apply Hcore; [done|]. intros d Hd. by apply is_digit_not in Hd as [? _]. }
  assert (split "." (join "." [x; y; z]) = [x; y; z]) as Hsplit.
  { apply split_join; [done|]. repeat constructor; unfold no_char.
    all: eapply all_chars_impl; [|eassumption].
    all: intros c Hc; apply is_digit_ident in Hc; by apply is_ident_char_not in Hc as [? _]. }
  unfold semver.parse. apply Nat.ltb_ge in Hlen. rewrite Hlen, Hv.
  rewrite (cut_no_char _ _ Hplus). subst s.
  destruct pre as [p|]; simpl from_option.
  - change ("-" +:+ p) with (String "-" p). rewrite (cut_app_sep _ _ _ Hdash), Hsplit.
    rewrite Hx, Hy, Hz, Hxv, Hyv, Hzv. simpl andb. cbv iota.
    destruct (Hpre p eq_refl) as [Hp [i Hi]].
    rewrite split_no_char.
    + simpl. rewrite Hi. simpl. by eexists.
    + eapply all_chars_impl; [|apply Hp]. intros c Hc. by apply is_ident_char_not in Hc as [? _].
  - rewrite append_empty_r.
    rewrite (cut_no_char _ _ Hdash), Hsplit.
    rewrite Hx, Hy, Hz, Hxv, Hyv, Hzv. simpl. by eexists.
Qed.

Lemma join_ident_chars (rest : list string) :
  Forall (fun r => extra_component r = true) rest ->
  all_chars semver.is_ident_char (join "-" rest) = true.
Proof.
  induction 1 as [|x [|y r] [_ Hx]%andb_true_iff _ IH]; [done..|].
  rewrite join_cons2, !all_chars_app, Hx, IH. done.
Qed.

Lemma prerelease_identifier_alpha (s : string) :
  all_chars semver.is_ident_char s = true -> all_chars semver.is_digit s = false ->
  is_Some (semver.prerelease_identifier s).
Proof.
  unfold semver.prerelease_identifier. intros -> ->.
  destruct (semver.numeric_identifier s); by eexists.
Qed.

Lemma prerelease_identifier_join (rest : list string) :
  rest <> [] -> Forall (fun r => extra_component r = true) rest ->
  (forall r, rest = [r] -> is_Some (semver.prerelease_identifier r)) ->
  is_Some (semver.prerelease_identifier (join "-" rest)).
Proof.
  intros Hne Hrest Hone. destruct rest as [|x [|y r]]; [done|by apply Hone|].
  apply prerelease_identifier_alpha; [by apply join_ident_chars|].
  rewrite join_cons2, !all_chars_app. simpl. apply andb_false_r.
Qed.

Lemma extra_component_no_dot (r : string) :
  extra_component r = true -> no_char "." r = true.
Proof.
  intros [_ Hr]%andb_true_iff. eapply all_chars_impl; [|apply Hr].
  intros c Hc. by apply is_ident_char_not in Hc as [? _].
Qed.

Lemma numeric_component_no_dot (x : string) :
  numeric_component x = true -> no_char "." x = true /\ String.eqb x "" = false.
Proof.
  intros [Hx _]%andb_true_iff. apply numeric_identifier_digits in Hx as [Dx Nx].
  split; [|by apply String.eqb_neq].
  eapply all_chars_impl; [|apply Dx].
  intros c Hc. apply is_digit_ident in Hc. by apply is_ident_char_not in Hc as [? _].
Qed.

Lemma nonempty_all (l : list string) :
  Forall (fun s => String.eqb s "" = false) l -> nonempty l = l.
Proof.
  unfold nonempty. induction 1 as [|x l Hx _ IH]; simpl; [done|].
  by rewrite Hx, IH.
Qed.

Lemma hackBadSemver_fails_on_1_6 :
  hackBadSemver "1.6" = "1.6" /\ semver.valid (hackBadSemver "1.6") = false /\
  ~ (forall raw, Forall (fun part => part <> "") (split "." raw) ->
                 semver.valid (hackBadSemver raw) = true).
Proof.
  split; [done|]. split; [done|]. intros H.
  specialize (H "1.6"). cut (false = true); [done|]. apply H.
  by repeat constructor.
Qed.

(** C6, amended: for a raw string of at most 256 characters whose first three
    components are numeric identifiers (no leading zero, at most 2^53-1) and
    whose further components, if any, are non-empty strings over
    [0-9A-Za-z-] (a single further one being itself a prerelease
    identifier), the normalized string is a valid semantic version; a raw
    string of the form major.minor.patch is returned unchanged. *)
Theorem hackBadSemver_valid (x y z : string) (rest : list string) :
  numeric_component x = true -> numeric_component y = true ->
  numeric_component z = true ->
  Forall (fun r => extra_component r = true) rest ->
  (forall r, rest = [r] -> is_Some (semver.prerelease_identifier r)) ->
  (String.length (join "." (x :: y :: z :: rest)) <= semver.MAX_LENGTH)%nat ->
  semver.valid (hackBadSemver (join "." (x :: y :: z :: rest))) = true /\
  (rest = [] -> hackBadSemver (join "." [x; y; z]) = join "." [x; y; z]).
Proof.
  intros Hx Hy Hz Hrest Hone Hlen.
  destruct (numeric_component_no_dot _ Hx) as [Dx Nx],
    (numeric_component_no_dot _ Hy) as [Dy Ny], (numeric_component_no_dot _ Hz) as [Dz Nz].
  assert (Forall (fun s => no_char "." s = true) (x :: y :: z :: rest)) as Hdots.
  { repeat (constructor; [done|]). eapply Forall_impl; [apply Hrest|].
    intros r. apply extra_component_no_dot. }
  pose proof (hackBadSemver_of_parts (x :: y :: z :: rest) ltac:(done) Hdots) as Hhack.
  destruct rest as [|r rest].
  - assert (hackBadSemver (join "." [x; y; z]) = join "." [x; y; z]) as Hid.
    { rewrite Hhack, nonempty_all; [done|]. by repeat constructor. }
    split; [|done]. rewrite Hid. apply bool_decide_eq_true.
    rewrite <- (append_empty_r (join "." [x; y; z])).
    apply (parse_core x y z None); try done.
    simpl from_option. by rewrite append_empty_r.
  - split; [|done]. rewrite Hhack.
    assert (String.eqb (z +:+ "-" +:+ join "-" (r :: rest)) "" = false) as Nz'.
    { apply String.eqb_neq. apply String.eqb_neq in Nz. by destruct z. }
    rewrite nonempty_all by by repeat constructor.
    assert (join "." [x; y; z +:+ "-" +:+ join "-" (r :: rest)]
            = join "." [x; y; z] +:+ "-" +:+ join "-" (r :: rest)) as Hout.
    { rewrite !join_cons2. simpl join. by rewrite !append_assoc. }
    rewrite Hout. apply bool_decide_eq_true.
    apply (parse_core x y z (Some (join "-" (r :: rest)))); try done.
    + intros p Hp. assert (p = join "-" (r :: rest)) as -> by congruence.
      split; [by apply join_ident_chars|].
      by apply prerelease_identifier_join.
    + cbv [from_option]. rewrite <- Hout.
      etrans; [|apply Hlen]. apply Nat.eq_le_incl.
      set (pre := join "-" (r :: rest)).
      rewrite (join_cons2 "." x y [z +:+ "-" +:+ pre]), (join_cons2 "." y (z +:+ "-" +:+ pre) []).
      change (join "." [z +:+ "-" +:+ pre]) with (z +:+ "-" +:+ pre).
      rewrite (join_cons2 "." x y (z :: r :: rest)), (join_cons2 "." y z (r :: rest)),
        (join_cons2 "." z r rest).
      rewrite !length_append. subst pre.
      by rewrite (length_join "-" "." (r :: rest)).
Qed.

Lemma hackBadSemver_valid_witness :
  semver.valid (hackBadSemver "1.6.1.9") = true /\
  semver.valid (hackBadSemver "1.6.0") = true /\
  hackBadSemver "1.6.0" = "1.6.0".
Proof.
  assert (forall r : string, ["9"] = [r] -> is_Some (semver.prerelease_identifier r)) as H9.
  { intros r [= <-]. by eexists. }
  split; [|split].
  - exact (proj1 (hackBadSemver_valid "1" "6" "1" ["9"] eq_refl eq_refl eq_refl
                    ltac:(by repeat constructor) H9 ltac:(vm_compute; lia))).
  - exact (proj1 (hackBadSemver_valid "1" "6" "0" [] eq_refl eq_refl eq_refl
                    ltac:(constructor) ltac:(done) ltac:(vm_compute; lia))).
  - exact (proj2 (hackBadSemver_valid "1" "6" "0" [] eq_refl eq_refl eq_refl
                    ltac:(constructor) ltac:(done) ltac:(vm_compute; lia)) eq_refl).
Defined.

(** ** Matching *)

Lemma absent_or_true (v : jsval) (test : jsval -> bool) :
  absent_or v test = true <-> absent v \/ test v = true.
Proof. unfold absent_or, absent. by rewrite orb_true_iff, negb_true_iff. Qed.

Lemma satisfies_true (semver_satisfies : string -> string -> bool) (version : string)
    (range : jsval) :
  satisfies semver_satisfies version range = true <->
  exists r, range = JStr r /\ semver_satisfies version r = true.
Proof. destruct range as [|r|o]; simpl; naive_solver. Qed.

Lemma find_first {A} (f : A -> bool) (l : list A) (x : A) :
  List.find f l = Some x <->
  exists l1 l2, l = l1 ++ x :: l2 /\ f x = true /\ Forall (fun y => f y = false) l1.
Proof.
  induction l as [|a l IH]; simpl.
  - split; [done|]. intros (l1 & l2 & H & _). by destruct l1.
  - destruct (f a) eqn:Ha.
    + split.
      * intros [= <-]. by exists [], l.
      * intros ([|b l1] & l2 & H & Hx & Hl1); simplify_eq/=; [done|].
        apply Forall_cons in Hl1 as [? _]. congruence.
    + rewrite IH. split.
      * intros (l1 & l2 & -> & Hx & Hl1). exists (a :: l1), l2. by repeat constructor.
      * intros ([|b l1] & l2 & H & Hx & Hl1); simplify_eq/=; [congruence|].
        apply Forall_cons in Hl1 as [_ Hl1]. by exists l1, l2.
Qed.

Lemma find_nothing {A} (f : A -> bool) (l : list A) :
  List.find f l = None <-> Forall (fun y => f y = false) l.
Proof.
  induction l as [|a l IH]; simpl; [by split|].
  destruct (f a) eqn:Ha.
  - split; [done|]. intros [? _]%Forall_cons. congruence.
  - rewrite IH. split; [by constructor|]. by intros [_ ?]%Forall_cons.
Qed.

(** C5: the empty search matches every candidate; a search matches when
    each of its fields is absent or met: [model] and [appName] by equality,
    [firmware] by equality or by the normalized firmware satisfying it as a
    range, [appVersion] by the version as it stands satisfying it as a range;
    and [findAppCandidate] gives the first candidate that matches, or none
    when none matches.  A field is absent when it is [undefined] or empty. *)
Theorem appCandidatesMatches_fields (semver_satisfies : string -> string -> bool)
    (c : AppCandidate) (s : gmap string jsval) (l : list AppCandidate) :
  appCandidatesMatches semver_satisfies c ∅ = true /\
  (appCandidatesMatches semver_satisfies c s = true <->
     (absent (prop s "model") \/ prop s "model" = model c) /\
     (absent (prop s "appName") \/ prop s "appName" = JStr (appName c)) /\
     (absent (prop s "firmware") \/ prop s "firmware" = JStr (firmware c) \/
        exists f, prop s "firmware" = JStr f
                  /\ semver_satisfies (hackBadSemver (firmware c)) f = true) /\
     (absent (prop s "appVersion") \/
        exists v, prop s "appVersion" = JStr v
                  /\ semver_satisfies (appVersion c) v = true)) /\
  (forall found, findAppCandidate semver_satisfies l s = Some found <->
     exists l1 l2, l = l1 ++ found :: l2
       /\ appCandidatesMatches semver_satisfies found s = true
       /\ Forall (fun x => appCandidatesMatches semver_satisfies x s = false) l1) /\
  (findAppCandidate semver_satisfies l s = None <->
     Forall (fun x => appCandidatesMatches semver_satisfies x s = false) l).
Proof.
  split; [done|]. split; [|split].
  - unfold appCandidatesMatches.
    rewrite !andb_true_iff, !absent_or_true, orb_true_iff, !bool_decide_eq_true,
      !satisfies_true.
    split; [intros (((H1 & H2) & H3) & H4)|intros (H1 & H2 & H3 & H4)];
      repeat split; naive_solver.
  - intros found.
    apply (find_first (fun x => appCandidatesMatches semver_satisfies x s)).
  - apply (find_nothing (fun x => appCandidatesMatches semver_satisfies x s)).
Qed.

(** ** The query parser *)

(** C1: for "speculos:nanoS:bitcoin@1.3.x", "bitcoin" being no currency
    keyword, the parser gives the model nanoS, the application name bitcoin
    and no dependency, but it stores the range 1.3.x under the key [version]:
    the search has no [appVersion], and a candidate of that model and name
    matches it whatever its version. *)
Theorem parseAppSearch_range_key
    (findCryptoCurrencyByKeyword : string -> option CryptoCurrency)
    (getDependencies : string -> list string)
    (semver_satisfies : string -> string -> bool) (c : AppCandidate) :
  findCryptoCurrencyByKeyword "bitcoin" = None ->
  exists q,
    parseAppSearch findCryptoCurrencyByKeyword getDependencies
      "speculos:nanoS:bitcoin@1.3.x" = Some q /\
    search q = {[ "model" := JStr "nanoS"; "firmware" := JUndefined;
                  "appName" := JStr "bitcoin"; "version" := JStr "1.3.x" ]} /\
    prop (search q) "model" = JStr "nanoS" /\
    prop (search q) "appName" = JStr "bitcoin" /\
    prop (search q) "version" = JStr "1.3.x" /\
    prop (search q) "appVersion" = JUndefined /\
    parsed_appName q = "bitcoin" /\ dependency q = JUndefined /\
    (model c = JStr "nanoS" -> appName c = "bitcoin" ->
     appCandidatesMatches semver_satisfies c (search q) = true).
Proof.
  intros Hfind. eexists. split.
  { unfold parseAppSearch.
    change (eatDevice (split ":" (slice_from "speculos:nanoS:bitcoin@1.3.x" 9)))
      with (JStr "nanoS", JUndefined, ["bitcoin@1.3.x"]).
    cbv beta iota zeta.
    change (split "@" "bitcoin@1.3.x") with ["bitcoin"; "1.3.x"].
    cbv beta iota zeta. rewrite Hfind. reflexivity. }
  cbn [search parsed_appName dependency]. repeat split; try by vm_compute.
  intros Hm Hn. unfold appCandidatesMatches.
  change (prop _ "model") with (JStr "nanoS").
  change (prop _ "appName") with (JStr "bitcoin").
  change (prop _ "firmware") with JUndefined.
  change (prop _ "appVersion") with JUndefined.
  unfold absent_or. simpl. rewrite Hm, Hn. by rewrite ?bool_decide_eq_true_2.
Qed.

Lemma parseAppSearch_range_key_witness :
  exists q,
    parseAppSearch (fun _ => None) (fun _ => []) "speculos:nanoS:bitcoin@1.3.x" = Some q /\
    prop (search q) "appVersion" = JUndefined /\
    findAppCandidate (fun _ _ => false)
      [fixture_candidate "nanos" "nanoS" "2.0.0" "1.2.0"] (search q)
    = Some (fixture_candidate "nanos" "nanoS" "2.0.0" "1.2.0").
Proof.
  destruct (parseAppSearch_range_key (fun _ => None) (fun _ => []) (fun _ _ => false)
              (fixture_candidate "nanos" "nanoS" "2.0.0" "1.2.0") eq_refl)
    as (q & Hq & _ & _ & _ & _ & Hv & _ & _ & Hm).
  exists q. split; [exact Hq|]. split; [exact Hv|].
  unfold findAppCandidate. simpl. by rewrite Hm.
Defined.

(** ** Ports and arguments *)

Lemma ports_shared_1_1001 :
  (1 <> 1001)%N /\ apduPort 1001 = vncPort 1 /\ ~ disjoint_ports 1001 1.
Proof.
  split; [done|]. split; [done|]. intros H. apply (H 41001%N); by vm_compute; set_solver.
Qed.

(** C4, amended: two counters that differ, and not by 1000, 2000 or 3000,
    give quadruplets of ports with no port in common; the four ports of one
    quadruplet are distinct. *)
Theorem ports_disjoint (n1 n2 : N) :
  n1 <> n2 ->
  (forall k, k ∈ [1000; 2000; 3000]%N -> n1 <> (n2 + k)%N /\ n2 <> (n1 + k)%N) ->
  disjoint_ports n1 n2 /\ NoDup (ports n1) /\ NoDup (ports n2).
Proof.
  intros Hne Hk.
  destruct (Hk 1000%N) as [? ?]; [set_solver|].
  destruct (Hk 2000%N) as [? ?]; [set_solver|].
  destruct (Hk 3000%N) as [? ?]; [set_solver|].
  unfold disjoint_ports, ports, apduPort, vncPort, buttonPort, automationPort.
  split; [|split].
  - intros p. rewrite !elem_of_cons, !elem_of_nil. lia.
  - repeat (constructor; [rewrite ?elem_of_cons, ?elem_of_nil; lia|]). constructor.
  - repeat (constructor; [rewrite ?elem_of_cons, ?elem_of_nil; lia|]). constructor.
Qed.

Lemma ports_disjoint_witness :
  disjoint_ports 1 2 /\ NoDup (ports 1) /\ NoDup (ports 2).
Proof.
  apply ports_disjoint; [done|].
  intros k Hk. apply list_elem_of_In in Hk. simpl in Hk. lia.
Defined.

(** C10: with a dependency, the argument after the path of the application
    is [-l], and the next one names the dependency and the binary of the
    dependency at the version of the application itself; these are the
    arguments of the process that [createSpeculosDevice] spawns. *)
Theorem spawnArgs_dependency {Transport} (σ : state Transport)
    (model0 firmware0 appName0 appVersion0 seed coinapps d : string) :
  d <> "" ->
  let n := (idCounter σ + 1)%N in
  let args := spawnArgs (speculosID n) n model0 firmware0 appName0 appVersion0 seed
                coinapps (JStr d) in
  trace (createSpeculosDevice_spawn model0 firmware0 appName0 appVersion0 seed coinapps
           (JStr d) σ).2 = trace σ ++ [EvSpawn args] /\
  args !! 18%nat = Some ("./apps/" +:+ toLowerCase model0 +:+ "/" +:+ firmware0 +:+ "/"
                         +:+ appName0 +:+ "/app_" +:+ appVersion0 +:+ ".elf") /\
  args !! 19%nat = Some "-l" /\
  args !! 20%nat = Some (d +:+ ":./apps/" +:+ toLowerCase model0 +:+ "/" +:+ firmware0
                         +:+ "/" +:+ d +:+ "/app_" +:+ appVersion0 +:+ ".elf") /\
  args !! 21%nat = Some "--sdk".
Proof.
  intros Hd n args. split; [done|].
  subst args. unfold spawnArgs, dependencyArgs.
  assert (truthy (JStr d) = true) as ->.
  { simpl. apply negb_true_iff. by apply String.eqb_neq. }
  repeat split; reflexivity.
Qed.

Lemma spawnArgs_dependency_witness :
  spawnArgs "speculosID-1" 1 "nanoS" "1.6.0" "Ethereum Classic" "1.2.0" "seed" "/coinapps"
    (JStr "Ethereum") !! 20%nat =
  Some "Ethereum:./apps/nanos/1.6.0/Ethereum/app_1.2.0.elf".
Proof.
  exact (proj1 (proj2 (proj2 (proj2
    (spawnArgs_dependency (@initial unit) "nanoS" "1.6.0" "Ethereum Classic" "1.2.0"
       "seed" "/coinapps" "Ethereum" ltac:(done)))))).
Defined.

(** ** The table of instances *)

Lemma speculosID_inj (k k' : N) : speculosID k = speculosID k' -> k = k'.
Proof.
  unfold speculosID. intros H. apply String.app_inj in H. by apply (inj pretty) in H.
Qed.

Lemma speculosID_prefix (k : N) : startsWith (speculosID k) "speculosID" = true.
Proof. reflexivity. Qed.

Section registry_facts.
Context {Transport : Type}.
Implicit Types σ : state Transport.

Lemma destroy_registered (id : string) σ (obj : Device.t Transport) :
  data σ !! id = Some obj ->
  destroy id σ =
  (SettledByExec ("docker rm -f " +:+ id),
   {| idCounter := idCounter σ; data := delete id (data σ); suspended := suspended σ;
      trace := trace σ ++ [EvDelete id; removal id] |}).
Proof. unfold destroy. by intros ->. Qed.

Lemma destroy_unregistered (id : string) σ :
  data σ !! id = None -> destroy id σ = (NeverSettled, σ).
Proof. unfold destroy. by intros ->. Qed.

Lemma release_destroy (id : string) σ :
  well_formed σ -> releaseSpeculosDevice id σ = (destroy id σ).2.
Proof.
  intros (Hd & _). unfold releaseSpeculosDevice.
  destruct (data σ !! id) as [obj|] eqn:E.
  - by rewrite (Hd _ _ E).
  - by rewrite destroy_unregistered.
Qed.

Lemma well_formed_initial : well_formed (@initial Transport).
Proof.
  repeat split; simpl.
  - intros id obj. by rewrite lookup_empty.
  - intros id [[? H]|[? H]]; by rewrite lookup_empty in H.
Qed.

Lemma well_formed_destroy (id : string) σ :
  well_formed σ -> well_formed (destroy id σ).2.
Proof.
  intros (Hd & Hk & Hs). destruct (data σ !! id) as [obj|] eqn:E.
  - rewrite (destroy_registered _ _ _ E). repeat split; simpl.
    + intros i o [_ H]%lookup_delete_Some. by apply Hd.
    + intros i [[_ H]%lookup_delete_is_Some|H]; apply Hk; auto.
    + intros i [_ H]%lookup_delete_is_Some. by apply Hs.
  - by rewrite destroy_unregistered.
Qed.

Lemma well_formed_release_all (ks : list string) σ :
  well_formed σ -> well_formed (foldl (fun σ id => releaseSpeculosDevice id σ) σ ks).
Proof.
  revert σ. induction ks as [|k ks IH]; intros σ H; simpl; [done|].
  apply IH. rewrite release_destroy by done. by apply well_formed_destroy.
Qed.

Lemma well_formed_step σ (a : action) σ' :
  well_formed σ -> step σ a σ' -> well_formed σ'.
Proof.
  intros Hwf Hstep. pose proof Hwf as (Hd & Hk & Hs).
  destruct Hstep as [σ m f an av sd ca dep|σ id n t Hn|σ id Hn|σ id|σ id|σ id|σ|σ].
  - repeat split; simpl.
    + done.
    + intros i [H|H].
      * destruct (Hk i (or_introl H)) as (k & -> & ?). exists k. split; [done|lia].
      * apply lookup_insert_is_Some in H as [<-|[_ H]].
        -- eexists. split; [done|lia].
        -- destruct (Hk i (or_intror H)) as (k & -> & ?). exists k. split; [done|lia].
    + intros i H. rewrite lookup_insert_ne; [by apply Hs|].
      intros <-. destruct (Hk _ (or_introl H)) as (k & Hk1%speculosID_inj & Hk2). lia.
  - repeat split; simpl.
    + intros i o [[<- <-]|[_ H]]%lookup_insert_Some; [done|by apply Hd].
    + intros i [H|H].
      * apply lookup_insert_is_Some in H as [<-|[_ H]]; apply Hk; [right|left]; eauto.
      * apply lookup_delete_is_Some in H as [_ H]. apply Hk; auto.
    + intros i [<-|[Hne H]]%lookup_insert_is_Some.
      * apply lookup_delete_eq.
      * rewrite lookup_delete_ne by done. by apply Hs.
  - repeat split; simpl.
    + done.
    + intros i [H|[_ H]%lookup_delete_is_Some]; apply Hk; auto.
    + intros i H. apply lookup_delete_None. right. by apply Hs.
  - by apply well_formed_destroy.
  - rewrite release_destroy by done. by apply well_formed_destroy.
  - change (disconnect id σ) with (releaseSpeculosDevice id σ).
    rewrite release_destroy by done. by apply well_formed_destroy.
  - by apply well_formed_release_all.
  - repeat split; simpl; [done| |done].
    intros i H. destruct (Hk i H) as (k & -> & ?). exists k. split; [done|lia].
Qed.

Lemma well_formed_steps σ (l : list action) σ' :
  well_formed σ -> steps σ l σ' -> well_formed σ'.
Proof. intros H Hs. induction Hs; eauto using well_formed_step. Qed.

Lemma well_formed_reachable σ : reachable σ -> well_formed σ.
Proof. intros [l Hl]. eapply well_formed_steps; [apply well_formed_initial|done]. Qed.

(** A retired identifier stays retired. *)
Lemma retired_destroy (i id : string) σ : retired σ i -> retired (destroy id σ).2 i.
Proof.
  intros (Hd & Hs & Hk). destruct (data σ !! id) as [obj|] eqn:E.
  - rewrite (destroy_registered _ _ _ E). repeat split; simpl; try done.
    apply lookup_delete_None. by right.
  - by rewrite destroy_unregistered.
Qed.

Lemma retired_release (i id : string) σ :
  retired σ i -> retired (releaseSpeculosDevice id σ) i.
Proof.
  intros H. unfold releaseSpeculosDevice. destruct (data σ !! id); [|done].
  by apply retired_destroy.
Qed.

Lemma retired_release_all (i : string) (ks : list string) σ :
  retired σ i -> retired (foldl (fun σ id => releaseSpeculosDevice id σ) σ ks) i.
Proof.
  revert σ. induction ks as [|x ks IH]; intros σ Hr; simpl; [done|].
  by apply IH, retired_release.
Qed.

Lemma retired_step (i : string) σ (a : action) σ' :
  retired σ i -> step σ a σ' -> retired σ' i.
Proof.
  intros Hr Hstep. pose proof Hr as (Hd & Hs & k & -> & Hk).
  destruct Hstep as [σ m f an av sd ca dep|σ id n t Hn|σ id Hn|σ id|σ id|σ id|σ|σ].
  - repeat split; simpl; [done| |exists k; split; [done|lia]].
    rewrite lookup_insert_ne; [done|]. intros ?%speculosID_inj. lia.
  - assert (id <> speculosID k) by (intros ->; congruence).
    repeat split; simpl; [by rewrite lookup_insert_ne| |by exists k].
    apply lookup_delete_None. by right.
  - repeat split; simpl; [done| |by exists k]. apply lookup_delete_None. by right.
  - by apply retired_destroy.
  - by apply retired_release.
  - by apply retired_release.
  - by apply retired_release_all.
  - repeat split; simpl; [done|done|exists k; split; [done|lia]].
Qed.

Lemma trace_destroy (id : string) σ :
  exists evs, trace (destroy id σ).2 = trace σ ++ evs /\
    forall i, EvDelete i ∈ evs <-> i = id /\ is_Some (data σ !! id).
Proof.
  destruct (data σ !! id) as [obj|] eqn:E.
  - rewrite (destroy_registered _ _ _ E). eexists. split; [done|].
    intros i. rewrite !elem_of_cons, elem_of_nil. unfold removal. naive_solver.
  - rewrite destroy_unregistered by done. exists []. split; [by rewrite app_nil_r|].
    intros i. rewrite elem_of_nil. split; [done|]. by intros [_ [? ?]].
Qed.

Lemma trace_release (id : string) σ :
  exists evs, trace (releaseSpeculosDevice id σ) = trace σ ++ evs.
Proof.
  unfold releaseSpeculosDevice. destruct (data σ !! id) as [obj|].
  - destruct (trace_destroy (Device.destroy obj) σ) as (evs & H & _). by exists evs.
  - exists []. by rewrite app_nil_r.
Qed.

Lemma trace_release_all (ks : list string) σ :
  exists evs, trace (foldl (fun σ id => releaseSpeculosDevice id σ) σ ks) = trace σ ++ evs.
Proof.
  revert σ. induction ks as [|x ks IH]; intros σ; simpl.
  - exists []. by rewrite app_nil_r.
  - destruct (IH (releaseSpeculosDevice x σ)) as (evs2 & ->).
    destruct (trace_release x σ) as (evs1 & ->). exists (evs1 ++ evs2).
    by rewrite app_assoc.
Qed.

Lemma trace_step σ (a : action) σ' :
  step σ a σ' -> exists evs, trace σ' = trace σ ++ evs.
Proof.
  intros [σ0 m f an av sd ca dep|σ0 id n t Hn|σ0 id Hn|σ0 id|σ0 id|σ0 id|σ0|σ0].
  - by eexists.
  - by eexists.
  - exists []. by rewrite app_nil_r.
  - destruct (trace_destroy id σ0) as (evs & H & _). by exists evs.
  - apply trace_release.
  - apply trace_release.
  - apply trace_release_all.
  - exists []. by rewrite app_nil_r.
Qed.

Lemma trace_steps σ (l : list action) σ' :
  steps σ l σ' -> exists evs, trace σ' = trace σ ++ evs.
Proof.
  induction 1 as [σ|σ a σ1 l σ2 Hstep _ (evs2 & ->)].
  - exists []. by rewrite app_nil_r.
  - destruct (trace_step _ _ _ Hstep) as (evs1 & ->). exists (evs1 ++ evs2).
    by rewrite app_assoc.
Qed.

Lemma retired_steps (i : string) σ (l : list action) σ' :
  retired σ i -> steps σ l σ' -> retired σ' i.
Proof. intros H Hs. induction Hs; eauto using retired_step. Qed.

Lemma kept_refl (i : string) (obj : Device.t Transport) σ :
  data σ !! i = Some obj -> kept_or_retired i obj σ σ.
Proof.
  intros H. exists []. split; [by rewrite app_nil_r|]. left. split; [|done].
  apply not_elem_of_nil.
Qed.

Lemma kept_compose (i : string) (obj : Device.t Transport) σ σ1 σ2 :
  kept_or_retired i obj σ σ1 ->
  (data σ1 !! i = Some obj -> kept_or_retired i obj σ1 σ2) ->
  (retired σ1 i -> retired σ2 i /\ exists evs, trace σ2 = trace σ1 ++ evs) ->
  kept_or_retired i obj σ σ2.
Proof.
  intros (evs1 & Ht1 & [[Hn1 Hd1]|[Hin1 Hr1]]) Hkept Hret.
  - destruct (Hkept Hd1) as (evs2 & Ht2 & H2). exists (evs1 ++ evs2).
    split; [by rewrite Ht2, Ht1, app_assoc|].
    destruct H2 as [[Hn2 Hd2]|[Hin2 Hr2]].
    + left. split; [|done]. rewrite elem_of_app. tauto.
    + right. split; [|done]. rewrite elem_of_app. tauto.
  - destruct (Hret Hr1) as (Hr2 & evs2 & Ht2). exists (evs1 ++ evs2).
    split; [by rewrite Ht2, Ht1, app_assoc|].
    right. split; [|done]. rewrite elem_of_app. tauto.
Qed.

Lemma kept_destroy (i id : string) (obj : Device.t Transport) σ :
  well_formed σ -> data σ !! i = Some obj -> kept_or_retired i obj σ (destroy id σ).2.
Proof.
  intros (Hd & Hk & Hs) Hi. destruct (trace_destroy id σ) as (evs & Ht & Hev).
  exists evs. split; [done|]. destruct (decide (i = id)) as [->|Hne].
  - right. split; [apply Hev; eauto|].
    rewrite (destroy_registered _ _ _ Hi). repeat split; simpl.
    + apply lookup_delete_eq.
    + apply Hs; eauto.
    + apply Hk; eauto.
  - left. split; [rewrite Hev; tauto|].
    destruct (data σ !! id) as [o|] eqn:E.
    + rewrite (destroy_registered _ _ _ E). simpl. by rewrite lookup_delete_ne.
    + by rewrite destroy_unregistered.
Qed.

Lemma kept_release_all (i : string) (obj : Device.t Transport) (ks : list string) σ :
  well_formed σ -> data σ !! i = Some obj ->
  kept_or_retired i obj σ (foldl (fun σ id => releaseSpeculosDevice id σ) σ ks).
Proof.
  revert σ. induction ks as [|x ks IH]; intros σ Hwf Hi; simpl; [by apply kept_refl|].
  eapply (kept_compose _ _ _ (releaseSpeculosDevice x σ)).
  - rewrite release_destroy by done. by apply kept_destroy.
  - apply IH. rewrite release_destroy by done. by apply well_formed_destroy.
  - intros Hr. split; [by apply retired_release_all|apply trace_release_all].
Qed.

Lemma kept_step (i : string) (obj : Device.t Transport) σ (a : action) σ' :
  well_formed σ -> data σ !! i = Some obj -> step σ a σ' -> kept_or_retired i obj σ σ'.
Proof.
  intros Hwf Hi Hstep. pose proof Hwf as (Hd & Hk & Hs).
  destruct Hstep as [σ m f an av sd ca dep|σ id n t Hn|σ id Hn|σ id|σ id|σ id|σ|σ].
  - eexists. split; [done|]. left. split; [|done].
    rewrite elem_of_cons, elem_of_nil. naive_solver.
  - eexists. split; [done|]. left. split.
    + rewrite elem_of_cons, elem_of_nil. naive_solver.
    + simpl. rewrite lookup_insert_ne; [done|]. intros ->.
      rewrite Hs in Hn; [done|eauto].
  - exists []. split; [by rewrite app_nil_r|]. left. split; [apply not_elem_of_nil|done].
  - by apply kept_destroy.
  - rewrite release_destroy by done. by apply kept_destroy.
  - change (disconnect id σ) with (releaseSpeculosDevice id σ).
    rewrite release_destroy by done. by apply kept_destroy.
  - by apply kept_release_all.
  - exists []. split; [by rewrite app_nil_r|]. left. split; [apply not_elem_of_nil|done].
Qed.

Lemma kept_steps (i : string) (obj : Device.t Transport) σ (l : list action) σ' :
  well_formed σ -> data σ !! i = Some obj -> steps σ l σ' -> kept_or_retired i obj σ σ'.
Proof.
  intros Hwf Hi Hsteps. revert Hwf Hi.
  induction Hsteps as [σ|σ a σ1 l σ2 Hstep Hsteps IH]; intros Hwf Hi.
  - by apply kept_refl.
  - eapply (kept_compose _ _ _ σ1).
    + by eapply kept_step.
    + apply IH. by eapply well_formed_step.
    + intros Hr. split; [by eapply retired_steps|by eapply trace_steps].
Qed.

Lemma open_registered (id : string) (obj : Device.t Transport) σ :
  well_formed σ -> data σ !! id = Some obj -> open id σ = Resolved (Device.transport obj).
Proof.
  intros (_ & Hk & _) Hi. unfold open.
  destruct (Hk id) as (k & -> & _); [eauto|].
  by rewrite speculosID_prefix, Hi.
Qed.

Lemma open_unregistered (id : string) σ :
  startsWith id "speculosID" = true -> data σ !! id = None ->
  open id σ = Throws "speculos transport was destroyed".
Proof. unfold open. by intros -> ->. Qed.

(** C9: once [createSpeculosDevice] has stored the record of [id] with the
    transport it returns, whatever the module does next, [open] of [id]
    resolves to that transport as long as [destroy] has not deleted the
    record, and throws "speculos transport was destroyed" from then on; it
    throws the same for every identifier of an instance that has no record. *)
Theorem open_after_registration σ0 (id : string) (n : N) (transport : Transport)
    (l : list action) σ' :
  reachable σ0 -> suspended σ0 !! id = Some n ->
  steps (createSpeculosDevice_resume id n transport σ0).2 l σ' ->
  (createSpeculosDevice_resume id n transport σ0).1 = (id, transport) /\
  (exists evs,
     trace σ' = trace (createSpeculosDevice_resume id n transport σ0).2 ++ evs /\
     ((EvDelete id ∉ evs) -> open id σ' = Resolved transport) /\
     ((EvDelete id ∈ evs) -> open id σ' = Throws "speculos transport was destroyed")) /\
  (forall other, startsWith other "speculosID" = true -> data σ' !! other = None ->
     open other σ' = Throws "speculos transport was destroyed").
Proof.
  intros Hreach Hn Hsteps. split; [done|]. split; [|intros other; apply open_unregistered].
  set (σ1 := (createSpeculosDevice_resume id n transport σ0).2) in *.
  set (obj := {| Device.apduPort := apduPort n; Device.buttonPort := buttonPort n;
                 Device.automationPort := automationPort n;
                 Device.transport := transport; Device.destroy := id |}).
  assert (well_formed σ1) as Hwf1.
  { eapply well_formed_step; [by apply well_formed_reachable|].
    by apply (step_resume σ0 id n transport). }
  assert (data σ1 !! id = Some obj) as Hi by apply lookup_insert_eq.
  destruct (kept_steps id obj σ1 l σ' Hwf1 Hi Hsteps) as (evs & Ht & H).
  exists evs. split; [done|]. split.
  - intros Hnot. destruct H as [[_ Hd]|[Hin _]]; [|done].
    rewrite (open_registered id obj); [done| |done].
    by eapply well_formed_steps.
  - intros Hin. destruct H as [[Hnot _]|[_ (Hd & _ & k & -> & _)]]; [done|].
    by apply open_unregistered.
Qed.

(** C3: on a registered identifier, two calls of [destroy], each made by
    [releaseSpeculosDevice], by [disconnect] or by the handler of the close
    of the process, make exactly one removal of the container: the first
    deletes the record and then starts the removal; the second finds no
    record, does nothing and returns. *)
Theorem destroy_twice σ (id : string)
    (call1 call2 : string -> state Transport -> state Transport) :
  reachable σ -> is_Some (data σ !! id) ->
  call1 ∈ destroy_calls -> call2 ∈ destroy_calls ->
  let σ1 := call1 id σ in
  let σ2 := call2 id σ1 in
  trace σ1 = trace σ ++ [EvDelete id; removal id] /\
  data σ1 !! id = None /\
  σ2 = σ1 /\
  removals id (trace σ2) = S (removals id (trace σ)).
Proof.
  intros Hreach [obj Hi] Hc1 Hc2 σ1 σ2.
  pose proof (well_formed_reachable _ Hreach) as Hwf.
  assert (forall call σ0, call ∈ @destroy_calls Transport -> well_formed σ0 ->
            call id σ0 = (destroy id σ0).2) as Hcall.
  { intros call σ0 Hc Hwf0. unfold destroy_calls in Hc.
    rewrite !elem_of_cons, elem_of_nil in Hc. destruct Hc as [->|[->|[->|[]]]].
    - by apply release_destroy.
    - change (disconnect id σ0) with (releaseSpeculosDevice id σ0).
      by apply release_destroy.
    - done. }
  assert (σ1 = {| idCounter := idCounter σ; data := delete id (data σ);
                  suspended := suspended σ;
                  trace := trace σ ++ [EvDelete id; removal id] |}) as H1.
  { unfold σ1. rewrite Hcall by done. by rewrite (destroy_registered _ _ _ Hi). }
  assert (data σ1 !! id = None) as Hnone.
  { rewrite H1. simpl. apply lookup_delete_eq. }
  assert (σ2 = σ1) as H2.
  { unfold σ2. rewrite Hcall; [by rewrite destroy_unregistered|done|].
    unfold σ1. rewrite Hcall by done. by apply well_formed_destroy. }
  repeat split.
  - by rewrite H1.
  - done.
  - done.
  - rewrite H2, H1. cbn [trace]. unfold removals.
    rewrite List.filter_app, length_app.
    cbn [List.filter]. rewrite bool_decide_eq_false_2 by (by unfold removal).
    rewrite bool_decide_eq_true_2 by done. cbn [length]. lia.
Qed.
End registry_facts.

Lemma open_after_registration_witness :
  open (speculosID 1) demo_registered = Resolved 7%nat /\
  open (speculosID 1) (releaseSpeculosDevice (speculosID 1) demo_registered)
  = Throws "speculos transport was destroyed".
Proof.
  assert (reachable demo_spawned) as Hreach.
  { exists [Create "nanoS" "1.6.0" "bitcoin" "1.3.1" "seed" "/coinapps" JUndefined].
    eapply steps_cons; [apply step_create|apply steps_nil]. }
  assert (suspended demo_spawned !! speculosID 1 = Some 1%N) as Hsusp
    by apply lookup_insert_eq.
  split.
  - destruct (open_after_registration demo_spawned (speculosID 1) 1 7%nat []
                demo_registered Hreach Hsusp (steps_nil _)) as (_ & (evs & Ht & Hkeep & _) & _).
    apply Hkeep. rewrite <- (app_nil_r (trace _)) in Ht at 1.
    apply app_inv_head in Ht as <-. apply not_elem_of_nil.
  - destruct (open_after_registration demo_spawned (speculosID 1) 1 7%nat
                [Release (speculosID 1)]
                (releaseSpeculosDevice (speculosID 1) demo_registered) Hreach Hsusp)
      as (_ & (evs & Ht & _ & Hgone) & _).
    { eapply steps_cons; [apply step_release|apply steps_nil]. }
    apply Hgone.
    assert (trace (releaseSpeculosDevice (speculosID 1) demo_registered)
            = trace demo_registered ++ [EvDelete (speculosID 1); removal (speculosID 1)])
      as Ht'.
    { unfold releaseSpeculosDevice, demo_registered, createSpeculosDevice_resume.
      cbn [data snd]. rewrite lookup_insert_eq. cbn [Device.destroy].
      unfold destroy. cbn [data]. by rewrite lookup_insert_eq. }
    rewrite Ht' in Ht. apply app_inv_head in Ht as <-. apply elem_of_cons. by left.
Defined.

Lemma destroy_twice_witness :
  (destroy (speculosID 1) (releaseSpeculosDevice (speculosID 1) demo_registered)).2
  = releaseSpeculosDevice (speculosID 1) demo_registered /\
  trace (releaseSpeculosDevice (speculosID 1) demo_registered)
  = trace demo_registered ++ [EvDelete (speculosID 1); removal (speculosID 1)].
Proof.
  assert (reachable demo_registered) as Hreach.
  { exists [Create "nanoS" "1.6.0" "bitcoin" "1.3.1" "seed" "/coinapps" JUndefined;
            Resume (speculosID 1) 7%nat].
    eapply steps_cons; [apply step_create|].
    eapply steps_cons; [|apply steps_nil].
    apply (step_resume _ (speculosID 1) 1 7%nat). apply lookup_insert_eq. }
  assert (is_Some (data demo_registered !! speculosID 1)) as Hreg.
  { eexists. apply lookup_insert_eq. }
  destruct (destroy_twice demo_registered (speculosID 1) releaseSpeculosDevice
              (fun id σ => (destroy id σ).2) Hreach Hreg)
    as (Ht & _ & H2 & _).
  - by left.
  - right. right. by left.
  - split; [exact H2|exact Ht].
Defined.

(** * Further properties *)

(** ** Strings *)

Lemma split_parts_no_char (c : ascii) (s : string) :
  Forall (fun p => no_char c p = true) (split c s).
Proof.
  induction s as [|a s IH]; simpl; [by repeat constructor|].
  destruct (Ascii.eqb a c) eqn:E; [by constructor|].
  destruct (split c s) as [|h r]; [by repeat constructor; unfold no_char; simpl; rewrite E|].
  apply Forall_cons in IH as [Hh Hr]. constructor; [|done].
  unfold no_char in *. simpl. by rewrite E, Hh.
Qed.

Lemma no_char_app (c : ascii) (a b : string) :
  no_char c (a +:+ b) = no_char c a && no_char c b.
Proof. apply all_chars_app. Qed.

Lemma no_char_join (c : ascii) (sep : string) (l : list string) :
  no_char c sep = true -> Forall (fun p => no_char c p = true) l ->
  no_char c (join sep l) = true.
Proof.
  intros Hsep. induction 1 as [|x [|y r] Hx _ IH]; [done..|].
  rewrite join_cons2, !no_char_app, Hx, Hsep. by rewrite IH.
Qed.

Lemma nonempty_Forall (P : string -> Prop) (l : list string) :
  Forall P l -> Forall (fun s => P s /\ String.eqb s "" = false) (nonempty l).
Proof.
  unfold nonempty. induction 1 as [|x l Hx _ IH]; simpl; [constructor|].
  destruct (String.eqb x "") eqn:E; simpl; [done|]. by constructor.
Qed.

Lemma nonempty_length (l : list string) : (length (nonempty l) <= length l)%nat.
Proof. unfold nonempty. apply filter_length_le. Qed.

(** What [hackBadSemver] joins: at most three fields without a dot. *)
Lemma hackBadSemver_fields (str : string) :
  exists fields,
    hackBadSemver str = join "." fields /\ (length fields <= 3)%nat /\
    Forall (fun f => no_char "." f = true /\ String.eqb f "" = false) fields.
Proof.
  pose proof (split_parts_no_char "." str) as HP.
  pose proof (hackBadSemver_of_parts _ (split_not_nil "." str) HP) as H.
  rewrite join_split in H.
  destruct (split "." str) as [|x [|y [|z [|r rest]]]] eqn:E.
  - by apply split_not_nil in E.
  - exists (nonempty [x]). split; [done|].
    split; [etrans; [apply (nonempty_length [x])|simpl; lia]|].
    by apply nonempty_Forall.
  - exists (nonempty [x; y]). split; [done|].
    split; [etrans; [apply (nonempty_length [x; y])|simpl; lia]|].
    by apply nonempty_Forall.
  - exists (nonempty [x; y; z]). split; [done|].
    split; [apply (nonempty_length [x; y; z])|]. by apply nonempty_Forall.
  - exists (nonempty [x; y; z +:+ "-" +:+ join "-" (r :: rest)]). split; [done|].
    split; [apply (nonempty_length [x; y; _])|]. apply nonempty_Forall.
    apply Forall_cons in HP as [Hx HP]. apply Forall_cons in HP as [Hy HP].
    apply Forall_cons in HP as [Hz HP].
    repeat (constructor; [done|]). constructor; [|done].
    rewrite !no_char_app, Hz. by rewrite (no_char_join "." "-" (r :: rest)).
Qed.

(** X1: normalizing is idempotent, and a normalized string has at most three
    dot-separated fields. *)
Theorem hackBadSemver_idempotent (str : string) :
  hackBadSemver (hackBadSemver str) = hackBadSemver str /\
  (length (split "." (hackBadSemver str)) <= 3)%nat.
Proof.
  destruct (hackBadSemver_fields str) as (fields & -> & Hlen & HF).
  destruct fields as [|f fields]; [by split; [|simpl; lia]|].
  assert (Forall (fun s => no_char "." s = true) (f :: fields)) as Hdots.
  { eapply Forall_impl; [apply HF|]. by intros s [? _]. }
  split.
  - rewrite (hackBadSemver_of_parts (f :: fields)) by done.
    assert (nonempty (f :: fields) = f :: fields) as Hne.
    { apply nonempty_all. eapply Forall_impl; [apply HF|]. by intros s [_ ?]. }
    destruct fields as [|g [|h [|i fields]]]; try by rewrite Hne.
    simpl in Hlen. lia.
  - by rewrite split_join.
Qed.

Lemma prefix_app (p s : string) :
  String.prefix p s = true <-> exists t, s = p +:+ t.
Proof.
  revert s. induction p as [|a p IH]; intros s.
  - destruct s; simpl; split; eauto.
  - destruct s as [|b s]; simpl; [split; [done|by intros [t ?]]|].
    destruct (ascii_dec a b) as [->|Hne].
    + rewrite IH. split; intros [t Ht]; exists t.
      * rewrite append_cons. by f_equal.
      * rewrite append_cons in Ht. by simplify_eq.
    + split; [done|]. intros [t Ht]. rewrite append_cons in Ht. by simplify_eq.
Qed.

Lemma rev_app_append (s acc : string) :
  String.rev_app s acc = String.rev_app s "" +:+ acc.
Proof.
  revert acc. induction s as [|a s IH]; intros acc; simpl; [done|].
  rewrite (IH (String a acc)), (IH (String a "")). by rewrite append_assoc.
Qed.

Lemma rev_cons (a : ascii) (s : string) :
  String.rev (String a s) = String.rev s +:+ String a "".
Proof. unfold String.rev. simpl. apply rev_app_append. Qed.

Lemma rev_append (a b : string) : String.rev (a +:+ b) = String.rev b +:+ String.rev a.
Proof.
  induction a as [|x a IH].
  - change ("" +:+ b) with b. by rewrite append_empty_r.
  - rewrite append_cons, !rev_cons, IH. by rewrite append_assoc.
Qed.

Lemma rev_involutive (s : string) : String.rev (String.rev s) = s.
Proof.
  induction s as [|a s IH]; [done|].
  rewrite rev_cons, rev_append, IH. done.
Qed.

Lemma startsWith_app (s p : string) : startsWith s p = true <-> exists t, s = p +:+ t.
Proof. apply prefix_app. Qed.

Lemma endsWith_app (s p : string) : endsWith s p = true <-> exists t, s = t +:+ p.
Proof.
  unfold endsWith. rewrite prefix_app. split.
  - intros [t Ht]. exists (String.rev t).
    rewrite <- (rev_involutive s), Ht, rev_append. by rewrite rev_involutive.
  - intros [t ->]. exists (String.rev t). apply rev_append.
Qed.

Lemma substring_0_app (v u : string) : String.substring 0 (String.length v) (v +:+ u) = v.
Proof.
  induction v as [|a v IH]; simpl.
  - by destruct u.
  - by rewrite IH.
Qed.

Lemma elf_version_app (v : string) : elf_version ("app_" +:+ v +:+ ".elf") = v.
Proof.
  unfold elf_version, slice.
  replace (String.length ("app_" +:+ v +:+ ".elf") - 4 - 4)%nat with (String.length v).
  - apply (substring_0_app v ".elf").
  - rewrite !length_append. simpl. lia.
Qed.

Lemma elf_named_iff (elf : string) :
  elf_named elf = true <-> exists w, elf = "app_" +:+ w +:+ ".elf".
Proof.
  unfold elf_named. rewrite andb_true_iff, startsWith_app, endsWith_app. split.
  - intros [[t Ht] [w Hw]]. rewrite Hw in Ht.
    destruct w as [|a [|b [|c [|d w]]]];
      try (rewrite ?append_cons in Ht; by simplify_eq).
    exists w. rewrite !append_cons in Ht. by simplify_eq.
  - intros [w ->]. split; [by eexists|].
    exists ("app_" +:+ w). by rewrite append_assoc.
Qed.

(** X2: the file names the scan keeps are the names [app_<version>.elf], and
    the version read from such a name is what stands between [app_] and
    [.elf], whatever it is. *)
Theorem elf_name_version (elf v : string) :
  (elf_named elf = true <-> exists w, elf = "app_" +:+ w +:+ ".elf") /\
  elf_named ("app_" +:+ v +:+ ".elf") = true /\
  elf_version ("app_" +:+ v +:+ ".elf") = v.
Proof.
  split; [apply elf_named_iff|].
  split; [apply elf_named_iff; by eexists|apply elf_version_app].
Qed.

(** ** More on the scan *)

(** X3: of the names listed under the root, the scan visits those that are,
    whatever their case, nanos, nanox or blue, or a key the priority table
    inherits (constructor, __proto__), each as often as it is listed; picking
    them never fails, and they come by descending priority when none of them
    is an inherited key. *)
Theorem sortedModels_known (names : list string) :
  exists models,
    sortedModels names = Ok models /\
    Permutation models (List.filter kept_model names) /\
    (Forall (fun m => inherited_model m = false) models ->
     StronglySorted priority_desc models).
Proof. apply sortedModels_Ok. Qed.

Lemma construct_iff (s : string) :
  is_Some (semver.construct s) <->
  (String.length s <= semver.MAX_LENGTH)%nat /\ semver.valid (semver.trim s) = true.
Proof.
  unfold semver.construct, semver.valid.
  destruct (Nat.ltb_spec semver.MAX_LENGTH (String.length s)) as [H|H].
  - split; [by intros [? ?]|lia].
  - rewrite bool_decide_eq_true. naive_solver.
Qed.

(** X4: ordering the firmware directories of a model returns exactly when
    there is at most one of them or every name normalizes to a string of at
    most 256 characters that is, once trimmed, a semantic version; it then
    gives a rearrangement of the names, and otherwise throws the error of
    [semver.compare]. *)
Theorem sortedFirmwares_returns (firmwares : list string) :
  (is_Ok (sortedFirmwares firmwares) <->
     (length firmwares <= 1)%nat \/
     Forall (fun f => (String.length (hackBadSemver f) <= semver.MAX_LENGTH)%nat /\
                      semver.valid (semver.trim (hackBadSemver f)) = true) firmwares) /\
  (forall sorted, sortedFirmwares firmwares = Ok sorted -> Permutation sorted firmwares) /\
  (forall e, sortedFirmwares firmwares = Err e -> e = InvalidVersion).
Proof.
  destruct (sortedFirmwares_outcome firmwares) as (H1 & H2 & H3).
  split; [|by split]. rewrite H1. apply or_iff_compat_l.
  rewrite !Forall_forall. by setoid_rewrite construct_iff.
Qed.

Lemma listAppCandidates_scanned (path_join : string -> string -> string)
    (readdir : string -> option (list string)) (cwd : string)
    (cs : list AppCandidate) (c : AppCandidate) :
  listAppCandidates path_join readdir cwd = Ok cs -> c ∈ cs ->
  scanned path_join readdir cwd c /\
  model c ∈ device_models ++ inherited_models /\
  (forall names, readdir cwd = Some names ->
     Forall (fun n => inherited_model n = false) names -> model c ∈ device_models) /\
  semver.valid (appVersion c) = true.
Proof.
  unfold listAppCandidates. intros H Hc.
  destruct (fsp_readdir readdir cwd) as [names|] eqn:Hcwd; simpl in H; [|done].
  apply fsp_readdir_Ok in Hcwd.
  destruct (sortedModels names) as [models|] eqn:Hm; simpl in H; [|done].
  destruct (for_concat_elem _ _ _ _ H Hc) as (m & b1 & Hm1 & Hb1 & Hc1).
  apply (sortedModels_elem names models m Hm) in Hm1 as [Hnames Hkept]. clear H Hc Hm.
  unfold modelCandidates in Hb1.
  destruct (fsp_readdir readdir (path_join cwd m)) as [fws|] eqn:Hp1; simpl in Hb1; [|done].
  apply fsp_readdir_Ok in Hp1.
  destruct (sortedFirmwares fws) as [fws'|] eqn:Hs; simpl in Hb1; [|done].
  apply sortedFirmwares_inv in Hs as [Hs _].
  destruct (for_concat_elem _ _ _ _ Hb1 Hc1) as (fw & b2 & Hfw & Hb2 & Hc2).
  rewrite Hs in Hfw. clear Hb1 Hc1 Hs.
  unfold firmwareCandidates in Hb2.
  destruct (fsp_readdir readdir (path_join (path_join cwd m) fw)) as [apps|] eqn:Hp2;
    simpl in Hb2; [|done].
  apply fsp_readdir_Ok in Hp2.
  destruct (for_concat_elem _ _ _ _ Hb2 Hc2) as (app & b3 & Happ & Hb3 & Hc3).
  clear Hb2 Hc2.
  apply appCandidates_inv in Hb3 as (elfs & Hp3 & Hperm & _).
  rewrite Hperm in Hc3.
  apply list_elem_of_omap in Hc3 as (elf & Helf & Hsome).
  apply elfCandidate_Some in Hsome as (Hnamed & Hvalid & ->).
  apply elf_named_iff in Hnamed as [w ->].
  fold (elf_version ("app_" +:+ w +:+ ".elf")) in *. rewrite (elf_version_app w) in *.
  destruct (modelMap_get_kept m Hkept) as [Hmodel Hdev].
  split; [|split; [done|split; [|done]]].
  - exists m, names, fws, apps, elfs. simpl. by repeat split.
  - intros names' Hn' Hno. simpl. simplify_eq. apply Hdev.
    rewrite Forall_forall in Hno. by apply Hno.
Qed.

(** X5: every candidate of a scan stands for a binary of the tree: its
    model directory, a name that is kept, its firmware, application and file
    [app_<version>.elf] are listed one under the other below the root, its
    path joins them, and its version is a semantic version.  Its model is
    nanoS, nanoX or blue, or for a model directory named by an inherited
    key the object that [modelMap] inherits; it is one of the three when the
    root lists no such name. *)
Theorem listAppCandidates_sound (path_join : string -> string -> string)
    (readdir : string -> option (list string)) (cwd : string)
    (cs : list AppCandidate) (c : AppCandidate) :
  listAppCandidates path_join readdir cwd = Ok cs -> c ∈ cs ->
  scanned path_join readdir cwd c /\
  model c ∈ device_models ++ inherited_models /\
  (forall names, readdir cwd = Some names ->
     Forall (fun n => inherited_model n = false) names -> model c ∈ device_models) /\
  semver.valid (appVersion c) = true.
Proof. apply listAppCandidates_scanned. Qed.

Lemma listAppCandidates_sound_witness :
  scanned fixture_join (fixture_readdir ["1.6.0"; "2.0.0"]) "apps"
    (fixture_candidate "nanox" "nanoX" "1.6.0" "1.2.0").
Proof.
  refine (proj1 (listAppCandidates_sound fixture_join (fixture_readdir ["1.6.0"; "2.0.0"])
                   "apps" _ (fixture_candidate "nanox" "nanoX" "1.6.0" "1.2.0") _ _)).
  - by vm_compute.
  - rewrite !elem_of_cons. do 7 right. by left.
Defined.



(** X7: when the root cannot be listed the scan rejects with the root's path;
    when the root lists no name that is kept (none that is, whatever its
    case, nanos, nanox, blue, constructor or __proto__) the scan returns no
    candidate, without reading anything else. *)
Theorem listAppCandidates_root (path_join : string -> string -> string)
    (readdir : string -> option (list string)) (cwd : string) (names : list string) :
  (readdir cwd = None ->
   listAppCandidates path_join readdir cwd = Err (ScanFailure cwd)) /\
  (readdir cwd = Some names -> Forall (fun m => kept_model m = false) names ->
   listAppCandidates path_join readdir cwd = Ok []).
Proof.
  unfold listAppCandidates, fsp_readdir. split.
  - by intros ->.
  - intros -> Hall. simpl.
    destruct (sortedModels_Ok names) as (models & -> & Hperm & _). simpl.
    assert (List.filter kept_model names = []) as Hnil.
    { clear Hperm. induction Hall as [|n ns Hn _ IH]; simpl; [done|]. by rewrite Hn. }
    rewrite Hnil in Hperm. apply Permutation_nil_r in Hperm. by subst.
Qed.

Lemma listAppCandidates_root_witness :
  listAppCandidates fixture_join (fun _ => None) "apps" = Err (ScanFailure "apps") /\
  listAppCandidates fixture_join (fun _ => Some ["README.md"; "nano"]) "apps" = Ok [].
Proof.
  split.
  - by apply (listAppCandidates_root fixture_join (fun _ => None) "apps" []).
  - apply (listAppCandidates_root fixture_join (fun _ => Some ["README.md"; "nano"]) "apps"
             ["README.md"; "nano"]); [done|by repeat constructor].
Defined.

Lemma comparePrereleases_refl (p : list semver.identifier) :
  semver.comparePrereleases p p = Eq.
Proof. induction p as [|a p IH]; simpl; [done|]. by rewrite decide_True. Qed.

Lemma compare_versions_refl (v : semver.SemVer) : semver.compare_versions v v = Eq.
Proof.
  unfold semver.compare_versions, semver.compareMain, semver.comparePre.
  rewrite !N.compare_refl. simpl.
  destruct (semver.prerelease v) as [|a p] eqn:E; [done|].
  apply (comparePrereleases_refl (a :: p)).
Qed.

Lemma version_le_refl (v : string) : semver.valid v = true -> version_le v v.
Proof.
  intros [Hc [sv Hsv]]%construct_valid. rewrite Hsv in Hc.
  apply version_le_iff. exists sv, sv. repeat split; try done.
  by rewrite compare_versions_refl.
Qed.

(** X8: among the candidates of one application directory, whose versions
    have no numeric prerelease identifier of 2^53 or more, the one that
    [findAppCandidate] gives for a search has the highest version of those
    that match it. *)
Theorem findAppCandidate_highest (path_join : string -> string -> string)
    (readdir : string -> option (list string))
    (semver_satisfies : string -> string -> bool) (p2 : string) (m : jsval)
    (fw app : string) (cs : list AppCandidate) (s : gmap string jsval)
    (found : AppCandidate) :
  appCandidates path_join readdir p2 m fw app = Ok cs ->
  Forall (fun c => precise (appVersion c)) cs ->
  findAppCandidate semver_satisfies cs s = Some found ->
  found ∈ cs /\ appCandidatesMatches semver_satisfies found s = true /\
  forall c, c ∈ cs -> appCandidatesMatches semver_satisfies c s = true ->
    version_le (appVersion c) (appVersion found).
Proof.
  intros Hcs Hprecise Hfind.
  apply (find_first (fun x => appCandidatesMatches semver_satisfies x s)) in Hfind
    as (l1 & l2 & -> & Hmatch & Hl1).
  split; [apply elem_of_app; right; by left|]. split; [done|].
  apply appCandidates_inv in Hcs as (elfs & Hrd & Hperm & Hsorted).
  specialize (Hsorted Hprecise).
  pose proof (elfCandidates_valid path_join (path_join p2 app) m fw app elfs) as Hvalid.
  rewrite <- Hperm in Hvalid. rewrite Forall_forall in Hvalid, Hl1.
  apply StronglySorted_app in Hsorted as (_ & _ & Hsorted).
  apply StronglySorted_cons in Hsorted as [Hfound _]. rewrite Forall_forall in Hfound.
  intros c Hc Hc'. apply elem_of_app in Hc as [Hc|Hc].
  - rewrite (Hl1 _ Hc) in Hc'. done.
  - apply elem_of_cons in Hc as [->|Hc]; [|by apply Hfound].
    apply version_le_refl. apply Hvalid. apply elem_of_app. right. by left.
Qed.

Lemma findAppCandidate_highest_witness :
  findAppCandidate (fun _ _ => true)
    [fixture_candidate "nanos" "nanoS" "2.0.0" "1.3.1";
     fixture_candidate "nanos" "nanoS" "2.0.0" "1.2.0"] ∅
  = Some (fixture_candidate "nanos" "nanoS" "2.0.0" "1.3.1") /\
  version_le "1.2.0" "1.3.1".
Proof.
  split; [done|].
  refine (proj2 (proj2 (findAppCandidate_highest fixture_join
            (fixture_readdir ["2.0.0"]) (fun _ _ => true) "apps/nanos/2.0.0" (JStr "nanoS")
            "2.0.0" "bitcoin" _ ∅ (fixture_candidate "nanos" "nanoS" "2.0.0" "1.3.1")
            _ _ _)) (fixture_candidate "nanos" "nanoS" "2.0.0" "1.2.0") _ _).
  - by vm_compute.
  - repeat constructor; intros v Hv; vm_compute in Hv; by simplify_eq.
  - done.
  - rewrite !elem_of_cons. right. by left.
  - done.
Defined.

(** ** More on the query parser *)

Lemma or_empty_JStr (s : string) : or_empty (JStr s) = s.
Proof. unfold or_empty. simpl. by destruct (String.eqb_spec s "") as [->|]. Qed.

Lemma in_models_truthy (v : jsval) : v ∈ device_models ++ inherited_models -> truthy v = true.
Proof.
  unfold device_models, inherited_models. simpl.
  rewrite !elem_of_cons, elem_of_nil. by intros [->|[->|[->|[->|[->|[]]]]]].
Qed.

(** X9: [eatDevice] looks at the text of the first segment before its first
    [@]: when it is, whatever its case, nanos, nanox or blue, or a key that
    [modelMap] inherits (constructor, __proto__), the segment is taken off,
    the model is what [modelMap] has under that name in lower case, a device
    or for an inherited key the inherited object, and the firmware is the
    text up to the next [@] if it is not empty; otherwise nothing is taken and
    nothing is constrained. *)
Theorem eatDevice_segment (alias : string) (ats tl : list string) :
  Forall (fun s => no_char "@" s = true) (alias :: ats) ->
  eatDevice (join "@" (alias :: ats) :: tl) =
    (if kept_model alias
     then (modelMap_get (toLowerCase alias), or_undefined (js_index ats 0), tl)
     else (JUndefined, JUndefined, join "@" (alias :: ats) :: tl)) /\
  (known_model alias = true -> modelMap_get (toLowerCase alias) ∈ device_models) /\
  (inherited_model alias = true -> modelMap_get (toLowerCase alias) ∈ inherited_models).
Proof.
  intros Hat. split; [|split].
  - unfold eatDevice. rewrite (split_join "@" (alias :: ats)) by done.
    change (js_index (alias :: ats) 0) with (JStr alias).
    change (js_index (alias :: ats) 1) with (js_index ats 0).
    rewrite or_empty_JStr, modelMap_get_truthy.
    destruct (kept_model alias); [|done].
    unfold or_undefined. by destruct (truthy (js_index ats 0)).
  - destruct (model_key_table alias) as [(_ & _ & H & _)|[(-> & _)|(-> & _)]]; done.
  - destruct (model_key_table alias) as [(_ & -> & _)|[(_ & _ & H & _)|(_ & -> & _)]]; done.
Qed.

Lemma eatDevice_segment_witness :
  eatDevice ["NanoS@1.6.0"; "bitcoin"] = (JStr "nanoS", JStr "1.6.0", ["bitcoin"]) /\
  eatDevice ["nanox@"; "bitcoin"] = (JStr "nanoX", JUndefined, ["bitcoin"]) /\
  eatDevice ["bitcoin@1.3.x"] = (JUndefined, JUndefined, ["bitcoin@1.3.x"]) /\
  eatDevice ["Constructor"; "bitcoin"] = (JObject ObjectFunction, JUndefined, ["bitcoin"]).
Proof.
  split; [|split; [|split]].
  - exact (proj1 (eatDevice_segment "NanoS" ["1.6.0"] ["bitcoin"]
                    ltac:(by repeat constructor))).
  - exact (proj1 (eatDevice_segment "nanox" [""] ["bitcoin"]
                    ltac:(by repeat constructor))).
  - exact (proj1 (eatDevice_segment "bitcoin" ["1.3.x"] []
                    ltac:(by repeat constructor))).
  - exact (proj1 (eatDevice_segment "Constructor" [] ["bitcoin"]
                    ltac:(by repeat constructor))).
Defined.

Lemma eatDevice_shape (parts : list string) :
  let '(m, f, rest) := eatDevice parts in
  ((m = JUndefined /\ f = JUndefined /\ rest = parts) \/
   (m ∈ device_models ++ inherited_models /\ (f = JUndefined \/ truthy f = true)
    /\ exists p0, parts = p0 :: rest
         /\ kept_model (hd "" (split "@" p0)) = true)).
Proof.
  unfold eatDevice. destruct parts as [|p0 tl]; [by left|].
  pose proof (split_not_nil "@" p0) as Hne.
  destruct (split "@" p0) as [|h sp] eqn:E; [done|].
  change (js_index (h :: sp) 0) with (JStr h). rewrite or_empty_JStr.
  destruct (truthy (modelMap_get (toLowerCase h))) eqn:Hm; [|by left].
  assert (kept_model h = true) as Hk by by rewrite <- modelMap_get_truthy.
  assert (modelMap_get (toLowerCase h) ∈ device_models ++ inherited_models) as Hin
    by by apply modelMap_get_kept.
  destruct (truthy (js_index (h :: sp) 1)) eqn:Hf; right.
  - split; [done|]. split; [by right|]. exists p0. by rewrite E.
  - split; [done|]. split; [by left|]. exists p0. by rewrite E.
Qed.

Lemma split_singleton (c : ascii) (s p : string) :
  split c s = [p] -> no_char c s = true.
Proof.
  unfold no_char. revert p. induction s as [|a s IH]; intros p; simpl; [done|].
  destruct (Ascii.eqb a c) eqn:E.
  - intros H. pose proof (split_not_nil c s). by simplify_eq.
  - pose proof (split_not_nil c s) as Hne.
    destruct (split c s) as [|h [|h' r]] eqn:Hs; [done| |done].
    intros _. simpl. by apply (IH h).
Qed.

(** X10: the parser gives nothing exactly when what follows the nine
    characters of the prefix has no colon and starts, up to its first [@],
    with a name that [eatDevice] takes for a model (nanos, nanox, blue,
    constructor or __proto__, whatever the case): a query that names a device
    and no application. *)
Theorem parseAppSearch_absent
    (findCryptoCurrencyByKeyword : string -> option CryptoCurrency)
    (getDependencies : string -> list string) (query : string) :
  parseAppSearch findCryptoCurrencyByKeyword getDependencies query = None <->
  no_char ":" (slice_from query 9) = true /\
  kept_model (hd "" (split "@" (slice_from query 9))) = true.
Proof.
  unfold parseAppSearch. generalize (slice_from query 9). intros rest.
  pose proof (eatDevice_shape (split ":" rest)) as Hshape.
  pose proof (split_not_nil ":" rest) as Hne.
  destruct (eatDevice (split ":" rest)) as [[m f] parts] eqn:E.
  destruct Hshape as [(-> & -> & ->)|(Hm & Hf & p0 & Hp0 & Hk)].
  - destruct (split ":" rest) as [|p0 tl] eqn:Hs; [done|].
    pose proof (split_not_nil "@" p0) as Hne'.
    destruct (split "@" p0) as [|nameQ sp] eqn:Hsp; [done|].
    split; [done|]. intros [Hnc Hk]. exfalso.
    rewrite (split_no_char _ _ Hnc) in Hs. simplify_eq.
    unfold eatDevice in E. rewrite Hsp in E, Hk.
    change (js_index (nameQ :: sp) 0) with (JStr nameQ) in E.
    rewrite or_empty_JStr, modelMap_get_truthy in E. simpl in Hk.
    rewrite Hk in E.
    destruct (truthy (js_index (nameQ :: sp) 1)); simplify_eq.
  - destruct parts as [|p1 tl].
    + split; [|done]. intros _. split; [by eapply split_singleton|].
      rewrite (split_no_char ":" rest) in Hp0 by by eapply split_singleton.
      by simplify_eq.
    + pose proof (split_not_nil "@" p1) as Hne'.
      destruct (split "@" p1) as [|nameQ sp] eqn:Hsp; [done|].
      split; [done|]. intros [Hnc _]. by rewrite (split_no_char _ _ Hnc) in Hp0.
Qed.

Lemma prop_search (m f n v : jsval) :
  let s : gmap string jsval :=
    {[ "model" := m; "firmware" := f; "appName" := n; "version" := v ]} in
  prop s "model" = m /\ prop s "firmware" = f /\ prop s "appName" = n /\
  prop s "version" = v /\ prop s "appVersion" = JUndefined.
Proof.
  unfold prop. split; [|split; [|split; [|split]]].
  - by rewrite lookup_insert_eq.
  - rewrite lookup_insert_ne by done. by rewrite lookup_insert_eq.
  - do 2 (rewrite lookup_insert_ne by done). by rewrite lookup_insert_eq.
  - do 3 (rewrite lookup_insert_ne by done). by rewrite lookup_singleton_eq.
  - do 3 (rewrite lookup_insert_ne by done). by rewrite lookup_singleton_ne.
Qed.

Lemma parseAppSearch_fields
    (findCryptoCurrencyByKeyword : string -> option CryptoCurrency)
    (getDependencies : string -> list string) (query : string) (q : ParsedQuery) :
  parseAppSearch findCryptoCurrencyByKeyword getDependencies query = Some q ->
  prop (search q) "appName" = JStr (parsed_appName q) /\
  prop (search q) "appVersion" = JUndefined /\
  (prop (search q) "model" = JUndefined \/
   prop (search q) "model" ∈ device_models ++ inherited_models) /\
  (prop (search q) "model" = JUndefined -> prop (search q) "firmware" = JUndefined) /\
  (dependency q <> JUndefined ->
   exists keyword currency,
     findCryptoCurrencyByKeyword keyword = Some currency /\
     parsed_appName q = managerAppName currency /\
     dependency q = js_index (getDependencies (managerAppName currency)) 0).
Proof.
  unfold parseAppSearch. set (rest := slice_from query 9).
  pose proof (eatDevice_shape (split ":" rest)) as Hshape.
  destruct (eatDevice (split ":" rest)) as [[m f] parts].
  destruct parts as [|p0 tl]; [done|].
  destruct (split "@" p0) as [|nameQ sp]; [done|].
  intros [= <-]. cbn [search parsed_appName dependency].
  match goal with
  | |- context [ {[ "model" := m; "firmware" := f; "appName" := ?n; "version" := ?v ]} ] =>
      destruct (prop_search m f n v) as (Hpm & Hpf & Hpn & _ & Hpv)
  end.
  rewrite Hpm, Hpf, Hpn, Hpv. repeat split.
  - destruct Hshape as [(-> & _)|(Hm & _)]; [by left|by right].
  - intros ->. destruct Hshape as [(_ & -> & _)|(Hm & _)]; [done|].
    by apply in_models_truthy in Hm.
  - destruct (findCryptoCurrencyByKeyword nameQ) as [c|] eqn:Hc; [|done].
    intros _. by exists nameQ, c.
Qed.

(** X11: whatever the query, the search of a parsed query constrains the
    application name to the name returned, never constrains [appVersion],
    has for model nothing, one of the three devices or one of the two objects
    that [modelMap] inherits, has a firmware only with a model; and a
    dependency is only given for a currency keyword, as the first dependency
    of the application of that currency. *)
Theorem parseAppSearch_result
    (findCryptoCurrencyByKeyword : string -> option CryptoCurrency)
    (getDependencies : string -> list string) (query : string) (q : ParsedQuery) :
  parseAppSearch findCryptoCurrencyByKeyword getDependencies query = Some q ->
  prop (search q) "appName" = JStr (parsed_appName q) /\
  prop (search q) "appVersion" = JUndefined /\
  (prop (search q) "model" = JUndefined \/
   prop (search q) "model" ∈ device_models ++ inherited_models) /\
  (prop (search q) "model" = JUndefined -> prop (search q) "firmware" = JUndefined) /\
  (dependency q <> JUndefined ->
   exists keyword currency,
     findCryptoCurrencyByKeyword keyword = Some currency /\
     parsed_appName q = managerAppName currency /\
     dependency q = js_index (getDependencies (managerAppName currency)) 0).
Proof. apply parseAppSearch_fields. Qed.

Lemma parseAppSearch_result_witness :
  exists q,
    parseAppSearch (fun k => if String.eqb k "ethereum_classic"
                             then Some {| managerAppName := "Ethereum Classic" |} else None)
      (fun _ => ["Ethereum"]) "speculos:nanoS@1.6.0:ethereum_classic@1.x" = Some q /\
    prop (search q) "appName" = JStr (parsed_appName q) /\
    prop (search q) "appVersion" = JUndefined.
Proof.
  destruct (parseAppSearch
              (fun k => if String.eqb k "ethereum_classic"
                        then Some {| managerAppName := "Ethereum Classic" |} else None)
              (fun _ => ["Ethereum"]) "speculos:nanoS@1.6.0:ethereum_classic@1.x")
    as [q|] eqn:Hq; [|by vm_compute in Hq].
  exists q. split; [done|].
  destruct (parseAppSearch_result _ _ _ q Hq) as (Hn & Hv & _). by split.
Defined.

(** ** Opening from a query *)

(** X12: when [openImplicitSpeculos] comes to create a device, the root and
    the seed are the truthy values of the environment, the model, the
    firmware and the version are those of the first candidate of the scan of
    the root that matches the parsed query, a candidate that stands for a
    binary of the tree, with a semantic version and for model a device, or
    the inherited object of a model directory named by an inherited key (a
    device when the root lists no such name); the name and the dependency are
    those of the parsed query, and the name, unless empty, is that of the
    candidate. *)
Theorem openImplicitSpeculos_creates (getEnv : string -> string)
    (path_join : string -> string -> string)
    (readdir : string -> option (list string))
    (semver_satisfies : string -> string -> bool)
    (findCryptoCurrencyByKeyword : string -> option CryptoCurrency)
    (getDependencies : string -> list string) (query : string)
    (m : jsval) (fw name version seed coinapps : string) (dep : jsval) :
  openImplicitSpeculos getEnv path_join readdir semver_satisfies
    findCryptoCurrencyByKeyword getDependencies query
  = CreateDevice m fw name version seed coinapps dep ->
  coinapps = getEnv "COINAPPS" /\ coinapps <> "" /\
  seed = getEnv "SEED" /\ seed <> "" /\
  exists cs q c,
    listAppCandidates path_join readdir coinapps = Ok cs /\
    parseAppSearch findCryptoCurrencyByKeyword getDependencies query = Some q /\
    findAppCandidate semver_satisfies cs (search q) = Some c /\
    scanned path_join readdir coinapps c /\
    m = model c /\ m ∈ device_models ++ inherited_models /\
    (forall names, readdir coinapps = Some names ->
       Forall (fun n => inherited_model n = false) names -> m ∈ device_models) /\
    fw = firmware c /\
    version = appVersion c /\ semver.valid version = true /\
    name = parsed_appName q /\ dep = dependency q /\
    (name <> "" -> appName c = name).
Proof.
  unfold openImplicitSpeculos, truthy. intros H.
  destruct (String.eqb_spec (getEnv "COINAPPS") "") as [|Hca]; cbn [negb] in H; [done|].
  destruct (String.eqb_spec (getEnv "SEED") "") as [|Hseed]; cbn [negb] in H; [done|].
  destruct (listAppCandidates _ _ _) as [cs|] eqn:Hcs; [|done].
  destruct (parseAppSearch _ _ query) as [q|] eqn:Hq; [|done].
  destruct (findAppCandidate _ cs (search q)) as [c|] eqn:Hc; [|done].
  injection H as <- <- <- <- <- <- <-.
  repeat (split; [done|]). exists cs, q, c. repeat (split; [done|]).
  pose proof Hc as Hfind. unfold findAppCandidate in Hfind.
  apply find_first in Hfind as (l1 & l2 & -> & Hmatch & _).
  destruct (listAppCandidates_scanned path_join readdir _ _ c Hcs)
    as (Hsc & Hmodel & Hdev & Hvalid).
  { apply elem_of_app. right. by left. }
  repeat (split; [done|]). intros Hname.
  destruct (parseAppSearch_fields _ _ _ _ Hq) as (Hn & _).
  unfold appCandidatesMatches in Hmatch. rewrite !andb_true_iff in Hmatch.
  destruct Hmatch as [[[_ Hmatch] _] _]. rewrite Hn in Hmatch.
  unfold absent_or in Hmatch. simpl in Hmatch.
  apply orb_true_iff in Hmatch as [Hempty|Heq].
  - rewrite negb_involutive in Hempty. by apply String.eqb_eq in Hempty.
  - apply bool_decide_eq_true in Heq. by simplify_eq.
Qed.

Lemma openImplicitSpeculos_creates_witness :
  openImplicitSpeculos
    (fun k => if String.eqb k "COINAPPS" then "apps" else "seed words")
    fixture_join (fixture_readdir ["1.6.0"; "2.0.0"]) (fun _ _ => true)
    (fun _ => None) (fun _ => []) "speculos:nanoX:bitcoin"
  = CreateDevice (JStr "nanoX") "2.0.0" "bitcoin" "1.3.1" "seed words" "apps" JUndefined /\
  JStr "nanoX" ∈ device_models /\ semver.valid "1.3.1" = true.
Proof.
  assert (openImplicitSpeculos
            (fun k => if String.eqb k "COINAPPS" then "apps" else "seed words")
            fixture_join (fixture_readdir ["1.6.0"; "2.0.0"]) (fun _ _ => true)
            (fun _ => None) (fun _ => []) "speculos:nanoX:bitcoin"
          = CreateDevice (JStr "nanoX") "2.0.0" "bitcoin" "1.3.1" "seed words" "apps"
              JUndefined) as H by by vm_compute.
  split; [exact H|].
  destruct (openImplicitSpeculos_creates _ _ _ _ _ _ _ _ _ _ _ _ _ _ H)
    as (_ & _ & _ & _ & cs & q & c & _ & _ & _ & _ & _ & _ & Hm & _ & _ & Hv & _).
  split; [|done]. apply (Hm ["nanos"; "nanox"]); [done|by repeat constructor].
Defined.

(** ** More on the table of instances *)

Lemma removal_inj (id id' : string) : removal id = removal id' -> id = id'.
Proof. unfold removal. intros [= H]. by apply String.app_inj in H. Qed.

Lemma removals_app (id : string) (tr evs : list event) :
  removals id (tr ++ evs) = (removals id tr + removals id evs)%nat.
Proof. unfold removals. by rewrite List.filter_app, length_app. Qed.

Lemma removals_destroy (id id' : string) :
  removals id [EvDelete id'; removal id'] = if decide (id = id') then 1%nat else 0%nat.
Proof.
  unfold removals. cbn [List.filter].
  rewrite bool_decide_eq_false_2 by (by unfold removal).
  destruct (decide (id = id')) as [->|Hne].
  - by rewrite bool_decide_eq_true_2.
  - rewrite bool_decide_eq_false_2; [done|]. by intros ?%removal_inj.
Qed.

Lemma spawned_app (id : string) (tr evs : list event) :
  spawned id tr -> spawned id (tr ++ evs).
Proof. intros (args & Hin & H). exists args. split; [|done]. apply elem_of_app. by left. Qed.

Section registry_more.
Context {Transport : Type}.
Implicit Types σ : state Transport.

Lemma shrinks_refl σ : shrinks σ σ.
Proof.
  repeat split; try done. exists []. split; [by rewrite app_nil_r|].
  intros e He. by apply elem_of_nil in He.
Qed.

Lemma shrinks_trans σ σ1 σ2 : shrinks σ σ1 -> shrinks σ1 σ2 -> shrinks σ σ2.
Proof.
  intros (Hc1 & Hs1 & (e1 & Ht1 & He1) & Hd1) (Hc2 & Hs2 & (e2 & Ht2 & He2) & Hd2).
  split; [congruence|]. split; [congruence|]. split; [|by eauto].
  exists (e1 ++ e2). split; [by rewrite Ht2, Ht1, app_assoc|].
  intros e [?|?]%elem_of_app; eauto.
Qed.

Lemma shrinks_destroy (id : string) σ : shrinks σ (destroy id σ).2.
Proof.
  destruct (data σ !! id) as [obj|] eqn:E.
  - rewrite (destroy_registered _ _ _ E). repeat split; simpl; try done.
    + eexists. split; [done|]. intros e. rewrite !elem_of_cons, elem_of_nil.
      intros [->|[->|[]]]; exists id; auto.
    + intros i o [_ H]%lookup_delete_Some. done.
  - rewrite destroy_unregistered by done. apply shrinks_refl.
Qed.

Lemma shrinks_release (id : string) σ : shrinks σ (releaseSpeculosDevice id σ).
Proof.
  unfold releaseSpeculosDevice. destruct (data σ !! id); [|apply shrinks_refl].
  apply shrinks_destroy.
Qed.

Lemma shrinks_release_all (ks : list string) σ :
  shrinks σ (foldl (fun σ id => releaseSpeculosDevice id σ) σ ks).
Proof.
  revert σ. induction ks as [|k ks IH]; intros σ; simpl; [apply shrinks_refl|].
  eapply shrinks_trans; [apply shrinks_release|apply IH].
Qed.

Lemma idCounter_step σ (a : action) σ' : step σ a σ' -> (idCounter σ <= idCounter σ')%N.
Proof.
  intros [σ0 m f an av sd ca dep|σ0 id n t Hn|σ0 id Hn|σ0 id|σ0 id|σ0 id|σ0|σ0]; simpl;
    try lia.
  - by destruct (shrinks_destroy id σ0) as [-> _].
  - by destruct (shrinks_release id σ0) as [-> _].
  - change (disconnect id σ0) with (releaseSpeculosDevice id σ0).
    by destruct (shrinks_release id σ0) as [-> _].
  - unfold closeAllSpeculosDevices.
    by destruct (shrinks_release_all (map fst (map_to_list (data σ0))) σ0) as [-> _].
Qed.

Lemma idCounter_steps σ (l : list action) σ' :
  steps σ l σ' -> (idCounter σ <= idCounter σ')%N.
Proof.
  induction 1 as [|σ a σ1 l' σ2 Hstep _ IH]; [lia|].
  apply idCounter_step in Hstep. lia.
Qed.

(** X13: the identifier a call of [createSpeculosDevice] takes names no
    record and no suspended call, and no later call takes it again. *)
Theorem createSpeculosDevice_fresh σ (m f an av sd ca : string) (dep : jsval)
    (l : list action) σ' (m' f' an' av' sd' ca' : string) (dep' : jsval) :
  reachable σ ->
  steps (createSpeculosDevice_spawn m f an av sd ca dep σ).2 l σ' ->
  data σ !! (createSpeculosDevice_spawn m f an av sd ca dep σ).1 = None /\
  suspended σ !! (createSpeculosDevice_spawn m f an av sd ca dep σ).1 = None /\
  (createSpeculosDevice_spawn m' f' an' av' sd' ca' dep' σ').1
  <> (createSpeculosDevice_spawn m f an av sd ca dep σ).1.
Proof.
  intros (_ & Hk & _)%well_formed_reachable Hsteps. simpl.
  assert (forall id, id = speculosID (idCounter σ + 1) ->
            ~ (is_Some (data σ !! id) \/ is_Some (suspended σ !! id))) as Hfresh.
  { intros id -> H. destruct (Hk _ H) as (k & Hk1%speculosID_inj & Hk2). lia. }
  specialize (Hfresh _ eq_refl).
  split; [|split].
  - apply eq_None_not_Some. tauto.
  - apply eq_None_not_Some. tauto.
  - apply idCounter_steps in Hsteps. simpl in Hsteps. intros ?%speculosID_inj. lia.
Qed.

Lemma ports_of_id_shrinks σ σ' : shrinks σ σ' -> ports_of_id σ -> ports_of_id σ'.
Proof.
  intros (_ & Hs & _ & Hd) [Hp1 Hp2]. split.
  - intros id obj H. by apply Hp1, Hd.
  - intros id n. rewrite Hs. apply Hp2.
Qed.

Lemma ports_of_id_step σ (a : action) σ' : ports_of_id σ -> step σ a σ' -> ports_of_id σ'.
Proof.
  intros Hp Hstep. pose proof Hp as [Hp1 Hp2].
  destruct Hstep as [σ m f an av sd ca dep|σ id n t Hn|σ id Hn|σ id|σ id|σ id|σ|σ].
  - split; simpl; [done|].
    intros i n [[<- <-]|[_ H]]%lookup_insert_Some; [done|by apply Hp2].
  - split; simpl.
    + intros i o [[<- <-]|[_ H]]%lookup_insert_Some; [|by apply Hp1].
      exists n. split; [by apply Hp2|done].
    + intros i k [_ H]%lookup_delete_Some. by apply Hp2.
  - split; simpl; [done|]. intros i k [_ H]%lookup_delete_Some. by apply Hp2.
  - eapply ports_of_id_shrinks; [apply shrinks_destroy|done].
  - eapply ports_of_id_shrinks; [apply shrinks_release|done].
  - eapply ports_of_id_shrinks; [apply (shrinks_release id)|done].
  - eapply ports_of_id_shrinks; [apply shrinks_release_all|done].
  - done.
Qed.

Lemma ports_of_id_steps σ (l : list action) σ' :
  ports_of_id σ -> steps σ l σ' -> ports_of_id σ'.
Proof. intros H Hs. induction Hs; eauto using ports_of_id_step. Qed.

Lemma ports_of_id_reachable σ : reachable σ -> ports_of_id σ.
Proof.
  intros [l Hl]. eapply ports_of_id_steps; [|apply Hl].
  split; intros id ?; simpl; by rewrite lookup_empty.
Qed.

(** X14: in every state the module reaches, the record registered under
    [speculosID-k] holds the ports 40000+k, 42000+k and 43000+k, so that two
    records under different identifiers differ in each of their ports. *)
Theorem registered_ports_distinct σ (id1 id2 : string) (o1 o2 : Device.t Transport) :
  reachable σ -> data σ !! id1 = Some o1 -> data σ !! id2 = Some o2 -> id1 <> id2 ->
  (exists k, id1 = speculosID k /\ Device.apduPort o1 = (40000 + k)%N
             /\ Device.buttonPort o1 = (42000 + k)%N
             /\ Device.automationPort o1 = (43000 + k)%N) /\
  Device.apduPort o1 <> Device.apduPort o2 /\
  Device.buttonPort o1 <> Device.buttonPort o2 /\
  Device.automationPort o1 <> Device.automationPort o2.
Proof.
  intros [Hp _]%ports_of_id_reachable H1 H2 Hne.
  destruct (Hp _ _ H1) as (k1 & -> & Ha1 & Hb1 & Hc1).
  destruct (Hp _ _ H2) as (k2 & -> & Ha2 & Hb2 & Hc2).
  assert (k1 <> k2) by congruence.
  rewrite Ha1, Ha2, Hb1, Hb2, Hc1, Hc2.
  unfold apduPort, buttonPort, automationPort.
  split; [by exists k1|]. repeat split; lia.
Qed.
Lemma release_all_registered (ks : list string) σ :
  well_formed σ -> NoDup ks -> (forall k, k ∈ ks -> is_Some (data σ !! k)) ->
  let σ' := foldl (fun σ id => releaseSpeculosDevice id σ) σ ks in
  (forall i, i ∈ ks -> data σ' !! i = None) /\
  (forall i, i ∉ ks -> data σ' !! i = data σ !! i) /\
  trace σ' = trace σ ++ release_events ks /\
  idCounter σ' = idCounter σ /\ suspended σ' = suspended σ.
Proof.
  revert σ. induction ks as [|k ks IH]; intros σ Hwf Hnd Hreg; cbn [foldl].
  - split; [by intros i ?%elem_of_nil|]. split; [done|].
    split; [by rewrite app_nil_r|done].
  - apply NoDup_cons in Hnd as [Hk Hnd].
    destruct (Hreg k) as [obj Hobj]; [by left|].
    rewrite release_destroy by done.
    pose proof (well_formed_destroy k σ Hwf) as Hwf1.
    rewrite (destroy_registered _ _ _ Hobj) in Hwf1 |- *. cbn [snd] in Hwf1 |- *.
    set (σ1 := {| idCounter := idCounter σ; data := delete k (data σ);
                  suspended := suspended σ;
                  trace := trace σ ++ [EvDelete k; removal k] |}) in *.
    destruct (IH σ1 Hwf1 Hnd) as (Hin & Hout & Ht & Hc & Hs).
    { intros k' Hk'. simpl. rewrite lookup_delete_ne; [apply Hreg; by right|].
      by intros ->. }
    split; [|split; [|split; [|done]]].
    + intros i [->|Hi]%elem_of_cons; [|by apply Hin].
      rewrite Hout by done. simpl. apply lookup_delete_eq.
    + intros i [Hne Hi]%not_elem_of_cons. rewrite Hout by done. simpl.
      by rewrite lookup_delete_ne.
    + rewrite Ht. simpl. by rewrite <- app_assoc.
Qed.

(** X15: from a state the module reaches, [closeAllSpeculosDevices] leaves no
    record; it runs, for each identifier that had one and once for each, the
    deletion of the record and then the removal of the container, and it
    leaves the counter and the suspended calls as they are. *)
Theorem closeAllSpeculosDevices_empties σ :
  reachable σ ->
  data (closeAllSpeculosDevices σ) = ∅ /\
  (exists ids, NoDup ids /\ (forall id, id ∈ ids <-> is_Some (data σ !! id)) /\
     trace (closeAllSpeculosDevices σ) = trace σ ++ release_events ids) /\
  idCounter (closeAllSpeculosDevices σ) = idCounter σ /\
  suspended (closeAllSpeculosDevices σ) = suspended σ.
Proof.
  intros Hwf%well_formed_reachable. set (ids := map fst (map_to_list (data σ))).
  assert (NoDup ids) as Hnd by apply NoDup_fst_map_to_list.
  assert (forall id, id ∈ ids <-> is_Some (data σ !! id)) as Hids.
  { intros id. unfold ids. rewrite list_elem_of_fmap. split.
    - intros ([i o] & -> & H%elem_of_map_to_list). by exists o.
    - intros [o Ho]. exists (id, o). split; [done|]. by apply elem_of_map_to_list. }
  destruct (release_all_registered ids σ Hwf Hnd) as (Hin & Hout & Ht & Hc & Hs).
  { intros k. apply Hids. }
  unfold closeAllSpeculosDevices. fold ids.
  split; [|split; [by exists ids|split; [exact Hc|exact Hs]]].
  apply map_eq. intros i.
  rewrite lookup_empty. destruct (decide (i ∈ ids)) as [Hi|Hn]; [by apply Hin|].
  rewrite Hout by done. apply eq_None_not_Some. by rewrite <- Hids.
Qed.

(** X16: releasing an instance leaves the other instances as they are: the
    records under other identifiers, what [open] gives for them, the counter
    and the suspended calls. *)
Theorem releaseSpeculosDevice_others σ (id other : string) :
  reachable σ -> other <> id ->
  data (releaseSpeculosDevice id σ) !! other = data σ !! other /\
  open other (releaseSpeculosDevice id σ) = open other σ /\
  idCounter (releaseSpeculosDevice id σ) = idCounter σ /\
  suspended (releaseSpeculosDevice id σ) = suspended σ.
Proof.
  intros Hwf%well_formed_reachable Hne. rewrite release_destroy by done.
  assert (data (destroy id σ).2 !! other = data σ !! other) as Hd.
  { destruct (data σ !! id) as [obj|] eqn:E.
    - rewrite (destroy_registered _ _ _ E). simpl. by rewrite lookup_delete_ne.
    - by rewrite destroy_unregistered. }
  destruct (shrinks_destroy id σ) as (Hc & Hs & _).
  repeat split; try done. unfold open. by rewrite Hd.
Qed.

Lemma container_history_initial : container_history (@initial Transport).
Proof.
  intros id. split; [|by left].
  intros [[? H]|[? H]]; simpl in H; by rewrite lookup_empty in H.
Qed.

Lemma container_history_destroy (id0 : string) σ :
  well_formed σ -> container_history σ -> container_history (destroy id0 σ).2.
Proof.
  intros Hwf Hh. pose proof Hwf as (Hd & Hk & Hs).
  destruct (data σ !! id0) as [obj|] eqn:E; [|by rewrite destroy_unregistered].
  rewrite (destroy_registered _ _ _ E). intros id. cbn [snd data suspended trace].
  rewrite removals_app, removals_destroy.
  destruct (Hh id) as [HA HB]. destruct (decide (id = id0)) as [->|Hne].
  - destruct HA as [Hsp H0]; [left; eauto|]. split.
    + intros [[o Ho]|Hsus].
      * by rewrite lookup_delete_eq in Ho.
      * rewrite Hs in Hsus by eauto. by destruct Hsus.
    + right. rewrite H0. split; [done|]. split; [|by apply spawned_app].
      split; [apply lookup_delete_eq|]. split; [apply Hs; eauto|].
      apply Hk; eauto.
  - rewrite Nat.add_0_r. split.
    + intros H. destruct HA as [Hsp H0].
      { destruct H as [H|H]; [left|by right]. by rewrite lookup_delete_ne in H. }
      split; [by apply spawned_app|done].
    + destruct HB as [H0|(H1 & Hr & Hsp)]; [by left|right].
      split; [done|]. split; [|by apply spawned_app].
      pose proof (retired_destroy id id0 σ Hr) as Hr'.
      by rewrite (destroy_registered _ _ _ E) in Hr'.
Qed.

Lemma container_history_release_all (ks : list string) σ :
  well_formed σ -> container_history σ ->
  container_history (foldl (fun σ id => releaseSpeculosDevice id σ) σ ks).
Proof.
  revert σ. induction ks as [|k ks IH]; intros σ Hwf Hh; simpl; [done|].
  rewrite release_destroy by done.
  apply IH; [by apply well_formed_destroy|by apply container_history_destroy].
Qed.

Lemma removals_snoc_other (id : string) (tr : list event) (e : event) :
  (forall i, e <> removal i) -> removals id (tr ++ [e]) = removals id tr.
Proof.
  intros He. rewrite removals_app. unfold removals at 2. cbn [List.filter].
  rewrite bool_decide_eq_false_2 by apply He. simpl. lia.
Qed.

Lemma container_history_step σ (a : action) σ' :
  well_formed σ -> container_history σ -> step σ a σ' -> container_history σ'.
Proof.
  intros Hwf Hh Hstep. pose proof Hwf as (Hd & Hk & Hs).
  destruct Hstep as [σ m f an av sd ca dep|σ id0 n t Hn|σ id0 Hn|σ id0|σ id0|σ id0|σ|σ].
  - intros id. cbn [data suspended trace snd createSpeculosDevice_spawn].
    rewrite removals_snoc_other by (by unfold removal).
    destruct (Hh id) as [HA HB]. split.
    + intros [H|H].
      * destruct HA as [Hsp H0]; [by left|]. split; [by apply spawned_app|done].
      * apply lookup_insert_is_Some in H as [<-|[_ H]].
        -- split.
           ++ eexists. split; [apply elem_of_app; right; by left|]. by split.
           ++ destruct HB as [H0|(_ & (_ & _ & k & Hk1%speculosID_inj & Hk2) & _)];
                [done|lia].
        -- destruct HA as [Hsp H0]; [by right|]. split; [by apply spawned_app|done].
    + destruct HB as [H0|(H1 & Hr & Hsp)]; [by left|right].
      split; [done|]. split; [|by apply spawned_app].
      by apply (retired_step id σ _ _ Hr (step_create σ m f an av sd ca dep)).
  - intros id. cbn [data suspended trace snd createSpeculosDevice_resume].
    rewrite removals_snoc_other by (by unfold removal).
    destruct (Hh id) as [HA HB]. split.
    + intros H. destruct HA as [Hsp H0].
      { destruct H as [H|H].
        - apply lookup_insert_is_Some in H as [<-|[_ H]]; [right; eauto|by left].
        - apply lookup_delete_is_Some in H as [_ H]. by right. }
      split; [by apply spawned_app|done].
    + destruct HB as [H0|(H1 & Hr & Hsp)]; [by left|right].
      split; [done|]. split; [|by apply spawned_app].
      by apply (retired_step id σ _ _ Hr (step_resume σ id0 n t Hn)).
  - intros id. cbn [data suspended trace createSpeculosDevice_reject].
    destruct (Hh id) as [HA HB]. split.
    + intros H. apply HA. destruct H as [H|H]; [by left|].
      apply lookup_delete_is_Some in H as [_ H]. by right.
    + destruct HB as [H0|(H1 & Hr & Hsp)]; [by left|right].
      split; [done|]. split; [|done].
      by apply (retired_step id σ _ _ Hr (step_reject σ id0 Hn)).
  - by apply container_history_destroy.
  - rewrite release_destroy by done. by apply container_history_destroy.
  - change (disconnect id0 σ) with (releaseSpeculosDevice id0 σ).
    rewrite release_destroy by done. by apply container_history_destroy.
  - by apply container_history_release_all.
  - intros id. cbn [data suspended trace createSpeculosDevice_throws].
    destruct (Hh id) as [HA HB]. split; [done|].
    destruct HB as [H0|(H1 & Hr & Hsp)]; [by left|right].
    split; [done|]. split; [|done].
    by apply (retired_step id σ _ _ Hr (step_create_throws σ)).
Qed.

Lemma container_history_steps σ (l : list action) σ' :
  well_formed σ -> container_history σ -> steps σ l σ' -> container_history σ'.
Proof.
  intros Hwf Hh Hs. induction Hs as [|σ a σ1 l' σ2 Hstep _ IH]; [done|].
  apply IH; [by eapply well_formed_step|by eapply container_history_step].
Qed.

(** X17: along every run of the module a container is removed at most once;
    the one removed was spawned under that name and its identifier is
    retired; and the instance of a record or of a suspended call was spawned
    under its identifier and has not been removed. *)
Theorem container_removed_once σ (id : string) :
  reachable σ ->
  (removals id (trace σ) <= 1)%nat /\
  (removals id (trace σ) = 1%nat -> retired σ id /\ spawned id (trace σ)) /\
  (is_Some (data σ !! id) \/ is_Some (suspended σ !! id) ->
   spawned id (trace σ) /\ removals id (trace σ) = 0%nat).
Proof.
  intros [l Hl].
  pose proof (container_history_steps _ _ _ well_formed_initial
                container_history_initial Hl id) as [HA HB].
  split; [|split; [|done]].
  - destruct HB as [->|[-> _]]; lia.
  - intros H1. destruct HB as [H0|(_ & Hr & Hsp)]; [lia|done].
Qed.
End registry_more.

Lemma createSpeculosDevice_fresh_witness :
  (createSpeculosDevice_spawn "nanoX" "2.0.0" "bitcoin" "1.3.1" "seed" "/coinapps"
     JUndefined demo_registered).1
  <> (createSpeculosDevice_spawn "nanoS" "1.6.0" "bitcoin" "1.3.1" "seed" "/coinapps"
        JUndefined (@initial nat)).1.
Proof.
  refine (proj2 (proj2 (createSpeculosDevice_fresh (@initial nat) "nanoS" "1.6.0" "bitcoin"
            "1.3.1" "seed" "/coinapps" JUndefined [Resume (speculosID 1) 7%nat]
            demo_registered "nanoX" "2.0.0" "bitcoin" "1.3.1" "seed" "/coinapps"
            JUndefined _ _))).
  - exists []. apply steps_nil.
  - eapply steps_cons; [|apply steps_nil].
    apply (step_resume _ (speculosID 1) 1 7%nat). apply lookup_insert_eq.
Defined.

Lemma steps_app {Transport} (σ σ1 σ2 : state Transport) (l l' : list action) :
  steps σ l σ1 -> steps σ1 l' σ2 -> steps σ (l ++ l') σ2.
Proof.
  intros H1 H2. induction H1 as [|σ a σ' k σ'' Hstep _ IH]; [done|].
  eapply steps_cons; [apply Hstep|by apply IH].
Qed.

Lemma reachable_step {Transport} (σ σ' : state Transport) (a : action) :
  reachable σ -> step σ a σ' -> reachable σ'.
Proof.
  intros [l Hl] Hstep. exists (l ++ [a]). eapply steps_app; [apply Hl|].
  eapply steps_cons; [apply Hstep|apply steps_nil].
Qed.

Lemma demo_registered_reachable : reachable demo_registered.
Proof.
  exists [Create "nanoS" "1.6.0" "bitcoin" "1.3.1" "seed" "/coinapps" JUndefined;
          Resume (speculosID 1) 7%nat].
  eapply steps_cons; [apply step_create|].
  eapply steps_cons; [|apply steps_nil].
  apply (step_resume _ (speculosID 1) 1 7%nat). apply lookup_insert_eq.
Qed.

Lemma demo_two_reachable : reachable demo_two.
Proof.
  eapply reachable_step; [eapply reachable_step; [apply demo_registered_reachable|]|].
  - apply (step_create _ "nanoX" "2.0.0" "bitcoin" "1.3.1" "seed" "/coinapps" JUndefined).
  - apply (step_resume _ (speculosID 2) 2 8%nat). apply lookup_insert_eq.
Qed.

Lemma speculosID_1_2 : speculosID 1 <> speculosID 2.
Proof. by intros ?%speculosID_inj. Qed.

Lemma demo_two_data :
  data demo_two
  = <[speculosID 2 := {| Device.apduPort := apduPort 2; Device.buttonPort := buttonPort 2;
                         Device.automationPort := automationPort 2;
                         Device.transport := 8%nat; Device.destroy := speculosID 2 |}]>
      (<[speculosID 1 := {| Device.apduPort := apduPort 1; Device.buttonPort := buttonPort 1;
                            Device.automationPort := automationPort 1;
                            Device.transport := 7%nat; Device.destroy := speculosID 1 |}]> ∅).
Proof. reflexivity. Qed.

Lemma demo_two_1 : is_Some (data demo_two !! speculosID 1).
Proof.
  rewrite demo_two_data, lookup_insert_ne by (intros H; by apply speculosID_1_2).
  rewrite lookup_insert_eq. by eexists.
Qed.

Lemma demo_two_2 : is_Some (data demo_two !! speculosID 2).
Proof. rewrite demo_two_data, lookup_insert_eq. by eexists. Qed.

Lemma release_events_removal (id : string) (ids : list string) :
  id ∈ ids -> removal id ∈ release_events ids.
Proof.
  induction 1 as [id ids|id k ids _ IH]; cbn [release_events flat_map app].
  - right. by left.
  - right. right. apply IH.
Qed.

Lemma registered_ports_distinct_witness :
  exists o1 o2 : Device.t nat,
    data demo_two !! speculosID 1 = Some o1 /\ data demo_two !! speculosID 2 = Some o2 /\
    Device.apduPort o1 <> Device.apduPort o2 /\
    Device.buttonPort o1 <> Device.buttonPort o2 /\
    Device.automationPort o1 <> Device.automationPort o2.
Proof.
  destruct demo_two_1 as [o1 H1]. destruct demo_two_2 as [o2 H2]. exists o1, o2.
  destruct (registered_ports_distinct demo_two (speculosID 1) (speculosID 2) o1 o2
              demo_two_reachable H1 H2 speculosID_1_2) as (_ & Ha & Hb & Hc).
  by repeat split.
Defined.

Lemma closeAllSpeculosDevices_empties_witness :
  data (closeAllSpeculosDevices demo_two) = ∅ /\
  removal (speculosID 1) ∈ trace (closeAllSpeculosDevices demo_two) /\
  removal (speculosID 2) ∈ trace (closeAllSpeculosDevices demo_two).
Proof.
  destruct (closeAllSpeculosDevices_empties demo_two demo_two_reachable)
    as (Hd & (ids & Hnd & Hids & Ht) & _).
  split; [exact Hd|]. rewrite Ht.
  split; apply elem_of_app; right; apply release_events_removal, Hids.
  - apply demo_two_1.
  - apply demo_two_2.
Defined.

Lemma releaseSpeculosDevice_others_witness :
  open (speculosID 2) (releaseSpeculosDevice (speculosID 1) demo_two) = Resolved 8%nat.
Proof.
  destruct (releaseSpeculosDevice_others demo_two (speculosID 1) (speculosID 2)
              demo_two_reachable) as (_ & -> & _).
  - intros H. by apply speculosID_1_2.
  - unfold open. rewrite speculosID_prefix, demo_two_data, lookup_insert_eq. done.
Defined.

Lemma container_removed_once_witness :
  spawned (speculosID 2) (trace demo_two) /\
  removals (speculosID 2) (trace demo_two) = 0%nat /\
  (removals (speculosID 1) (trace demo_two) <= 1)%nat.
Proof.
  destruct (container_removed_once demo_two (speculosID 2) demo_two_reachable)
    as (_ & _ & H2).
  destruct (container_removed_once demo_two (speculosID 1) demo_two_reachable)
    as (H1 & _).
  destruct H2 as [Hsp H0]; [left; apply demo_two_2|].
  by repeat split.
Defined.

Lemma substring_0_length (t : string) : String.substring 0 (String.length t) t = t.
Proof. induction t as [|a t IH]; simpl; [done|by rewrite IH]. Qed.

Lemma slice_from_query (t : string) : slice_from ("speculos:" +:+ t) 9 = t.
Proof.
  unfold slice_from. rewrite length_append.
  replace (String.length "speculos:" + String.length t - 9)%nat with (String.length t)
    by (simpl; lia).
  rewrite !append_cons. change ("" +:+ t) with t. cbn [String.substring].
  apply substring_0_length.
Qed.

(** X18: the two prefixes [open] tests exclude each other: an identifier is
    passed on to [openImplicitSpeculos] exactly when it starts with
    "speculos:", whatever the table holds, and what [parseAppSearch] cuts off
    with [slice(9)] is then that prefix; and [close] answers for every
    identifier [open] answers for. *)
Theorem open_dispatch {Transport : Type} (σ : state Transport) (id : string)
    (transport : Transport) :
  (open id σ = OpenImplicit id <-> startsWith id "speculos:" = true) /\
  (forall q, open id σ = OpenImplicit q -> q = id /\ id = "speculos:" +:+ slice_from id 9) /\
  (open id σ <> NoTransport -> close transport id = Some tt).
Proof.
  assert (startsWith id "speculos:" = true -> startsWith id "speculosID" = false) as Hex.
  { intros [t ->]%startsWith_app. reflexivity. }
  assert (startsWith id "speculos:" = true -> id = "speculos:" +:+ slice_from id 9) as Hcut.
  { intros [t ->]%startsWith_app. by rewrite slice_from_query. }
  assert (startsWith id "speculosID" = true \/ startsWith id "speculos:" = true ->
          startsWith id "speculos" = true) as Hpre.
  { intros [[t ->]%startsWith_app|[t ->]%startsWith_app]; reflexivity. }
  unfold open, close.
  destruct (startsWith id "speculosID") eqn:E1.
  - rewrite Hpre by by left. split; [|split; [|done]].
    + split; [by destruct (data σ !! id)|]. intros H. by specialize (Hex H).
    + intros q. by destruct (data σ !! id).
  - destruct (startsWith id "speculos:") eqn:E2.
    + rewrite Hpre by by right. split; [done|]. split; [|done].
      intros q [= <-]. split; [done|]. by apply Hcut.
    + split; [done|]. split; [done|]. by intros [].
Qed.
